(** * Delay-space spectrum estimation and filtering

    A shallow embedding of [draco/analysis/delay.py]: the window generator,
    the Fourier design matrices, the Gibbs delay-spectrum sampler, the
    null-delay projector and the two pipeline tasks that drive them.

    Conventions of the embedding.
    - [float64] and [complex128] values are read as exact real and complex
      numbers: every statement below is about the arithmetic the code
      performs, not about its rounding.
    - The source is Python 2: [/] between two integers is floor division
      ([Z.div]), and [range]/[np.arange] of a non-positive bound is empty.
    - A Python call either returns a value or raises: [result].  Where
      the code goes on with a value that is no real number ([nan], [inf])
      or with an array whose shape a list cannot carry, the embedding
      stops with [Unrepresented], which is no exception of the program:
      such a result says nothing about what the code does from there on.
      Where the library itself refuses such a value, the embedding has the
      exception the library raises.
    - Calls into SciPy whose result is not determined by a formula
      ([scipy.linalg.svd], [scipy.linalg.solve]) and the random draws are
      inputs of the embedding, constrained by the library's contract.
    - Arrays are lists and matrices lists of rows, so a matrix without
      rows carries no column count; operations that need one take it as an
      argument.
    - The tasks are modelled on one worker, where the local and the global
      index of a product or baseline coincide. *)

From Stdlib Require Import String.
From Stdlib Require Import Reals Lra Lia List ZArith Bool Sorted.
Import ListNotations.
Open Scope R_scope.

(** ** Python results *)

Inductive exn : Type :=
| KeyError (key : string)
| TypeError (msg : string)
| NotImplementedError (msg : string)
| InvalidConfiguration (msg : string)
| ValueError (msg : string)
| IndexError (msg : string)
| ZeroDivisionError (msg : string)
| LinAlgError (msg : string)
| Unrepresented (what : string).

Inductive result (A : Type) : Type :=
| Ok (a : A)
| Raise (e : exn).

Arguments Ok {A} a.
Arguments Raise {A} e.

Definition bind {A B : Type} (r : result A) (k : A -> result B) : result B :=
  match r with
  | Ok a => k a
  | Raise e => Raise e
  end.

Notation "x <- r ;; k" := (bind r (fun x => k))
  (at level 61, r at next level, right associativity).

(** [d[key]] on a dict written as a literal: the first binding of the key,
    [KeyError] when there is none. *)
Fixpoint dict_getitem {V : Type} (d : list (string * V)) (key : string)
  : result V :=
  match d with
  | [] => Raise (KeyError key)
  | (k, v) :: d' => if String.eqb k key then Ok v else dict_getitem d' key
  end.

(** ** Arrays *)

Definition vec := list R.
Definition matrix := list (list R).

(** [np.arange(n)] for an integer [n]. *)
Definition arange (n : Z) : list Z := map Z.of_nat (seq 0 (Z.to_nat n)).

Fixpoint zipWith {A B C : Type} (f : A -> B -> C) (u : list A) (v : list B)
  : list C :=
  match u, v with
  | a :: u', b :: v' => f a b :: zipWith f u' v'
  | _, _ => []
  end.

Fixpoint imap_from {A B : Type} (f : nat -> A -> B) (k : nat) (l : list A)
  : list B :=
  match l with
  | [] => []
  | a :: l' => f k a :: imap_from f (S k) l'
  end.

(** Map with the position of each element. *)
Definition imap {A B : Type} (f : nat -> A -> B) (l : list A) : list B :=
  imap_from f 0 l.

Section Tables.
Context {T : Type}.

(** The [n] by [m] table whose entry [(i, j)] is [f i j]. *)
Definition mk_matrix (n m : nat) (f : nat -> nat -> T) : list (list T) :=
  map (fun i => map (f i) (seq 0 m)) (seq 0 n).

(** [g(x, y)] over the broadcast of a column [xs[:, newaxis]] against a
    row [ys[newaxis, :]]. *)
Definition outer {A B : Type} (g : A -> B -> T) (xs : list A) (ys : list B)
  : list (list T) :=
  map (fun x => map (g x) ys) xs.

Definition nrows (M : list (list T)) : nat := length M.
Definition ncols (M : list (list T)) : nat := length (hd [] M).

(** [M[start::2] = A]: row [start + 2 k] of [M] becomes row [k] of [A]. *)
Definition set_rows_step2 (start : nat) (A M : list (list T))
  : list (list T) :=
  imap (fun r row =>
          if (start <=? r)%nat && Nat.even (r - start)
          then nth ((r - start) / 2) A row
          else row) M.

(** [M[:, start::2] = A]: column [start + 2 k] of [M] becomes column [k]
    of [A]. *)
Definition set_cols_step2 (start : nat) (A M : list (list T))
  : list (list T) :=
  imap (fun i row =>
          imap (fun c x =>
                  if (start <=? c)%nat && Nat.even (c - start)
                  then nth ((c - start) / 2) (nth i A []) x
                  else x) row) M.
End Tables.

(** Entry [(i, j)] of a real matrix. *)
Definition get (M : matrix) (i j : nat) : R := nth j (nth i M []) 0.

Definition zeros (n m : nat) : matrix := mk_matrix n m (fun _ _ => 0).

(** [M.sum(axis=0)] of a matrix with [m] columns. *)
Definition sum_axis0 (m : nat) (M : matrix) : vec :=
  fold_left (zipWith Rplus) M (repeat 0 m).

(** The sum of [f 0 .. f (n - 1)]. *)
Definition bsum (f : nat -> R) (n : nat) : R :=
  fold_right Rplus 0 (map f (seq 0 n)).

Definition dot (u v : vec) : R := fold_right Rplus 0 (zipWith Rmult u v).

Definition col (j : nat) (M : matrix) : vec := map (fun row => nth j row 0) M.

(** [np.dot(A, B)] where [B] has [m] columns. *)
Definition mat_mul_to (m : nat) (A B : matrix) : matrix :=
  map (fun row => map (fun j => dot row (col j B)) (seq 0 m)) A.

(** [np.dot(A, B)] of two matrices, [B] with at least one row. *)
Definition mat_mul (A B : matrix) : matrix := mat_mul_to (ncols B) A B.

(** [np.dot(A, x)] of a matrix and a vector. *)
Definition mat_vec (A : matrix) (x : vec) : vec :=
  map (fun row => dot row x) A.

Definition identity (n : nat) : matrix :=
  mk_matrix n n (fun i j => if (i =? j)%nat then 1 else 0).

(** ** Window generator *)

Definition a_table : list (string * vec) :=
  [ ("nuttall"%string, [0.355768; -0.487396; 0.144232; -0.012604]);
    ("blackman_nuttall"%string,
      [0.3635819; -0.4891775; 0.1365995; -0.0106411]);
    ("blackman_harris"%string, [0.35875; -0.48829; 0.14128; -0.01168]) ].

Definition window_generalised (x : vec) (window : string) : result vec :=
  a <- dict_getitem a_table window ;;
  let t := outer (fun k xj => 2 * PI * IZR k * xj) (arange 4) x in
  let w := sum_axis0 (length x)
             (zipWith (fun ak row => map (fun tkj => ak * cos tkj) row) a t) in
  Ok w.

(** The cosine sum the window families share. *)
Definition cosine_sum (a0 a1 a2 a3 x : R) : R :=
  a0 * cos (2 * PI * 0 * x) + a1 * cos (2 * PI * 1 * x)
  + a2 * cos (2 * PI * 2 * x) + a3 * cos (2 * PI * 3 * x).

(** ** Fourier design matrices *)

(** The channel indices a design matrix is built for: all of [0 .. N/2]
    when no selection is given. *)
Definition channels (N : Z) (fsel : option (list Z)) : list Z :=
  match fsel with
  | None => arange (N / 2 + 1)
  | Some l => l
  end.

Definition phase (N t f : Z) : R := 2 * PI * IZR t * IZR f / IZR N.

Definition fourier_matrix_r2c (N : Z) (fsel : option (list Z)) : matrix :=
  let fa := channels N fsel in
  let ta := arange N in
  let Fr := zeros (2 * length fa) (Z.to_nat N) in
  let Fr := set_rows_step2 0 (outer (fun f t => cos (phase N t f)) fa ta) Fr in
  let Fr :=
    set_rows_step2 1 (outer (fun f t => - sin (phase N t f)) fa ta) Fr in
  Fr.

(** [np.where((fa == 0) | (fa == N / 2), 1.0, 2.0) / N] at one channel. *)
Definition c2r_mul (N f : Z) : R :=
  (if (f =? 0)%Z || (f =? N / 2)%Z then 1 else 2) / IZR N.

Definition fourier_matrix_c2r (N : Z) (fsel : option (list Z)) : matrix :=
  let fa := channels N fsel in
  let mul := map (c2r_mul N) fa in
  let ta := arange N in
  let Fr := zeros (Z.to_nat N) (2 * length fa) in
  let Fr :=
    set_cols_step2 0
      (map (fun t => zipWith (fun f m => cos (phase N t f) * m) fa mul) ta)
      Fr in
  let Fr :=
    set_cols_step2 1
      (map (fun t => zipWith (fun f m => - sin (phase N t f) * m) fa mul) ta)
      Fr in
  Fr.

(** ** Reductions of a vector *)

(** [a.min()] and [a.max()]; NumPy refuses an empty array. *)
Definition vmin (a : vec) : result R :=
  match a with
  | [] => Raise (ValueError "zero-size array to reduction operation minimum")
  | x :: a' => Ok (fold_left Rmin a' x)
  end.

Definition vmax (a : vec) : result R :=
  match a with
  | [] => Raise (ValueError "zero-size array to reduction operation maximum")
  | x :: a' => Ok (fold_left Rmax a' x)
  end.

(** [a.ptp()], the peak-to-peak range. *)
Definition ptp (a : vec) : result R :=
  hi <- vmax a ;; lo <- vmin a ;; Ok (hi - lo).

(** [np.linspace(start, stop, num)]. *)
Definition linspace (start stop : R) (num : nat) : vec :=
  map (fun i => start + INR i * ((stop - start) / INR (num - 1))) (seq 0 num).

(** [np.sum(sig > thr)]: how many entries exceed the threshold. *)
Definition count_gt (thr : R) (sig : vec) : nat :=
  length (filter (fun s => if Rlt_dec thr s then true else false) sig).

(** ** Complex numbers and complex matrices *)

Definition complex : Type := (R * R)%type.

Definition RtoC (x : R) : complex := (x, 0).
Definition c0 : complex := RtoC 0.
Definition c1 : complex := RtoC 1.
Definition cadd (a b : complex) : complex := (fst a + fst b, snd a + snd b).
Definition copp (a : complex) : complex := (- fst a, - snd a).
Definition csub (a b : complex) : complex := (fst a - fst b, snd a - snd b).
Definition cmul (a b : complex) : complex :=
  (fst a * fst b - snd a * snd b, fst a * snd b + snd a * fst b).
Definition cconj (a : complex) : complex := (fst a, - snd a).

(** [np.exp(1j * theta)] for a real [theta]. *)
Definition cexp_i (theta : R) : complex := (cos theta, sin theta).

Definition cmatrix := list (list complex).

Definition cget (M : cmatrix) (i j : nat) : complex := nth j (nth i M []) c0.

Definition csum (f : nat -> complex) (n : nat) : complex :=
  fold_right cadd c0 (map f (seq 0 n)).

Definition cdot (u v : list complex) : complex :=
  fold_right cadd c0 (zipWith cmul u v).

Definition ccol (j : nat) (M : cmatrix) : list complex :=
  map (fun row => nth j row c0) M.

(** [np.dot(A, B)] where [B] has [m] columns. *)
Definition cmat_mul (m : nat) (A B : cmatrix) : cmatrix :=
  map (fun row => map (fun j => cdot row (ccol j B)) (seq 0 m)) A.

(** [M.T.conj()] of a matrix with [m] columns. *)
Definition conj_transpose (m : nat) (M : cmatrix) : cmatrix :=
  map (fun j => map cconj (ccol j M)) (seq 0 m).

(** The Kronecker delta. *)
Definition cdelta (i j : nat) : complex := if (i =? j)%nat then c1 else c0.

Definition cidentity (n : nat) : cmatrix := mk_matrix n n cdelta.

Definition cmat_sub (A B : cmatrix) : cmatrix := zipWith (zipWith csub) A B.

(** ** Null-delay projector *)

(** What [scipy.linalg.svd] returns: [u], the singular values and [vh]. *)
Record svd_result : Type := {
  svd_u : cmatrix;
  svd_sig : vec;
  svd_vh : cmatrix
}.

(** [U] is an [n] by [n] matrix with orthonormal columns. *)
Definition unitary (n : nat) (U : cmatrix) : Prop :=
  length U = n
  /\ (forall i, (i < n)%nat -> length (nth i U []) = n)
  /\ forall i j, (i < n)%nat -> (j < n)%nat ->
       csum (fun l => cmul (cconj (cget U l i)) (cget U l j)) n
       = cdelta i j.

(** The contract of [scipy.linalg.svd] on an [n] by [m] matrix [F]:
    [F = u diag(sig) vh] with [u] and [vh] unitary and the singular values
    non-negative, in descending order. *)
Definition is_svd (n m : nat) (F : cmatrix) (r : svd_result) : Prop :=
  let k := Nat.min n m in
  length (svd_sig r) = k
  /\ (forall s, In s (svd_sig r) -> 0 <= s)
  /\ (forall i j, (i <= j)%nat -> (j < k)%nat ->
        nth j (svd_sig r) 0 <= nth i (svd_sig r) 0)
  /\ unitary n (svd_u r)
  /\ unitary m (svd_vh r)
  /\ forall i j, (i < n)%nat -> (j < m)%nat ->
       cget F i j
       = csum (fun l => cmul (cmul (cget (svd_u r) i l)
                                   (RtoC (nth l (svd_sig r) 0)))
                             (cget (svd_vh r) l j)) k.

(** The windowed and masked design matrix
    [(mask * w)[:, newaxis] * exp(2j pi delay[newaxis, :] freq[:, newaxis])]. *)
Definition delay_design_matrix (mw freq delay : vec) : cmatrix :=
  zipWith (fun m f => map (fun dl => cmul (RtoC m) (cexp_i (2 * PI * dl * f)))
                          delay) mw freq.

(** [nmodes = np.sum(sig > tol * sig.max())]. *)
Definition removed_modes (tol : R) (sig : vec) : result nat :=
  smax <- vmax sig ;; Ok (count_gt (tol * smax) sig).

(** [np.identity(n) - np.dot(p, p.T.conj())] for [p = u[:, :nmodes]]. *)
Definition null_projector (n nmodes : nat) (u : cmatrix) : cmatrix :=
  let p := map (firstn nmodes) u in
  cmat_sub (cidentity n) (cmat_mul n p (conj_transpose nmodes p)).

(** Entry [(i, j)] of [np.dot(p, p.T.conj())] for [p] the first [r]
    columns of [u]. *)
Definition gram (u : cmatrix) (r i j : nat) : complex :=
  csum (fun k => cmul (cget u i k) (cconj (cget u j k))) r.

(** The window of the filter: the Nuttall window at the frequencies,
    rescaled to run from 0 to 1.  On an axis whose channels all have one
    frequency the range is zero and every location is [0/0]: the window
    and the design matrix are [nan], which [scipy.linalg.svd] refuses
    ([check_finite]) before anything else is done with them. *)
Definition filter_window (freq : vec) : result vec :=
  lo <- vmin freq ;;
  range <- ptp freq ;;
  if Req_dec_T range 0
  then Raise (ValueError "array must not contain infs or NaNs")
  else
    let x := map (fun f => (f - lo) / range) freq in
    window_generalised x "nuttall".

(** The matrix [F] handed to the decomposition. *)
Definition filter_design (freq : vec) (max_delay : R) (mask : vec)
  (num_delay : nat) (w : vec) : cmatrix :=
  let delay := linspace (- max_delay) max_delay num_delay in
  delay_design_matrix (zipWith Rmult mask w) freq delay.

(** [freq], [mask]: one entry per channel.  [svd] stands for
    [scipy.linalg.svd].  The line printed with the number of removed modes
    is not part of the result. *)
Definition null_delay_filter (svd : cmatrix -> svd_result)
  (freq : vec) (max_delay : R) (mask : vec) (num_delay : nat) (tol : R)
  (window : bool) : result cmatrix :=
  w <- filter_window freq ;;
  let F := filter_design freq max_delay mask num_delay w in
  let usv := svd F in
  nmodes <- removed_modes tol (svd_sig usv) ;;
  let proj := null_projector (length freq) nmodes (svd_u usv) in
  let proj :=
    if window
    then map (fun row => zipWith (fun m z => cmul (RtoC m) z)
                           (zipWith Rmult mask w) row) proj
    else proj in
  Ok proj.

(** The defaults of [null_delay_filter]. *)
Definition default_num_delay : nat := 200.
Definition default_tol : R := 1 / 100000000.

(** ** Gibbs delay-spectrum sampler *)

(** [M.T] of a matrix with [m] columns. *)
Definition transpose (m : nat) (M : matrix) : matrix :=
  map (fun j => col j M) (seq 0 m).

Definition mat_add (A B : matrix) : matrix := zipWith (zipWith Rplus) A B.

(** [np.diag(v)]. *)
Definition diag (v : vec) : matrix :=
  mk_matrix (length v) (length v)
    (fun i j => if (i =? j)%nat then nth i v 0 else 0).

(** [M * v[:, newaxis]]: row [i] of [M] times [v[i]]. *)
Definition scale_rows (v : vec) (M : matrix) : matrix :=
  zipWith (fun vi row => map (fun a => a * vi) row) v M.

(** [M * v[newaxis, :]]: column [j] of [M] times [v[j]]. *)
Definition scale_cols (v : vec) (M : matrix) : matrix :=
  map (fun row => zipWith Rmult row v) M.

(** [np.repeat(w, 2)]. *)
Definition repeat2 (w : vec) : vec := flat_map (fun a => [a; a]) w.

(** [v[start::2] = a] on a vector. *)
Definition set_step2 (start : nat) (a v : vec) : vec :=
  imap (fun c x =>
          if (start <=? c)%nat && Nat.even (c - start)
          then nth ((c - start) / 2) a x
          else x) v.

(** [data.astype(complex128).view(float64).T.copy()]: from one row per time
    sample holding complex channels to one row per real or imaginary part
    of a channel, holding the time samples. *)
Definition view_float64 (data : cmatrix) : matrix :=
  map (flat_map (fun z : complex => [fst z; snd z])) data.

(** [a.var()] of one row: the mean squared deviation from the mean. *)
Definition var (row : vec) : R :=
  let n := INR (length row) in
  let mu := fold_right Rplus 0 row / n in
  fold_right Rplus 0 (map (fun a => (a - mu) * (a - mu)) row) / n.

(** The random numbers one iteration consumes: the two standard-normal
    arrays of the signal draw and the chi-squared draws of the spectrum
    draw. *)
Record rng_draw : Type := {
  w1 : matrix;
  w2 : matrix;
  chi2 : vec
}.

Section GibbsSampler.
(** [scipy.linalg.solve(Ci, y, sym_pos=True)]. *)
Variable solve : matrix -> matrix -> result matrix.

Variables (data : cmatrix) (N : Z) (Ni : vec) (window : bool)
          (fsel : option (list Z)).

Definition total_freq : Z := N / 2 + 1.

Definition gibbs_fsel : list Z :=
  match fsel with
  | None => arange total_freq
  | Some l => l
  end.

(** The window of the sampler, one weight per real or imaginary part. *)
Definition gibbs_window : result vec :=
  let x := map (fun f => IZR f * 1 / IZR total_freq) gibbs_fsel in
  w <- window_generalised x "nuttall" ;;
  Ok (repeat2 w).

(** The design matrix, windowed when asked.  [np.zeros] refuses a
    negative [N]. *)
Definition gibbs_F : result matrix :=
  if (N <? 0)%Z
  then Raise (ValueError "negative dimensions are not allowed")
  else
    let F := fourier_matrix_r2c N (Some gibbs_fsel) in
    if window then w <- gibbs_window ;; Ok (scale_rows w F) else Ok F.

(** The data as rows of real and imaginary parts, windowed when asked:
    [data *= w[:, np.newaxis]] needs one channel of data per selected
    channel.  Data without a time sample or without a channel are arrays
    a list of rows cannot carry. *)
Definition gibbs_data : result matrix :=
  if (length data =? 0)%nat || (ncols data =? 0)%nat
  then Raise (Unrepresented "data without time samples or channels")
  else
    let d := transpose (2 * ncols data) (view_float64 data) in
    if window
    then
      w <- gibbs_window ;;
      if (length w =? length d)%nat
      then Ok (scale_rows w d)
      else Raise (ValueError "operands could not be broadcast together")
    else Ok d.

Definition is_real_freq (f : Z) : bool := (f =? 0)%Z || (f =? N / 2)%Z.

Definition Ni_r : vec :=
  let z := repeat 0 (2 * length Ni) in
  let z :=
    set_step2 0
      (zipWith (fun f ni => if is_real_freq f then ni else ni / sqrt 2)
         gibbs_fsel Ni) z in
  set_step2 1
    (zipWith (fun f ni => if is_real_freq f then 0 else ni / sqrt 2)
       gibbs_fsel Ni) z.

(** [Ni_r[0::2] = np.where(is_real_freq, ...)] and
    [F.T * Ni_r[np.newaxis, :]], the statements before the loop that
    combine the noise with the selection, need one inverse variance per
    selected channel. *)
Definition gibbs_noise : result vec :=
  if (length Ni =? length gibbs_fsel)%nat
  then Ok Ni_r
  else Raise (ValueError "operands could not be broadcast together").

Definition FTNi (F : matrix) : matrix :=
  scale_cols Ni_r (transpose (Z.to_nat N) F).

Definition FTNiF (F : matrix) : matrix :=
  mat_mul_to (Z.to_nat N) (FTNi F) F.

(** The system of the perturbed Wiener filter: the matrix [Ci] and the
    right-hand side [y] handed to the solver.  The formula is followed on
    a spectrum of [N] positive entries only: [_draw_signal_sample] below
    does not reach the solver otherwise. *)
Definition wiener_system (F dat : matrix) (S : vec) (rnd : rng_draw)
  : matrix * matrix :=
  let Si := map (fun s => 1 / s) S in
  let Ci := mat_add (diag Si) (FTNiF F) in
  let nt := ncols dat in
  let y :=
    mat_add
      (mat_add (mat_mul_to nt (FTNi F) dat)
               (zipWith (fun si row => map (fun a => sqrt si * a) row)
                  Si (w1 rnd)))
      (mat_mul_to nt (transpose (Z.to_nat N) F)
         (zipWith (fun ni row => map (fun a => sqrt ni * a) row)
            Ni_r (w2 rnd))) in
  (Ci, y).

(** What [la.solve] checks before it solves ([check_finite]): [Ci] has
    an infinite entry when an entry of [S] is zero, and [y] has [nan]s,
    from the square roots, when an entry of [S] is negative or, with at
    least one delay, when an entry of [Ni_r] is. *)
Definition finite_system (S : vec) : bool :=
  forallb (fun s => if Rlt_dec 0 s then true else false) S
  && ((Z.to_nat N =? 0)%nat
      || forallb (fun ni => if Rle_dec 0 ni then true else false) Ni_r).

(** [_draw_signal_sample(S)] on the data of the loop, which have a time
    sample.  [np.diag(Si) + FTNiF] needs [N] entries in [S]; a spectrum of
    one entry, or a matrix of one entry, is broadcast instead, which the
    embedding does not follow.  [np.dot(FTNi, data)] needs as many rows of
    data as of [F]. *)
Definition _draw_signal_sample (F dat : matrix) (S : vec) (rnd : rng_draw)
  : result matrix :=
  let n := Z.to_nat N in
  if negb (length S =? n)%nat
  then
    if (length S =? 1)%nat || (n =? 1)%nat
    then Raise (Unrepresented "a spectrum broadcast against the matrix")
    else Raise (ValueError "operands could not be broadcast together")
  else if negb (length F =? length dat)%nat
  then Raise (ValueError "shapes not aligned")
  else if finite_system S
  then let '(Ci, y) := wiener_system F dat S rnd in solve Ci y
  else Raise (ValueError "array must not contain infs or NaNs").

Definition _draw_ps_sample (d : matrix) (chi2_draw : vec) : vec :=
  let S_hat := map var d in
  let df := INR (ncols d) in
  zipWith (fun sh c => sh * df / c) S_hat chi2_draw.

(** [n] iterations of the loop, the first of them numbered [ii]. *)
Fixpoint gibbs_loop (F dat : matrix) (rng : nat -> rng_draw) (ii n : nat)
  (S_samp : vec) : result (list vec) :=
  match n with
  | O => Ok []
  | S n' =>
      d_samp <- _draw_signal_sample F dat S_samp (rng ii) ;;
      let S_samp := _draw_ps_sample d_samp (chi2 (rng ii)) in
      rest <- gibbs_loop F dat rng (S ii) n' S_samp ;;
      Ok (S_samp :: rest)
  end.

Definition delay_spectrum_gibbs (rng : nat -> rng_draw) (initial_S : vec)
  (niter : Z) : result (list vec) :=
  F <- gibbs_F ;;
  dat <- gibbs_data ;;
  _ <- gibbs_noise ;;
  gibbs_loop F dat rng 0 (Z.to_nat niter) initial_S.
End GibbsSampler.

(** ** Medians, slices and shifts *)

Fixpoint insert_sorted (x : R) (l : vec) : vec :=
  match l with
  | [] => [x]
  | y :: l' => if Rle_dec x y then x :: l else y :: insert_sorted x l'
  end.

Definition sort (l : vec) : vec := fold_right insert_sorted [] l.

(** [np.median] of a vector: the middle of the sorted values, or the mean
    of the two middle ones.  NumPy gives [nan] on an empty vector; the
    embedding has no [nan] and no statement depends on the value there. *)
Definition median (l : vec) : R :=
  let s := sort l in
  let n := length s in
  if Nat.even n
  then (nth (n / 2 - 1) s 0 + nth (n / 2) s 0) / 2
  else nth (n / 2) s 0.

(** [np.median(M, axis=1)]: one median per row. *)
Definition median_axis1 (M : matrix) : vec := map median M.

(** [np.median(rows, axis=0)]: one median per column.  Of no row at
    all NumPy gives [nan]; the loop of the estimator stops with
    [Unrepresented] before it takes such a median, and the empty vector
    stands for it here. *)
Definition median_axis0 (rows : list vec) : vec :=
  map (fun j => median (col j rows)) (seq 0 (ncols rows)).

(** The Python slice [l[start:]]. *)
Definition py_slice_from {T : Type} (start : Z) (l : list T) : list T :=
  let len := Z.of_nat (length l) in
  let first := if (start <? 0)%Z then Z.max (len + start) 0
               else Z.min start len in
  skipn (Z.to_nat first) l.

(** [np.fft.fftshift]: the second half moves to the front. *)
Definition fftshift {T : Type} (l : list T) : list T :=
  let n := length l in
  skipn (n - n / 2) l ++ firstn (n - n / 2) l.

(** [np.fft.fftfreq(n, d)].  It divides by [n * d] and allocates [n]
    entries: on Python numbers a vanishing [n * d] raises
    [ZeroDivisionError] (on NumPy scalars it yields infinities instead),
    a negative [n] raises [ValueError]; no statement below depends on
    either branch. *)
Definition fftfreq (n : Z) (d : R) : result vec :=
  if Req_dec_T (IZR n * d) 0
  then Raise (ZeroDivisionError "float division by zero")
  else if (n <? 0)%Z
  then Raise (ValueError "negative dimensions are not allowed")
  else
    let val := 1 / (IZR n * d) in
    Ok (map (fun i => IZR (if (i <? (n - 1) / 2 + 1)%Z then i else i - n)
                      * val)
            (arange n)).

(** [l[i] = v]. *)
Definition set_nth {T : Type} (i : nat) (v : T) (l : list T) : list T :=
  imap (fun k x => if (k =? i)%nat then v else x) l.

(** [(data == 0.0).all()]. *)
Definition all_zero (data : cmatrix) : bool :=
  forallb (forallb (fun z : complex =>
                      if Req_dec_T (fst z) 0
                      then if Req_dec_T (snd z) 0 then true else false
                      else false)) data.

(** [M.T] of a complex matrix with [m] columns. *)
Definition ctranspose (m : nat) (M : cmatrix) : cmatrix :=
  map (fun j => ccol j M) (seq 0 m).

(** ** Calling and raising *)

(** The two builtins a [raise] statement of the module can name. *)
Inductive builtin : Type :=
| NotImplemented_
| NotImplementedError_.

(** [f(msg)]: the exception class builds an instance, the constant
    [NotImplemented] is not callable. *)
Definition py_call (f : builtin) (msg : string) : result exn :=
  match f with
  | NotImplemented_ =>
      Raise (TypeError "'NotImplementedType' object is not callable")
  | NotImplementedError_ => Ok (NotImplementedError msg)
  end.

(** [raise f(msg)]. *)
Definition py_raise {A : Type} (f : builtin) (msg : string) : result A :=
  e <- py_call f msg ;; Raise e.

(** ** The container of a sidereal or time stream *)

Inductive axis : Type := AxisFreq | AxisProd | AxisTime.

(** [vis] and [weight] hold, per correlation product [bi], the channel by
    time slice [vis[:, bi]] and [weight[:, bi]]. *)
Record SiderealStream : Type := {
  freq_centre : vec;
  index_prod : list (nat * nat);
  index_time : vec;
  vis : list cmatrix;
  weight : list matrix;
  distributed_axis : axis
}.

Definition with_vis (v : list cmatrix) (c : SiderealStream)
  : SiderealStream :=
  {| freq_centre := freq_centre c;
     index_prod := index_prod c;
     index_time := index_time c;
     vis := v;
     weight := weight c;
     distributed_axis := distributed_axis c |}.

Definition with_axis (a : axis) (c : SiderealStream) : SiderealStream :=
  {| freq_centre := freq_centre c;
     index_prod := index_prod c;
     index_time := index_time c;
     vis := vis c;
     weight := weight c;
     distributed_axis := a |}.

(** Containers are objects: a task receives a reference and the store
    holds what it refers to. *)
Definition ref := nat.
Definition store := ref -> SiderealStream.

Definition store_set (h : store) (r : ref) (c : SiderealStream) : store :=
  fun r' => if (r' =? r)%nat then c else h r'.

(** [ss.redistribute(a)]. *)
Definition redistribute (a : axis) (ss : ref) (h : store) : store :=
  store_set h ss (with_axis a (h ss)).

(** ** DelayFilter *)

Record DelayFilter : Type := {
  delay_cut : R;
  update_weight : bool
}.

Section DelayFilterTask.
(** [scipy.linalg.svd]. *)
Variable svd : cmatrix -> svd_result.
Variable self : DelayFilter.

(** The body of the loop over the products, from product [bi] on. *)
Fixpoint filter_products (freq : vec) (ss : ref) (bis : list nat)
  (h : store) : result unit * store :=
  match bis with
  | [] => (Ok tt, h)
  | bi :: rest =>
      let c := h ss in
      let freq_weight := median_axis1 (nth bi (weight c) []) in
      match null_delay_filter svd freq (delay_cut self) freq_weight
              default_num_delay default_tol true with
      | Raise e => (Raise e, h)
      | Ok NF =>
          let v := nth bi (vis c) [] in
          let h' :=
            store_set h ss
              (with_vis (set_nth bi (cmat_mul (ncols v) NF v) (vis c)) c) in
          filter_products freq ss rest h'
      end
  end.

(** [DelayFilter.process(ss)]: what the call returns or raises, and the
    store it leaves. *)
Definition DelayFilter_process (ss : ref) (h : store)
  : result ref * store :=
  if update_weight self
  then (py_raise NotImplemented_ "Weight updating is not implemented.", h)
  else
    let h := redistribute AxisProd ss h in
    let freq := freq_centre (h ss) in
    match filter_products freq ss (seq 0 (length (vis (h ss)))) h with
    | (Raise e, h') => (Raise e, h')
    | (Ok _, h') => (Ok ss, h')
    end.
End DelayFilterTask.

(** ** DelaySpectrumEstimator *)

Record DelaySpectrumEstimator : Type := {
  nsamp : Z;
  freq_zero : option R;
  freq_spacing : option R;
  nfreq : option Z;
  skip_nyquist : bool
}.

Record DelaySpectrum : Type := {
  baseline : list (R * R);
  delay : vec;
  spectrum : matrix
}.

(** [np.diff(a)]. *)
Fixpoint diff (a : vec) : vec :=
  match a with
  | x :: ((y :: _) as a') => (y - x) :: diff a'
  | _ => []
  end.

(** [x.astype(np.int)]: rounding towards zero.  By the convention on
    [float64] the quotient it is applied to is the exact one and the
    integer is not bounded: how the division rounds, and what the cast
    does beyond 64 bits, are not followed, so what is proved of a channel
    index is proved of real arithmetic. *)
Definition trunc (x : R) : Z :=
  if Rle_dec 0 x then Int_part x else (- Int_part (- x))%Z.

(** [a[0]] and [a[-1]]. *)
Definition first_item {T : Type} (a : list T) : result T :=
  match a with
  | [] => Raise (IndexError "index 0 is out of bounds")
  | x :: _ => Ok x
  end.

Definition last_item {T : Type} (a : list T) : result T :=
  first_item (rev a).

(** What [stokes_I] hands to the task: per unique baseline the channel by
    time Stokes I visibilities and weights, and the baseline vectors. *)
Record stokes : Type := {
  vis_I : list cmatrix;
  vis_weight : list matrix;
  baselines : list (R * R)
}.

Section DelaySpectrumEstimatorTask.
(** [scipy.linalg.solve] and the random numbers of the sampler run on
    baseline [bi], iteration [ii]. *)
Variable solve : matrix -> matrix -> result matrix.
Variable rng : nat -> nat -> rng_draw.
Variable self : DelaySpectrumEstimator.

(** The frequency structure: the channel index of every frequency, the
    spacing and the number of delay samples. *)
Definition frequency_structure (freq : vec) : result (list Z * R * Z) :=
  fz <- match freq_zero self with
        | None => first_item freq
        | Some z => Ok z
        end ;;
  fs <- match freq_spacing self with
        | None => vmin (map Rabs (diff freq))
        | Some s => Ok s
        end ;;
  let channel_ind := map (fun f => trunc (Rabs (f - fz) / fs)) freq in
  nf <- match nfreq self with
        | None =>
            last <- last_item channel_ind ;;
            Ok (if skip_nyquist self then last + 1 + 1 else last + 1)%Z
        | Some n => Ok n
        end ;;
  Ok (channel_ind, fs, (2 * (nf - 1))%Z).

(** One pass of the loop over the baselines: the spectrum rows so far
    and the baselines the sampler has been run on.  With no sample to
    draw, [nsamp <= 0], the slice of the draws is empty and its median is
    [nan]. *)
Fixpoint estimate_baselines (sk : stokes) (channel_ind : list Z)
  (ndelay : Z) (initial_S : vec) (bis : list nat)
  (rows : matrix) (calls : list nat) : result matrix * list nat :=
  match bis with
  | [] => (Ok rows, calls)
  | bi :: rest =>
      let v := nth bi (vis_I sk) [] in
      let data := ctranspose (ncols v) v in
      let weight := median_axis1 (nth bi (vis_weight sk) []) in
      if all_zero data
      then estimate_baselines sk channel_ind ndelay initial_S rest
             rows calls
      else
        let calls := calls ++ [bi] in
        match delay_spectrum_gibbs solve data ndelay weight true
                (Some channel_ind) (rng bi) initial_S (nsamp self) with
        | Raise e => (Raise e, calls)
        | Ok spec =>
            match py_slice_from (- (nsamp self / 2)) spec with
            | [] =>
                (Raise (Unrepresented "the median of no draw is nan"), calls)
            | draw :: draws =>
                let spec_av := median_axis0 (draw :: draws) in
                estimate_baselines sk channel_ind ndelay initial_S rest
                  (set_nth bi (fftshift spec_av) rows) calls
            end
        end
  end.

(** [DelaySpectrumEstimator.process(ss)], from the frequency axis of
    [ss] and the result of [stokes_I(ss, tel)]: what the call returns or
    raises, and the baselines it ran the sampler on.  The
    redistribution of [ss] and the defaults the task stores on itself
    are left out. *)
Definition DelaySpectrumEstimator_process (freq : vec) (sk : stokes)
  : result DelaySpectrum * list nat :=
  match frequency_structure freq with
  | Raise e => (Raise e, [])
  | Ok (channel_ind, fs, ndelay) =>
      match fftfreq ndelay fs with
      | Raise e => (Raise e, [])
      | Ok fr =>
          let delays := fftshift fr in
          let nbase := length (baselines sk) in
          let rows := zeros nbase (length delays) in
          let initial_S := map (fun _ => 1 * 10) delays in
          match estimate_baselines sk channel_ind ndelay initial_S
                  (seq 0 nbase) rows [] with
          | (Raise e, calls) => (Raise e, calls)
          | (Ok rows, calls) =>
              (Ok {| baseline := baselines sk;
                     delay := delays;
                     spectrum := rows |}, calls)
          end
      end
  end.
End DelaySpectrumEstimatorTask.

(** The filter the loop of [DelayFilter.process] builds for product [bi]
    of the container [c]. *)
Definition product_filter (svd : cmatrix -> svd_result) (self : DelayFilter)
  (freq : vec) (c : SiderealStream) (bi : nat) : result cmatrix :=
  null_delay_filter svd freq (delay_cut self)
    (median_axis1 (nth bi (weight c) [])) default_num_delay default_tol true.

(** The slice [vis[:, bi]] of the container [c] once filtered by [NF]. *)
Definition filtered (NF : cmatrix) (c : SiderealStream) (bi : nat)
  : cmatrix :=
  cmat_mul (ncols (nth bi (vis c) [])) NF (nth bi (vis c) []).

(** ** Concrete inputs *)

(** A stream of two channels, one product and one time sample, distributed
    over frequency. *)
Definition example_stream : SiderealStream :=
  {| freq_centre := [0; 1];
     index_prod := [(0, 0)%nat];
     index_time := [0];
     vis := [ [ [(1, 0)]; [(2, 0)] ] ];
     weight := [ [ [1]; [1] ] ];
     distributed_axis := AxisFreq |}.

Definition example_store : store := fun _ => example_stream.

(** A decomposition with two vanishing singular values. *)
Definition example_svd : cmatrix -> svd_result :=
  fun _ => {| svd_u := cidentity 2;
              svd_sig := [0; 0];
              svd_vh := cidentity default_num_delay |}.

Definition example_filter : DelayFilter :=
  {| delay_cut := 1 / 10; update_weight := false |}.

(** One time sample of two channels, the random numbers of a run of the
    sampler on it, and the solution of its Wiener system. *)
Definition example_data : cmatrix := [ [(0, 0); (21, 0)] ].

Definition example_rng : nat -> rng_draw :=
  fun _ => {| w1 := [ [0]; [0] ];
              w2 := [ [0]; [0]; [0]; [0] ];
              chi2 := [1; 1] |}.

Definition example_signal : matrix := [ [10]; [-10] ].

Definition example_solve : matrix -> matrix -> result matrix :=
  fun _ _ => Ok example_signal.

(** ** Per-baseline quantities of the estimator *)

(** The data the loop of [DelaySpectrumEstimator.process] hands to the
    sampler for baseline [bi], one row per time sample. *)
Definition baseline_data (sk : stokes) (bi : nat) : cmatrix :=
  ctranspose (ncols (nth bi (vis_I sk) [])) (nth bi (vis_I sk) []).

(** The run of the sampler on baseline [bi]. *)
Definition baseline_gibbs (solve : matrix -> matrix -> result matrix)
  (rng : nat -> nat -> rng_draw) (self : DelaySpectrumEstimator)
  (sk : stokes) (channel_ind : list Z) (ndelay : Z) (initial_S : vec)
  (bi : nat) : result (list vec) :=
  delay_spectrum_gibbs solve (baseline_data sk bi) ndelay
    (median_axis1 (nth bi (vis_weight sk) [])) true (Some channel_ind)
    (rng bi) initial_S (nsamp self).

(** The last [floor (nsamp / 2)] of the draws. *)
Definition later_half {T : Type} (nsamp : Z) (spec : list T) : list T :=
  skipn (length spec - Z.to_nat (nsamp / 2)) spec.

(** An estimator that draws [n] samples on two channels, and the Stokes I
    data of two baselines, the second of them all zero. *)
Definition example_estimator (n : Z) : DelaySpectrumEstimator :=
  {| nsamp := n;
     freq_zero := Some 0;
     freq_spacing := Some 1;
     nfreq := Some 2%Z;
     skip_nyquist := true |}.

Definition example_stokes : stokes :=
  {| vis_I := [ [ [(0, 0)]; [(21, 0)] ]; [ [(0, 0)]; [(0, 0)] ] ];
     vis_weight := [ [ [1]; [1] ]; [ [1]; [1] ] ];
     baselines := [ (0, 0); (1, 0) ] |}.

(** A uniform grid of four channels, none of them masked, with the
    decomposition of its design matrix at zero delay: the matrix has rank
    one, [vh] is the Householder reflection that sends the first basis
    vector to the constant unit vector. *)
Definition grid_freq : vec := [0; 1; 2; 3].
Definition grid_mask : vec := [1; 1; 1; 1].

Definition rank_one_u : cmatrix :=
  map (map RtoC)
    [ [0; 0; 1; 0];
      [/ sqrt 2; / sqrt 2; 0; 0];
      [/ sqrt 2; - / sqrt 2; 0; 0];
      [0; 0; 0; 1] ].

Definition householder_entry (m i j : nat) : R :=
  let s := / sqrt (INR m) in
  let w := fun k : nat => (if (k =? 0)%nat then 1 else 0) - s in
  (if (i =? j)%nat then 1 else 0) - w i * w j / (1 - s).

Definition householder (m : nat) : cmatrix :=
  mk_matrix m m (fun i j => RtoC (householder_entry m i j)).

Definition rank_one_svd : svd_result :=
  {| svd_u := rank_one_u;
     svd_sig := [0.514746 * sqrt 2 * sqrt (INR default_num_delay); 0; 0; 0];
     svd_vh := householder default_num_delay |}.

(** Entry [(i, j)] of mode [l] of a decomposition,
    [u[:, l] * sig[l] * vh[l, :]]. *)
Definition svd_mode (r : svd_result) (l i j : nat) : complex :=
  cmul (cmul (cget (svd_u r) i l) (RtoC (nth l (svd_sig r) 0)))
       (cget (svd_vh r) l j).

(** A stream of three channels, one product and one time sample whose
    middle channel has weight zero. *)
Definition masked_stream : SiderealStream :=
  {| freq_centre := [0; 1; 2];
     index_prod := [(0, 0)%nat];
     index_time := [0];
     vis := [ [ [(1, 0)]; [(2, 0)]; [(3, 0)] ] ];
     weight := [ [ [1]; [0]; [1] ] ];
     distributed_axis := AxisFreq |}.

Definition masked_store : store := fun _ => masked_stream.

(** ** The task between calls *)

(** The attributes of a task as configured by default. *)
Definition default_estimator : DelaySpectrumEstimator :=
  {| nsamp := 20;
     freq_zero := None;
     freq_spacing := None;
     nfreq := None;
     skip_nyquist := true |}.

(** The task after the frequency structure has been worked out:
    [process] assigns the zero frequency, the spacing and the number of
    channels to the attributes of the task, where the next call finds
    them. *)
Definition frequency_structure_kept (self : DelaySpectrumEstimator)
  (freq : vec) : result DelaySpectrumEstimator :=
  fz <- match freq_zero self with
        | None => first_item freq
        | Some z => Ok z
        end ;;
  fs <- match freq_spacing self with
        | None => vmin (map Rabs (diff freq))
        | Some s => Ok s
        end ;;
  let channel_ind := map (fun f => trunc (Rabs (f - fz) / fs)) freq in
  nf <- match nfreq self with
        | None =>
            last <- last_item channel_ind ;;
            Ok (if skip_nyquist self then last + 1 + 1 else last + 1)%Z
        | Some n => Ok n
        end ;;
  Ok {| nsamp := nsamp self;
        freq_zero := Some fz;
        freq_spacing := Some fs;
        nfreq := Some nf;
        skip_nyquist := skip_nyquist self |}.

(** A solver that finds every matrix singular. *)
Definition singular_solve : matrix -> matrix -> result matrix :=
  fun _ _ => Raise (LinAlgError "singular matrix").

(** ** Stokes I *)

(** What [stokes_I] reads of the telescope: the baseline vector of every
    unique pair of feeds, the two feeds of every unique pair, the beam
    class of every feed, and the map from two feeds to their unique pair,
    [-1] where there is none. *)
Module tel.
Record telescope : Type := {
  baselines : list (R * R);
  uniquepairs : list (nat * nat);
  beamclass : list Z;
  feedmap : list (list Z)
}.
End tel.

(** NumPy's order on complex numbers: by real part, then by imaginary
    part. *)
Definition complex_ltb (a b : complex) : bool :=
  if Rlt_dec (fst a) (fst b) then true
  else if Req_dec_T (fst a) (fst b)
       then if Rlt_dec (snd a) (snd b) then true else false
       else false.

Definition complex_eqb (a b : complex) : bool :=
  if Req_dec_T (fst a) (fst b)
  then if Req_dec_T (snd a) (snd b) then true else false
  else false.

Fixpoint insert_unique (x : complex) (l : list complex) : list complex :=
  match l with
  | [] => [x]
  | y :: l' =>
      if complex_eqb x y then l
      else if complex_ltb x y then x :: l
      else y :: insert_unique x l'
  end.

(** The position of the first entry of [u] equal to [x]. *)
Fixpoint index_of (x : complex) (u : list complex) : nat :=
  match u with
  | [] => 0
  | y :: u' => if complex_eqb x y then 0 else S (index_of x u')
  end.

(** [np.unique(a, return_inverse=True, return_counts=True)]: the distinct
    values in ascending order, for every entry of [a] the position of its
    value among them, and for every distinct value the number of entries
    of [a] that have it. *)
Definition np_unique (a : list complex)
  : list complex * list nat * list nat :=
  let u := fold_right insert_unique [] a in
  (u,
   map (fun x => index_of x u) a,
   map (fun x => length (filter (complex_eqb x) a)) u).

(** [a[i]] along the first axis. *)
Definition getitem {T : Type} (a : list T) (i : nat) : result T :=
  match nth_error a i with
  | Some x => Ok x
  | None => Raise (IndexError "index is out of bounds")
  end.

Definition czeros (n m : nat) : cmatrix := mk_matrix n m (fun _ _ => c0).

Definition cmat_add (A B : cmatrix) : cmatrix := zipWith (zipWith cadd) A B.

(** [a[i] += b]. *)
Definition add_at {T : Type} (add : T -> T -> T) (i : nat) (b : T)
  (a : list T) : list T :=
  imap (fun k x => if (k =? i)%nat then add x b else x) a.

Section StokesI.
Variable sstream : SiderealStream.
Variable t : tel.telescope.

(** The loop over the products [enumerate(uinv)], on the arrays [vis_I]
    and [vis_weight] so far. *)
Fixpoint stokes_products (ucount : list nat) (prods : list (nat * nat))
  (acc : list cmatrix * list matrix)
  : result (list cmatrix * list matrix) :=
  match prods with
  | [] => Ok acc
  | (ii, ui) :: rest =>
      n <- getitem ucount ui ;;
      if (n <? 4)%nat then stokes_products ucount rest acc
      else
        p <- getitem (tel.uniquepairs t) ii ;;
        bi <- getitem (tel.beamclass t) (fst p) ;;
        bj <- getitem (tel.beamclass t) (snd p) ;;
        row <- getitem (tel.feedmap t) (fst p) ;;
        upi <- getitem row (snd p) ;;
        if (upi =? -1)%Z then stokes_products ucount rest acc
        else if (bi =? bj)%Z
        then
          v <- getitem (vis sstream) ii ;;
          w <- getitem (weight sstream) ii ;;
          stokes_products ucount rest
            (add_at cmat_add ui v (fst acc), add_at mat_add ui w (snd acc))
        else stokes_products ucount rest acc
  end.

(** [stokes_I(sstream, tel)].  The arrays start as zeros of the shape of
    one product of the stream, channels by time samples, per unique
    baseline; wrapping and redistributing them leaves their entries as
    they are. *)
Definition stokes_I : result stokes :=
  let '(ubase, uinv, ucount) := np_unique (tel.baselines t) in
  let nbase := length ubase in
  let nf := length (freq_centre sstream) in
  let nt := length (index_time sstream) in
  acc <- stokes_products ucount (combine (seq 0 (length uinv)) uinv)
           (repeat (czeros nf nt) nbase, repeat (zeros nf nt) nbase) ;;
  Ok {| vis_I := fst acc; vis_weight := snd acc; baselines := ubase |}.
End StokesI.

(** Whether the loop of [stokes_I] adds product [ii] to its baseline: the
    two feeds are mapped to a unique pair and have the same beam class. *)
Definition copolar (t : tel.telescope) (ii : nat) : bool :=
  let p := nth ii (tel.uniquepairs t) (0%nat, 0%nat) in
  negb (nth (snd p) (nth (fst p) (tel.feedmap t) []) 0 =? -1)%Z
  && (nth (fst p) (tel.beamclass t) 0 =? nth (snd p) (tel.beamclass t) 0)%Z.

(** [DelaySpectrumEstimator.process(ss)] on the stream in the store: the
    redistribution over frequency, the Stokes I visibilities of the
    telescope the task was set up with, then the estimate. *)
Definition DelaySpectrumEstimator_process_stream
  (solve : matrix -> matrix -> result matrix)
  (rng : nat -> nat -> rng_draw) (self : DelaySpectrumEstimator)
  (t : tel.telescope) (ss : ref) (h : store)
  : (result DelaySpectrum * list nat) * store :=
  let h := redistribute AxisFreq ss h in
  match stokes_I (h ss) t with
  | Raise e => ((Raise e, []), h)
  | Ok sk =>
      (DelaySpectrumEstimator_process solve rng self (freq_centre (h ss)) sk,
       h)
  end.

(** Ascending in NumPy's order on complex numbers, without repeats. *)
Definition ascending (l : list complex) : Prop :=
  StronglySorted (fun a b => complex_ltb a b = true) l.

(** Two feeds of different polarisation at one place and a third feed of
    the first polarisation one unit away: four unique pairs on the zero
    baseline, one on the other; and a stream of two channels and one time
    sample with a product for each of the pairs. *)
Definition pol_telescope : tel.telescope :=
  {| tel.baselines := [(0, 0); (0, 0); (0, 0); (0, 0); (1, 0)];
     tel.uniquepairs := [(0, 0); (0, 1); (1, 0); (1, 1); (0, 2)]%nat;
     tel.beamclass := [0; 1; 0]%Z;
     tel.feedmap := [ [0; 1; 4]; [2; 3; -1]; [4; -1; 0] ]%Z |}.

Definition pol_stream : SiderealStream :=
  {| freq_centre := [0; 1];
     index_prod := [(0, 0); (0, 1); (1, 0); (1, 1); (0, 2)]%nat;
     index_time := [0];
     vis := [ [ [(1, 0)]; [(2, 0)] ];
              [ [(5, 0)]; [(5, 0)] ];
              [ [(7, 0)]; [(7, 0)] ];
              [ [(3, 0)]; [(4, 0)] ];
              [ [(9, 0)]; [(9, 0)] ] ];
     weight := [ [ [1]; [1] ]; [ [1]; [1] ]; [ [1]; [1] ]; [ [1]; [1] ];
                 [ [1]; [1] ] ];
     distributed_axis := AxisFreq |}.

(** The same products on two time samples. *)
Definition pol_pair_stream : SiderealStream :=
  {| freq_centre := [0; 1];
     index_prod := [(0, 0); (0, 1); (1, 0); (1, 1); (0, 2)]%nat;
     index_time := [0; 1];
     vis := [ [ [(0, 0); (0, 0)]; [(10, 0); (-10, 0)] ];
              [ [(5, 0); (5, 0)]; [(5, 0); (5, 0)] ];
              [ [(7, 0); (7, 0)]; [(7, 0); (7, 0)] ];
              [ [(0, 0); (0, 0)]; [(11, 0); (-11, 0)] ];
              [ [(9, 0); (9, 0)]; [(9, 0); (9, 0)] ] ];
     weight := [ [ [1 / 2; 1 / 2]; [1 / 2; 1 / 2] ];
                 [ [1 / 2; 1 / 2]; [1 / 2; 1 / 2] ];
                 [ [1 / 2; 1 / 2]; [1 / 2; 1 / 2] ];
                 [ [1 / 2; 1 / 2]; [1 / 2; 1 / 2] ];
                 [ [1 / 2; 1 / 2]; [1 / 2; 1 / 2] ] ];
     distributed_axis := AxisFreq |}.

Definition pol_pair_store : store := fun _ => pol_pair_stream.

(** The masked stream with other visibilities in its masked channel, and
    a stream with a product but no frequency channel. *)
Definition masked_store_altered : store :=
  store_set masked_store 0%nat
    (with_vis (set_nth 0 (set_nth 1 [(7, 5)]
                            (nth 0 (vis (masked_store 0%nat)) []))
                 (vis (masked_store 0%nat))) (masked_store 0%nat)).

Definition empty_axis_store : store :=
  fun _ => {| freq_centre := [];
              index_prod := [(0, 0)%nat];
              index_time := [0];
              vis := [ [] ];
              weight := [ [] ];
              distributed_axis := AxisFreq |}.

(** ** A run on two time samples *)

(** [scipy.linalg.solve(Ci, y, sym_pos=True)] on a system of two
    unknowns.  The routine reads the upper triangle of [Ci] and takes the
    matrix to be symmetric: Cramer's rule when that matrix is positive
    definite, [LinAlgError] when it is not. *)
Definition solve_2x2 (Ci y : matrix) : result matrix :=
  match Ci, y with
  | [ [a; b]; [_; d] ], [y0; y1] =>
      let det := a * d - b * b in
      if Rlt_dec 0 a
      then
        if Rlt_dec 0 det
        then Ok [ zipWith (fun u v => (d * u - b * v) / det) y0 y1;
                  zipWith (fun u v => (a * v - b * u) / det) y0 y1 ]
        else Raise (LinAlgError "matrix is not positive definite")
      else Raise (LinAlgError "matrix is not positive definite")
  | _, _ => Raise (ValueError "expected a system of two unknowns")
  end.

(** Two time samples of two channels, and random numbers of a run of the
    sampler on them: normal draws that are zero and chi-squared draws
    equal to the number of time samples. *)
Definition pair_data : cmatrix :=
  [ [(0, 0); (21, 0)]; [(0, 0); (-21, 0)] ].

Definition pair_rng : nat -> rng_draw :=
  fun _ => {| w1 := [ [0; 0]; [0; 0] ];
              w2 := [ [0; 0]; [0; 0]; [0; 0]; [0; 0] ];
              chi2 := [2; 2] |}.

(** The Stokes I data of two baselines on two channels and two time
    samples, the second baseline all zero. *)
Definition pair_stokes : stokes :=
  {| vis_I := [ [ [(0, 0); (0, 0)]; [(21, 0); (-21, 0)] ];
                [ [(0, 0); (0, 0)]; [(0, 0); (0, 0)] ] ];
     vis_weight := [ [ [1; 1]; [1; 1] ]; [ [0; 0]; [0; 0] ] ];
     baselines := [ (0, 0); (1, 0) ] |}.

(* ================================================================== *)
(** * Properties *)

(** ** Lists and tables *)

Lemma imap_from_length {A B : Type} (f : nat -> A -> B) (l : list A) :
  forall k, length (imap_from f k l) = length l.
Proof. induction l as [|a l IH]; intros k; simpl; [reflexivity|]. now rewrite IH. Qed.

Lemma imap_length {A B : Type} (f : nat -> A -> B) (l : list A) :
  length (imap f l) = length l.
Proof. apply imap_from_length. Qed.

Lemma nth_imap_from {A B : Type} (f : nat -> A -> B) (l : list A) (da : A)
  (db : B) :
  forall k i, (i < length l)%nat ->
    nth i (imap_from f k l) db = f (k + i)%nat (nth i l da).
Proof.
  induction l as [|a l IH]; intros k i Hi; simpl in *; [lia|].
  destruct i as [|i].
  - now rewrite Nat.add_0_r.
  - rewrite (IH (S k) i) by lia. f_equal. lia.
Qed.

Lemma nth_imap {A B : Type} (f : nat -> A -> B) (l : list A) (da : A) (db : B)
  (i : nat) :
  (i < length l)%nat -> nth i (imap f l) db = f i (nth i l da).
Proof. intros Hi. unfold imap. now rewrite (nth_imap_from f l da db 0 i Hi). Qed.

Lemma mk_matrix_length {T : Type} (n m : nat) (f : nat -> nat -> T) :
  length (mk_matrix n m f) = n.
Proof. unfold mk_matrix. now rewrite length_map, length_seq. Qed.

Lemma nth_mk_matrix {T : Type} (n m : nat) (f : nat -> nat -> T) (i : nat)
  (d : list T) :
  (i < n)%nat -> nth i (mk_matrix n m f) d = map (f i) (seq 0 m).
Proof.
  intros Hi. unfold mk_matrix.
  rewrite (nth_indep _ d (map (f 0%nat) (seq 0 m)))
    by now rewrite length_map, length_seq.
  rewrite (map_nth (fun i => map (f i) (seq 0 m)) (seq 0 n) 0%nat i).
  now rewrite seq_nth.
Qed.

Lemma get_mk_matrix (n m : nat) (f : nat -> nat -> R) (i j : nat) :
  (i < n)%nat -> (j < m)%nat -> get (mk_matrix n m f) i j = f i j.
Proof.
  intros Hi Hj. unfold get. rewrite nth_mk_matrix by assumption.
  rewrite (nth_indep _ 0 (f i 0%nat)) by now rewrite length_map, length_seq.
  rewrite (map_nth (f i) (seq 0 m) 0%nat j). now rewrite seq_nth.
Qed.

Lemma zipWith_length {A B C : Type} (f : A -> B -> C) (u : list A) :
  forall v, length (zipWith f u v) = Nat.min (length u) (length v).
Proof.
  induction u as [|a u IH]; intros [|b v]; simpl; try reflexivity.
  now rewrite IH.
Qed.

Lemma nth_zipWith {A B C : Type} (f : A -> B -> C) (da : A) (db : B) (dc : C)
  (u : list A) :
  forall v i, (i < length u)%nat -> (i < length v)%nat ->
    nth i (zipWith f u v) dc = f (nth i u da) (nth i v db).
Proof.
  induction u as [|a u IH]; intros [|b v] i Hu Hv; simpl in *; try lia.
  destruct i as [|i]; [reflexivity|]. apply IH; lia.
Qed.

Lemma arange_length (n : Z) : length (arange n) = Z.to_nat n.
Proof. unfold arange. now rewrite length_map, length_seq. Qed.

Lemma nth_arange (n : Z) (i : nat) (d : Z) :
  (i < Z.to_nat n)%nat -> nth i (arange n) d = Z.of_nat i.
Proof.
  intros Hi. unfold arange.
  rewrite (nth_indep _ d (Z.of_nat 0)) by now rewrite length_map, length_seq.
  rewrite (map_nth Z.of_nat (seq 0 (Z.to_nat n)) 0%nat i). now rewrite seq_nth.
Qed.

Lemma get_set_rows_step2 (start : nat) (A M : matrix) (r j : nat) :
  (r < length M)%nat ->
  get (set_rows_step2 start A M) r j =
  if (start <=? r)%nat && Nat.even (r - start)
  then nth j (nth ((r - start) / 2) A (nth r M [])) 0
  else get M r j.
Proof.
  intros Hr. unfold get, set_rows_step2.
  rewrite (nth_imap _ M [] [] r Hr).
  now destruct ((start <=? r)%nat && Nat.even (r - start)).
Qed.

Lemma set_rows_step2_length {T : Type} (start : nat) (A M : list (list T)) :
  length (set_rows_step2 start A M) = length M.
Proof. apply imap_length. Qed.

Lemma get_set_cols_step2 (start : nat) (A M : matrix) (i c : nat) :
  (i < length M)%nat -> (c < length (nth i M []))%nat ->
  get (set_cols_step2 start A M) i c =
  if (start <=? c)%nat && Nat.even (c - start)
  then nth ((c - start) / 2) (nth i A []) (get M i c)
  else get M i c.
Proof.
  intros Hi Hc. unfold get, set_cols_step2.
  rewrite (nth_imap _ M [] [] i Hi).
  now rewrite (nth_imap _ (nth i M []) 0 0 c Hc).
Qed.

Lemma set_cols_step2_length {T : Type} (start : nat) (A M : list (list T)) :
  length (set_cols_step2 start A M) = length M.
Proof. apply imap_length. Qed.

Lemma set_cols_step2_row_length {T : Type} (start : nat) (A M : list (list T))
  (i : nat) :
  length (nth i (set_cols_step2 start A M) []) = length (nth i M []).
Proof.
  destruct (Nat.lt_ge_cases i (length M)) as [Hi|Hi].
  - unfold set_cols_step2. rewrite (nth_imap _ M [] [] i Hi).
    apply imap_length.
  - rewrite !nth_overflow; try reflexivity; try assumption.
    now rewrite set_cols_step2_length.
Qed.

Lemma zeros_length (n m : nat) : length (zeros n m) = n.
Proof. apply mk_matrix_length. Qed.

Lemma zeros_row_length (n m i : nat) :
  (i < n)%nat -> length (nth i (zeros n m) []) = m.
Proof.
  intros Hi. unfold zeros. rewrite nth_mk_matrix by assumption.
  now rewrite length_map, length_seq.
Qed.

Lemma double_half (k : nat) : (2 * k / 2 = k)%nat.
Proof. rewrite Nat.mul_comm. apply Nat.div_mul. discriminate. Qed.

Lemma even_double (k : nat) : Nat.even (2 * k) = true.
Proof. rewrite Nat.even_mul. reflexivity. Qed.

Lemma even_double_pred (k : nat) : (0 < k)%nat -> Nat.even (2 * k - 1) = false.
Proof.
  intros Hk. replace (2 * k - 1)%nat with (S (2 * (k - 1))) by lia.
  rewrite Nat.even_succ, <- Nat.negb_even. now rewrite even_double.
Qed.

(** ** Entries of the design matrices *)

Section DesignMatrixEntries.
Variables (N : Z) (fsel : option (list Z)).
Variables (t k : nat).
Hypothesis Ht : (t < Z.to_nat N)%nat.
Hypothesis Hk : (k < length (channels N fsel))%nat.

Let f : Z := nth k (channels N fsel) 0%Z.

Lemma c2r_cos_entry :
  get (fourier_matrix_c2r N fsel) t (2 * k) =
  cos (phase N (Z.of_nat t) f) * c2r_mul N f.
Proof.
  unfold fourier_matrix_c2r.
  rewrite get_set_cols_step2;
    [| now rewrite set_cols_step2_length, zeros_length
     | rewrite set_cols_step2_row_length, zeros_row_length; lia ].
  replace ((1 <=? 2 * k)%nat && Nat.even (2 * k - 1)) with false.
  2:{ destruct k as [|k']; [reflexivity|].
      rewrite even_double_pred by lia. now rewrite andb_false_r. }
  rewrite get_set_cols_step2;
    [| now rewrite zeros_length | rewrite zeros_row_length; lia ].
  rewrite Nat.sub_0_r, even_double, double_half. simpl andb. cbv iota.
  rewrite (nth_indep _ [] (zipWith (fun f m => cos (phase N 0 f) * m)
                             (channels N fsel)
                             (map (c2r_mul N) (channels N fsel))))
    by now rewrite length_map, arange_length.
  rewrite (map_nth (fun t => zipWith (fun f m => cos (phase N t f) * m)
                               (channels N fsel)
                               (map (c2r_mul N) (channels N fsel)))
             (arange N) 0%Z t).
  rewrite (nth_arange N t 0%Z Ht).
  rewrite (nth_indep _ _ 0)
    by (rewrite zipWith_length, length_map; lia).
  rewrite (nth_zipWith _ 0%Z 0 0) by (rewrite ?length_map; lia).
  rewrite (nth_indep _ 0 (c2r_mul N 0%Z)) by (rewrite length_map; lia).
  now rewrite (map_nth (c2r_mul N)).
Qed.

Lemma c2r_sin_entry :
  get (fourier_matrix_c2r N fsel) t (2 * k + 1) =
  - sin (phase N (Z.of_nat t) f) * c2r_mul N f.
Proof.
  unfold fourier_matrix_c2r.
  rewrite get_set_cols_step2;
    [| now rewrite set_cols_step2_length, zeros_length
     | rewrite set_cols_step2_row_length, zeros_row_length; lia ].
  replace (2 * k + 1 - 1)%nat with (2 * k)%nat by lia.
  replace (1 <=? 2 * k + 1)%nat with true by (symmetry; apply Nat.leb_le; lia).
  rewrite even_double, double_half. simpl andb. cbv iota.
  rewrite (nth_indep _ [] (zipWith (fun f m => - sin (phase N 0 f) * m)
                             (channels N fsel)
                             (map (c2r_mul N) (channels N fsel))))
    by now rewrite length_map, arange_length.
  rewrite (map_nth (fun t => zipWith (fun f m => - sin (phase N t f) * m)
                               (channels N fsel)
                               (map (c2r_mul N) (channels N fsel)))
             (arange N) 0%Z t).
  rewrite (nth_arange N t 0%Z Ht).
  rewrite (nth_indep _ _ 0)
    by (rewrite zipWith_length, length_map; lia).
  rewrite (nth_zipWith _ 0%Z 0 0) by (rewrite ?length_map; lia).
  rewrite (nth_indep _ 0 (c2r_mul N 0%Z)) by (rewrite length_map; lia).
  now rewrite (map_nth (c2r_mul N)).
Qed.
End DesignMatrixEntries.

Section DesignMatrixEntriesR2C.
Variables (N : Z) (fsel : option (list Z)).
Variables (t k : nat).
Hypothesis Ht : (t < Z.to_nat N)%nat.
Hypothesis Hk : (k < length (channels N fsel))%nat.

Let f : Z := nth k (channels N fsel) 0%Z.

Lemma outer_entry (g : Z -> Z -> R) :
  nth t (nth k (outer g (channels N fsel) (arange N)) []) 0 =
  g f (Z.of_nat t).
Proof.
  unfold outer.
  rewrite (nth_indep _ [] (map (g 0%Z) (arange N)))
    by now rewrite length_map.
  rewrite (map_nth (fun x => map (g x) (arange N)) (channels N fsel) 0%Z k).
  fold f.
  rewrite (nth_indep _ 0 (g f 0%Z)) by now rewrite length_map, arange_length.
  rewrite (map_nth (g f) (arange N) 0%Z t).
  now rewrite (nth_arange N t 0%Z Ht).
Qed.

Lemma outer_row_length (g : Z -> Z -> R) (d : list R) :
  length (nth k (outer g (channels N fsel) (arange N)) d) = Z.to_nat N.
Proof.
  unfold outer.
  rewrite (nth_indep _ d (map (g 0%Z) (arange N)))
    by now rewrite length_map.
  rewrite (map_nth (fun x => map (g x) (arange N)) (channels N fsel) 0%Z k).
  now rewrite length_map, arange_length.
Qed.

Lemma r2c_cos_entry :
  get (fourier_matrix_r2c N fsel) (2 * k) t = cos (phase N (Z.of_nat t) f).
Proof.
  unfold fourier_matrix_r2c.
  rewrite get_set_rows_step2
    by (rewrite set_rows_step2_length, zeros_length; lia).
  replace ((1 <=? 2 * k)%nat && Nat.even (2 * k - 1)) with false.
  2:{ destruct k as [|k']; [reflexivity|].
      rewrite even_double_pred by lia. now rewrite andb_false_r. }
  rewrite get_set_rows_step2 by (rewrite zeros_length; lia).
  rewrite Nat.sub_0_r, even_double, double_half. simpl andb. cbv iota.
  rewrite (nth_indep (outer _ _ _) _ []) by (unfold outer; now rewrite length_map).
  apply (outer_entry (fun f t => cos (phase N t f))).
Qed.

Lemma r2c_sin_entry :
  get (fourier_matrix_r2c N fsel) (2 * k + 1) t =
  - sin (phase N (Z.of_nat t) f).
Proof.
  unfold fourier_matrix_r2c.
  rewrite get_set_rows_step2
    by (rewrite set_rows_step2_length, zeros_length; lia).
  replace (2 * k + 1 - 1)%nat with (2 * k)%nat by lia.
  replace (1 <=? 2 * k + 1)%nat with true by (symmetry; apply Nat.leb_le; lia).
  rewrite even_double, double_half. simpl andb. cbv iota.
  rewrite (nth_indep (outer _ _ _) _ []) by (unfold outer; now rewrite length_map).
  apply (outer_entry (fun f t => - sin (phase N t f))).
Qed.
End DesignMatrixEntriesR2C.

Lemma r2c_length (N : Z) (fsel : option (list Z)) :
  length (fourier_matrix_r2c N fsel) = (2 * length (channels N fsel))%nat.
Proof.
  unfold fourier_matrix_r2c. now rewrite !set_rows_step2_length, zeros_length.
Qed.

Lemma c2r_length (N : Z) (fsel : option (list Z)) :
  length (fourier_matrix_c2r N fsel) = Z.to_nat N.
Proof.
  unfold fourier_matrix_c2r. now rewrite !set_cols_step2_length, zeros_length.
Qed.

Lemma c2r_row_length (N : Z) (fsel : option (list Z)) (t : nat) :
  (t < Z.to_nat N)%nat ->
  length (nth t (fourier_matrix_c2r N fsel) []) =
  (2 * length (channels N fsel))%nat.
Proof.
  intros Ht. unfold fourier_matrix_c2r.
  now rewrite !set_cols_step2_row_length, zeros_row_length.
Qed.

(** ** Finite sums *)

Lemma bsum_0 (f : nat -> R) : bsum f 0 = 0.
Proof. reflexivity. Qed.

Lemma bsum_S_l (f : nat -> R) (n : nat) :
  bsum f (S n) = f 0%nat + bsum (fun k => f (S k)) n.
Proof.
  unfold bsum. simpl. f_equal. now rewrite <- seq_shift, map_map.
Qed.

Lemma bsum_ext (f g : nat -> R) (n : nat) :
  (forall k, (k < n)%nat -> f k = g k) -> bsum f n = bsum g n.
Proof.
  intros H. unfold bsum. f_equal. apply map_ext_in.
  intros k Hk. apply in_seq in Hk. apply H. lia.
Qed.

Lemma bsum_S_r (f : nat -> R) (n : nat) : bsum f (S n) = bsum f n + f n.
Proof.
  revert f. induction n as [|n IH]; intros f.
  - unfold bsum. simpl. lra.
  - rewrite bsum_S_l, IH, (bsum_S_l f n). lra.
Qed.

Lemma bsum_plus (f g : nat -> R) (n : nat) :
  bsum (fun k => f k + g k) n = bsum f n + bsum g n.
Proof.
  induction n as [|n IH]; [rewrite !bsum_0; lra|].
  rewrite !bsum_S_r, IH. lra.
Qed.

Lemma bsum_scale (c : R) (f : nat -> R) (n : nat) :
  bsum (fun k => c * f k) n = c * bsum f n.
Proof.
  induction n as [|n IH]; [rewrite !bsum_0; lra|].
  rewrite !bsum_S_r, IH. lra.
Qed.

Lemma bsum_const (c : R) (n : nat) : bsum (fun _ => c) n = INR n * c.
Proof.
  induction n as [|n IH]; [rewrite bsum_0; simpl; lra|].
  rewrite bsum_S_r, IH, S_INR. lra.
Qed.

(** A sum over [2 n] interleaved terms, taken pair by pair. *)
Lemma bsum_pairs (g : nat -> R) (n : nat) :
  bsum g (2 * n) = bsum (fun k => g (2 * k)%nat + g (2 * k + 1)%nat) n.
Proof.
  induction n as [|n IH]; [reflexivity|].
  replace (2 * S n)%nat with (S (S (2 * n))) by lia.
  rewrite !bsum_S_r, IH. replace (2 * n + 1)%nat with (S (2 * n)) by lia. lra.
Qed.

Lemma dot_bsum (u : vec) :
  forall v, length u = length v ->
    dot u v = bsum (fun c => nth c u 0 * nth c v 0) (length u).
Proof.
  induction u as [|a u IH]; intros [|b v] H; simpl in H; try discriminate.
  - reflexivity.
  - simpl length. rewrite bsum_S_l. unfold dot in *. simpl.
    f_equal. apply IH. lia.
Qed.

Lemma nth_col (j c : nat) (B : matrix) : nth c (col j B) 0 = get B c j.
Proof.
  unfold col, get.
  destruct (Nat.lt_ge_cases c (length B)) as [Hc|Hc].
  - rewrite (nth_indep _ 0 (nth j [] 0)) by now rewrite length_map.
    now rewrite (map_nth (fun row => nth j row 0) B [] c).
  - rewrite (nth_overflow (map _ B)) by now rewrite length_map.
    rewrite (nth_overflow B) by assumption. now destruct j.
Qed.

Lemma col_length (j : nat) (B : matrix) : length (col j B) = length B.
Proof. apply length_map. Qed.

Lemma map_nth_seq {A : Type} (l : list A) (d : A) :
  map (fun i => nth i l d) (seq 0 (length l)) = l.
Proof.
  induction l as [|a l IH]; [reflexivity|].
  simpl. f_equal. rewrite <- seq_shift, map_map. exact IH.
Qed.

(** A product is the table of its entries once every row of the left
    factor is as long as the right factor has rows. *)
Lemma mat_mul_entries (A B : matrix) (n m : nat) (f : nat -> nat -> R) :
  length A = n -> ncols B = m ->
  (forall i, (i < n)%nat -> length (nth i A []) = length B) ->
  (forall i j, (i < n)%nat -> (j < m)%nat ->
     bsum (fun c => get A i c * get B c j) (length B) = f i j) ->
  mat_mul A B = mk_matrix n m f.
Proof.
  intros HA HB Hrow Hent. unfold mat_mul, mat_mul_to, mk_matrix. rewrite HB.
  rewrite <- (map_nth_seq A []) at 1. rewrite HA, map_map.
  apply map_ext_in. intros i Hi. apply in_seq in Hi.
  apply map_ext_in. intros j Hj. apply in_seq in Hj.
  rewrite dot_bsum by (rewrite col_length; apply Hrow; lia).
  rewrite Hrow by lia. rewrite <- Hent by lia.
  apply bsum_ext. intros c _. now rewrite nth_col.
Qed.

Lemma bsum_zero (f : nat -> R) (n : nat) :
  (forall k, (k < n)%nat -> f k = 0) -> bsum f n = 0.
Proof.
  intros H. rewrite (bsum_ext f (fun _ => 0) n H), bsum_const. lra.
Qed.

Lemma bsum_exchange (f : nat -> nat -> R) (n m : nat) :
  bsum (fun i => bsum (fun j => f i j) m) n =
  bsum (fun j => bsum (fun i => f i j) n) m.
Proof.
  induction n as [|n IH].
  - rewrite bsum_0. symmetry. apply bsum_zero. intros j _. apply bsum_0.
  - rewrite bsum_S_r, IH, <- bsum_plus. apply bsum_ext.
    intros j _. now rewrite bsum_S_r.
Qed.

(** A sum against a Kronecker delta picks one term. *)
Lemma bsum_delta (x : nat -> R) (i n : nat) :
  (i < n)%nat ->
  bsum (fun j => (if (i =? j)%nat then 1 else 0) * x j) n = x i.
Proof.
  induction n as [|n IH]; intros Hi; [lia|].
  rewrite bsum_S_r. destruct (Nat.eq_dec i n) as [->|Hne].
  - rewrite Nat.eqb_refl. rewrite bsum_zero; [lra|].
    intros k Hk. replace (n =? k)%nat with false; [lra|].
    symmetry. apply Nat.eqb_neq. lia.
  - rewrite IH by lia. replace (i =? n)%nat with false; [lra|].
    symmetry. now apply Nat.eqb_neq.
Qed.

(** ** The cosine sum behind the Fourier pair *)

(** Lagrange's identity: the partial sums of [cos (k x)] telescope once
    multiplied by [2 sin (x / 2)]. *)
Lemma cos_sum_telescope (x : R) (n : nat) :
  2 * sin (x / 2) * bsum (fun k => cos (INR k * x)) n =
  sin ((INR n - 1 / 2) * x) + sin (x / 2).
Proof.
  induction n as [|n IH].
  - rewrite bsum_0. simpl INR.
    replace ((0 - 1 / 2) * x) with (- (x / 2)) by lra.
    rewrite sin_neg. lra.
  - rewrite bsum_S_r, Rmult_plus_distr_l, IH, S_INR.
    replace ((INR n + 1 - 1 / 2) * x) with (INR n * x + x / 2) by lra.
    replace ((INR n - 1 / 2) * x) with (INR n * x - x / 2) by lra.
    rewrite sin_plus, sin_minus. lra.
Qed.

(** Folding the conjugate-symmetric half: the end terms count once, the
    others twice. *)
Lemma bsum_folded_weights (c : nat -> R) (M : nat) :
  (1 <= M)%nat ->
  bsum (fun k => (if (k =? 0)%nat || (k =? M)%nat then 1 else 2) * c k) (S M)
  = 2 * bsum c (S M) - c 0%nat - c M.
Proof.
  intros HM. rewrite !bsum_S_r. rewrite Nat.eqb_refl, orb_true_r.
  destruct M as [|M']; [lia|]. rewrite !bsum_S_l. simpl Nat.eqb. simpl orb.
  rewrite (bsum_ext _ (fun k => 2 * c (S k)) M').
  - rewrite bsum_scale. lra.
  - intros k Hk. simpl. replace (k =? M')%nat with false; [reflexivity|].
    symmetry. apply Nat.eqb_neq. lia.
Qed.

Lemma sin_int_PI (d : Z) : sin (IZR d * PI) = 0.
Proof. apply sin_eq_0_1. now exists d. Qed.

Lemma sin_nonzero_inside (y : R) : - PI < y < PI -> y <> 0 -> sin y <> 0.
Proof.
  intros [Hl Hu] Hy. destruct (Rtotal_order y 0) as [Hneg|[H0|Hpos]].
  - assert (0 < sin (- y)) by (apply sin_gt_0; lra).
    rewrite sin_neg in H. lra.
  - contradiction.
  - assert (0 < sin y) by (apply sin_gt_0; lra). lra.
Qed.

(** The folded cosine sum over [0 .. M] at an integer offset [d] with
    [|d| < 2 M]: it is [2 M] at [d = 0] and vanishes elsewhere. *)
Lemma folded_cos_sum (M : nat) (d : Z) :
  (1 <= M)%nat -> (Z.abs d < 2 * Z.of_nat M)%Z ->
  bsum (fun k => (if (k =? 0)%nat || (k =? M)%nat then 1 else 2)
                 * cos (INR k * (PI * IZR d / INR M))) (S M)
  = if (d =? 0)%Z then 2 * INR M else 0.
Proof.
  intros HM Hd.
  assert (HMpos : 0 < INR M) by (apply lt_0_INR; lia).
  set (x := PI * IZR d / INR M).
  rewrite (bsum_folded_weights (fun k => cos (INR k * x)) M HM).
  simpl (INR 0). rewrite Rmult_0_l, cos_0.
  destruct (Z.eqb_spec d 0) as [->|Hne].
  - assert (Hx : x = 0) by (unfold x; field; lra).
    rewrite (bsum_ext _ (fun _ => 1)).
    + rewrite bsum_const, S_INR, Hx, Rmult_0_r, cos_0. lra.
    + intros k _. now rewrite Hx, Rmult_0_r, cos_0.
  - assert (Hmx : INR M * x = IZR d * PI) by (unfold x; field; lra).
    pose proof (cos_sum_telescope x (S M)) as Htel.
    rewrite S_INR in Htel.
    replace ((INR M + 1 - 1 / 2) * x) with (INR M * x + x / 2) in Htel by lra.
    rewrite sin_plus, Hmx, sin_int_PI in Htel.
    rewrite Hmx.
    assert (Hs : sin (x / 2) <> 0).
    { assert (Hb : - (2 * INR M) < IZR d < 2 * INR M).
      { rewrite INR_IZR_INZ, <- mult_IZR, <- opp_IZR.
        split; apply IZR_lt; lia. }
      assert (HPI := PI_RGT_0).
      apply sin_nonzero_inside.
      - unfold x. split.
        + apply Rmult_lt_reg_r with (2 * INR M); [lra|].
          replace (PI * IZR d / INR M / 2 * (2 * INR M)) with (PI * IZR d)
            by (field; lra).
          nra.
        + apply Rmult_lt_reg_r with (2 * INR M); [lra|].
          replace (PI * IZR d / INR M / 2 * (2 * INR M)) with (PI * IZR d)
            by (field; lra).
          nra.
      - unfold x. intros H0.
        assert (Hd0 : IZR d = 0).
        { apply Rmult_eq_reg_l with (PI / INR M / 2).
          - rewrite Rmult_0_r, <- H0. field. lra.
          - apply Rgt_not_eq. apply Rdiv_lt_0_compat; [|lra].
            now apply Rdiv_lt_0_compat. }
        apply Hne. now apply eq_IZR. }
    apply Rmult_eq_reg_l with (sin (x / 2)); [|exact Hs]. nra.
Qed.

(** ** The Fourier pair *)

Lemma default_channels_length (N : Z) :
  (0 < N)%Z -> length (channels N None) = S (Z.to_nat (N / 2)).
Proof.
  intros HN. simpl. rewrite arange_length.
  assert (0 <= N / 2)%Z by (apply Z.div_pos; lia). lia.
Qed.

Lemma c2r_mul_nat (N : Z) (k : nat) :
  (0 <= N / 2)%Z ->
  c2r_mul N (Z.of_nat k) =
  (if (k =? 0)%nat || (k =? Z.to_nat (N / 2))%nat then 1 else 2) / IZR N.
Proof.
  intros HN. unfold c2r_mul. f_equal.
  replace (Z.of_nat k =? 0)%Z with (k =? 0)%nat.
  2:{ destruct (Nat.eqb_spec k 0), (Z.eqb_spec (Z.of_nat k) 0);
      try reflexivity; lia. }
  replace (Z.of_nat k =? N / 2)%Z with (k =? Z.to_nat (N / 2))%nat.
  2:{ destruct (Nat.eqb_spec k (Z.to_nat (N / 2))),
        (Z.eqb_spec (Z.of_nat k) (N / 2)); try reflexivity; lia. }
  reflexivity.
Qed.

Lemma round_trip_entry (N : Z) (t t' : nat) :
  Z.even N = true -> (t < Z.to_nat N)%nat -> (t' < Z.to_nat N)%nat ->
  bsum (fun c => get (fourier_matrix_c2r N None) t c
                 * get (fourier_matrix_r2c N None) c t')
       (length (fourier_matrix_r2c N None))
  = if (t =? t')%nat then 1 else 0.
Proof.
  intros Hev Ht Ht'.
  assert (HNpos : (0 < N)%Z) by lia.
  destruct (Zeven_ex N) as [h Hh]; [now apply Zeven_bool_iff|].
  assert (Hhalf : (N / 2 = h)%Z).
  { rewrite Hh, Z.mul_comm. apply Z.div_mul. discriminate. }
  set (M := Z.to_nat (N / 2)).
  assert (HM : (1 <= M)%nat) by (unfold M; lia).
  assert (HNM : IZR N = 2 * INR M).
  { unfold M. rewrite INR_IZR_INZ, Z2Nat.id by lia.
    rewrite Hhalf, Hh, mult_IZR. reflexivity. }
  assert (HMpos : 0 < INR M) by (apply lt_0_INR; lia).
  rewrite r2c_length, default_channels_length by assumption. fold M.
  rewrite bsum_pairs.
  set (d := (Z.of_nat t - Z.of_nat t')%Z).
  rewrite (bsum_ext _
    (fun k => 1 / IZR N *
              ((if (k =? 0)%nat || (k =? M)%nat then 1 else 2)
               * cos (INR k * (PI * IZR d / INR M))))).
  - rewrite bsum_scale, folded_cos_sum by (unfold d; lia).
    unfold d. destruct (Nat.eqb_spec t t') as [->|Hne].
    + rewrite Z.sub_diag. simpl. rewrite HNM. field. lra.
    + replace (Z.of_nat t - Z.of_nat t' =? 0)%Z with false; [lra|].
      symmetry. apply Z.eqb_neq. lia.
  - intros k Hk.
    assert (Hkc : (k < length (channels N None))%nat)
      by (rewrite default_channels_length by assumption; fold M; lia).
    rewrite (c2r_cos_entry N None t k Ht Hkc).
    rewrite (c2r_sin_entry N None t k Ht Hkc).
    rewrite (r2c_cos_entry N None t' k Ht' Hkc).
    rewrite (r2c_sin_entry N None t' k Ht' Hkc).
    assert (Hf : nth k (channels N None) 0%Z = Z.of_nat k).
    { simpl. apply nth_arange. rewrite <- arange_length. exact Hkc. }
    rewrite Hf, c2r_mul_nat by lia. fold M.
    replace (INR k * (PI * IZR d / INR M))
      with (phase N (Z.of_nat t) (Z.of_nat k)
            - phase N (Z.of_nat t') (Z.of_nat k)).
    + rewrite cos_minus. field. lra.
    + unfold phase, d. rewrite minus_IZR, HNM, <- !INR_IZR_INZ. field. lra.
Qed.

Lemma hd_nth0 {A : Type} (l : list A) (d : A) : hd d l = nth 0 l d.
Proof. now destruct l. Qed.

Lemma r2c_ncols (N : Z) :
  (0 < N)%Z -> ncols (fourier_matrix_r2c N None) = Z.to_nat N.
Proof.
  intros HN. unfold ncols, fourier_matrix_r2c.
  assert (Hc : (0 < length (channels N None))%nat)
    by (rewrite default_channels_length by assumption; lia).
  rewrite hd_nth0.
  unfold set_rows_step2 at 1.
  rewrite (nth_imap _ _ [] [] 0%nat)
    by (rewrite set_rows_step2_length, zeros_length; lia).
  simpl andb. cbv iota.
  unfold set_rows_step2.
  rewrite (nth_imap _ _ [] [] 0%nat) by (rewrite zeros_length; lia).
  simpl.
  exact (outer_row_length N None 0%nat Hc (fun f t => cos (phase N t f)) _).
Qed.

Lemma r2c_row_length (N : Z) (fsel : option (list Z)) (c : nat) :
  (c < 2 * length (channels N fsel))%nat ->
  length (nth c (fourier_matrix_r2c N fsel) []) = Z.to_nat N.
Proof.
  intros Hc. unfold fourier_matrix_r2c.
  assert (Hrow : forall (g : Z -> Z -> R) (k : nat) (d : list R),
             length d = Z.to_nat N ->
             length (nth k (outer g (channels N fsel) (arange N)) d)
             = Z.to_nat N).
  { intros g k d Hd.
    destruct (Nat.lt_ge_cases k (length (channels N fsel))) as [Hk|Hk].
    - now apply outer_row_length.
    - rewrite nth_overflow; [exact Hd|]. unfold outer. now rewrite length_map. }
  unfold set_rows_step2 at 1.
  rewrite (nth_imap _ _ [] [] c)
    by (rewrite set_rows_step2_length, zeros_length; lia).
  assert (Hin : length (nth c (set_rows_step2 0
                   (outer (fun f t => cos (phase N t f)) (channels N fsel)
                      (arange N))
                   (zeros (2 * length (channels N fsel)) (Z.to_nat N))) [])
                = Z.to_nat N).
  { unfold set_rows_step2.
    rewrite (nth_imap _ _ [] [] c) by (rewrite zeros_length; lia).
    destruct ((0 <=? c)%nat && Nat.even (c - 0)).
    - apply Hrow. now apply zeros_row_length.
    - now apply zeros_row_length. }
  destruct ((1 <=? c)%nat && Nat.even (c - 1)); [now apply Hrow | exact Hin].
Qed.

Lemma nth_mat_vec (A : matrix) (x : vec) (i : nat) :
  (i < length A)%nat -> length (nth i A []) = length x ->
  nth i (mat_vec A x) 0 = bsum (fun j => get A i j * nth j x 0) (length x).
Proof.
  intros Hi Hrow. unfold mat_vec.
  rewrite (nth_indep _ 0 (dot [] x)) by now rewrite length_map.
  rewrite (map_nth (fun row => dot row x) A [] i).
  rewrite dot_bsum by assumption. unfold get. f_equal. exact Hrow.
Qed.

(** [C1] For every even [N], with the default channel selection
    [0 .. N/2], the product of the complex-to-real design matrix with the
    real-to-complex one is the [N] by [N] identity, and applying the
    complex-to-real matrix to the real-to-complex image of a length-[N]
    series gives the series back (in exact arithmetic). *)
Theorem fourier_round_trip (N : Z) :
  Z.even N = true ->
  mat_mul (fourier_matrix_c2r N None) (fourier_matrix_r2c N None)
  = identity (Z.to_nat N)
  /\ forall x : vec, length x = Z.to_nat N ->
       mat_vec (fourier_matrix_c2r N None)
               (mat_vec (fourier_matrix_r2c N None) x) = x.
Proof.
  intros Hev.
  destruct (Z_lt_le_dec 0 N) as [HN|HN].
  2:{ assert (Hz : Z.to_nat N = 0%nat) by lia.
      assert (He : fourier_matrix_c2r N None = []).
      { apply length_zero_iff_nil. now rewrite c2r_length. }
      rewrite He, Hz. split; [reflexivity|].
      intros x Hx. apply length_zero_iff_nil in Hx. now subst x. }
  split.
  - apply mat_mul_entries.
    + apply c2r_length.
    + now apply r2c_ncols.
    + intros i Hi. now rewrite c2r_row_length, r2c_length.
    + intros i j Hi Hj. now apply round_trip_entry.
  - intros x Hx.
    rewrite <- (map_nth_seq x 0) at 2.
    unfold mat_vec at 1.
    rewrite <- (map_nth_seq (fourier_matrix_c2r N None) []) at 1.
    rewrite map_map, c2r_length, Hx.
    apply map_ext_in. intros i Hi. apply in_seq in Hi.
    rewrite dot_bsum
      by (unfold mat_vec; now rewrite length_map, c2r_row_length, r2c_length by lia).
    rewrite c2r_row_length, <- r2c_length by lia.
    rewrite (bsum_ext _
      (fun c => bsum (fun j => get (fourier_matrix_c2r N None) i c
                               * get (fourier_matrix_r2c N None) c j
                               * nth j x 0) (Z.to_nat N))).
    2:{ intros c Hc. fold (get (fourier_matrix_c2r N None) i c).
        rewrite nth_mat_vec;
          [| exact Hc
           | rewrite r2c_row_length, ?Hx; [reflexivity | now rewrite <- r2c_length] ].
        rewrite Hx, <- bsum_scale. apply bsum_ext. intros j _. lra. }
    rewrite bsum_exchange.
    rewrite (bsum_ext _
      (fun j => (if (i =? j)%nat then 1 else 0) * nth j x 0)).
    + apply bsum_delta. lia.
    + intros j Hj.
      rewrite <- (round_trip_entry N i j Hev) by lia.
      rewrite Rmult_comm, <- bsum_scale. apply bsum_ext. intros c _. lra.
Qed.

Lemma fourier_round_trip_witness :
  mat_mul (fourier_matrix_c2r 4 None) (fourier_matrix_r2c 4 None)
  = identity (Z.to_nat 4).
Proof. exact (proj1 (fourier_round_trip 4 eq_refl)). Defined.

(** [C4] In [fourier_matrix_c2r N fsel], for every [N] (in particular every
    even one) and every channel selection, the matrix has one column pair
    per selected channel, and the pair of the channel with index [f] holds
    [cos (2 pi t f / N)] and [- sin (2 pi t f / N)] times the
    normalisation, which is [1/N] when [f] is [0] or [N/2] and [2/N] for
    every other channel index. *)
Theorem c2r_normalisation (N : Z) (fsel : option (list Z)) (t k : nat) :
  (t < Z.to_nat N)%nat ->
  (k < length (channels N fsel))%nat ->
  let f := nth k (channels N fsel) 0%Z in
  let norm := if (f =? 0)%Z || (f =? N / 2)%Z then 1 / IZR N else 2 / IZR N in
  length (nth t (fourier_matrix_c2r N fsel) [])
  = (2 * length (channels N fsel))%nat
  /\ get (fourier_matrix_c2r N fsel) t (2 * k)
     = cos (2 * PI * INR t * IZR f / IZR N) * norm
  /\ get (fourier_matrix_c2r N fsel) t (2 * k + 1)
     = - sin (2 * PI * INR t * IZR f / IZR N) * norm.
Proof.
  intros Ht Hk f norm.
  assert (Hnorm : c2r_mul N f = norm).
  { unfold c2r_mul, norm. now destruct ((f =? 0)%Z || (f =? N / 2)%Z). }
  rewrite (INR_IZR_INZ t). fold (phase N (Z.of_nat t) f). rewrite <- Hnorm.
  split; [now apply c2r_row_length|].
  split; [now apply c2r_cos_entry | now apply c2r_sin_entry].
Qed.

Lemma c2r_normalisation_witness :
  get (fourier_matrix_c2r 4 (Some [0; 1; 2]%Z)) 1 (2 * 1)
  = cos (2 * PI * INR 1 * IZR 1 / IZR 4) * (2 / IZR 4).
Proof.
  assert (Ht : (1 < Z.to_nat 4)%nat) by (simpl; lia).
  assert (Hk : (1 < length (channels 4 (Some [0; 1; 2]%Z)))%nat)
    by (simpl; lia).
  exact (proj1 (proj2 (c2r_normalisation 4 (Some [0; 1; 2]%Z) 1 1 Ht Hk))).
Defined.

(** ** Window generator *)

Lemma cosine_rows_sum (a0 a1 a2 a3 : R) (x : vec) :
  sum_axis0 (length x)
    (zipWith (fun ak row => map (fun tkj => ak * cos tkj) row)
       [a0; a1; a2; a3]
       (outer (fun k xj => 2 * PI * IZR k * xj) (arange 4) x))
  = map (cosine_sum a0 a1 a2 a3) x.
Proof.
  unfold sum_axis0, outer, arange. simpl fold_left.
  induction x as [|xj x IH]; [reflexivity|].
  simpl. f_equal; [unfold cosine_sum; lra | exact IH].
Qed.

Lemma window_unknown_name (x : vec) (name : string) :
  name <> "nuttall"%string -> name <> "blackman_nuttall"%string ->
  name <> "blackman_harris"%string ->
  window_generalised x name = Raise (KeyError name).
Proof.
  intros H1 H2 H3. unfold window_generalised, a_table. cbn [dict_getitem].
  rewrite !(proj2 (String.eqb_neq _ _)) by (intros E; symmetry in E; tauto).
  reflexivity.
Qed.

(** [C6], as the code has it: a window name outside the three supported
    families makes the table lookup raise [KeyError]; each supported name
    gives, at every location [x], the sum over [k = 0 .. 3] of
    [a_k cos (2 pi k x)] with that family's coefficients. *)
Theorem window_generalised_spec (x : vec) (name : string) :
  (name <> "nuttall"%string -> name <> "blackman_nuttall"%string ->
   name <> "blackman_harris"%string ->
   window_generalised x name = Raise (KeyError name))
  /\ window_generalised x "nuttall"
     = Ok (map (cosine_sum 0.355768 (-0.487396) 0.144232 (-0.012604)) x)
  /\ window_generalised x "blackman_nuttall"
     = Ok (map (cosine_sum 0.3635819 (-0.4891775) 0.1365995 (-0.0106411)) x)
  /\ window_generalised x "blackman_harris"
     = Ok (map (cosine_sum 0.35875 (-0.48829) 0.14128 (-0.01168)) x).
Proof.
  split; [apply window_unknown_name|].
  unfold window_generalised, a_table. simpl dict_getitem. unfold bind.
  now rewrite !cosine_rows_sum.
Qed.

Lemma window_generalised_spec_witness :
  window_generalised [0; 1] "hann" = Raise (KeyError "hann").
Proof.
  apply (proj1 (window_generalised_spec [0; 1] "hann")); discriminate.
Defined.

(** [C6], as stated, fails: an unknown window name does not raise
    [InvalidConfiguration]. *)
Lemma window_unknown_name_not_invalid_configuration :
  ~ exists msg, window_generalised [0; 1] "hann"
                = Raise (InvalidConfiguration msg).
Proof.
  intros [msg H]. rewrite window_unknown_name in H by discriminate.
  discriminate H.
Qed.

(** ** DelayFilter.process *)

(** [C5] evaluated on the code: with [update_weight] set, the call leaves
    the store as it was and raises at once, but what it raises is the
    [TypeError] of calling the constant [NotImplemented], not a
    not-implemented error. *)
Theorem delay_filter_update_weight_raises (svd : cmatrix -> svd_result)
  (cut : R) (ss : ref) (h : store) :
  DelayFilter_process svd {| delay_cut := cut; update_weight := true |} ss h
  = (Raise (TypeError "'NotImplementedType' object is not callable"), h)
  /\ forall msg,
       fst (DelayFilter_process svd
              {| delay_cut := cut; update_weight := true |} ss h)
       <> Raise (NotImplementedError msg).
Proof.
  split; [reflexivity|]. intros msg. discriminate.
Qed.

Lemma set_nth_length {T : Type} (i : nat) (v : T) (l : list T) :
  length (set_nth i v l) = length l.
Proof. apply imap_length. Qed.

Lemma nth_set_nth {T : Type} (i k : nat) (v d : T) (l : list T) :
  nth k (set_nth i v l) d
  = if (k =? i)%nat && (k <? length l)%nat then v else nth k l d.
Proof.
  destruct (Nat.ltb_spec k (length l)) as [Hk|Hk].
  - unfold set_nth. rewrite (nth_imap _ l d d k Hk). now rewrite andb_true_r.
  - rewrite andb_false_r.
    rewrite !nth_overflow; try reflexivity; try assumption.
    now rewrite set_nth_length.
Qed.

Section DelayFilterProperties.
Variable svd : cmatrix -> svd_result.
Variable self : DelayFilter.
Variables (freq : vec) (ss : ref).

(** What the loop leaves alone, whether it ends or raises. *)
Lemma filter_products_frame (bis : list nat) :
  forall h,
    let h' := snd (filter_products svd self freq ss bis h) in
    (forall r, r <> ss -> h' r = h r)
    /\ weight (h' ss) = weight (h ss)
    /\ freq_centre (h' ss) = freq_centre (h ss)
    /\ index_prod (h' ss) = index_prod (h ss)
    /\ index_time (h' ss) = index_time (h ss)
    /\ distributed_axis (h' ss) = distributed_axis (h ss)
    /\ length (vis (h' ss)) = length (vis (h ss))
    /\ forall bi, ~ In bi bis ->
         nth bi (vis (h' ss)) [] = nth bi (vis (h ss)) [].
Proof.
  induction bis as [|b bis IH]; intros h; simpl.
  - repeat split; reflexivity.
  - destruct (null_delay_filter svd freq (delay_cut self)
                (median_axis1 (nth b (weight (h ss)) []))
                default_num_delay default_tol true) as [NF|e]; simpl.
    2:{ repeat split; reflexivity. }
    match goal with
    | |- context [filter_products svd self freq ss bis ?h1] =>
        specialize (IH h1); set (h1' := h1) in *
    end.
    simpl in IH.
    destruct IH as (Ho & Hw & Hf & Hp & Ht & Ha & Hl & Hv).
    assert (Hss : h1' ss = with_vis
              (set_nth b (cmat_mul (ncols (nth b (vis (h ss)) [])) NF
                            (nth b (vis (h ss)) [])) (vis (h ss))) (h ss)).
    { unfold h1', store_set. now rewrite Nat.eqb_refl. }
    rewrite Hss in Hw, Hf, Hp, Ht, Ha, Hl, Hv. simpl in *.
    repeat split; try assumption.
    + intros r Hr. rewrite Ho by assumption. unfold h1', store_set.
      now rewrite (proj2 (Nat.eqb_neq r ss) Hr).
    + now rewrite Hl, set_nth_length.
    + intros bi Hbi. rewrite Hv by tauto. rewrite nth_set_nth.
      replace (bi =? b)%nat with false; [reflexivity|].
      symmetry. apply Nat.eqb_neq. intros ->. tauto.
Qed.

(** The loop ends exactly when every filter can be built, and then
    every product it has visited holds its filtered slice. *)
Lemma filter_products_result (bis : list nat) :
  forall h,
    NoDup bis -> (forall bi, In bi bis -> (bi < length (vis (h ss)))%nat) ->
    let out := filter_products svd self freq ss bis h in
    ((forall bi, In bi bis -> exists NF, product_filter svd self freq (h ss) bi = Ok NF)
     -> fst out = Ok tt)
    /\ (fst out = Ok tt ->
        forall bi, In bi bis ->
          exists NF, product_filter svd self freq (h ss) bi = Ok NF
                     /\ nth bi (vis (snd out ss)) []
                        = filtered NF (h ss) bi).
Proof.
  induction bis as [|b bis IH]; intros h Hnd Hin; simpl.
  - split; [reflexivity | intros _ bi []].
  - unfold product_filter in *.
    destruct (null_delay_filter svd freq (delay_cut self)
                (median_axis1 (nth b (weight (h ss)) []))
                default_num_delay default_tol true) as [NF|e] eqn:HNF;
      simpl.
    2:{ split.
        - intros Hall. destruct (Hall b (or_introl eq_refl)) as [NF' H'].
          rewrite HNF in H'. discriminate.
        - discriminate. }
    match goal with
    | |- context [filter_products svd self freq ss bis ?h1] =>
        set (h1' := h1) in *
    end.
    assert (Hss : h1' ss = with_vis
              (set_nth b (cmat_mul (ncols (nth b (vis (h ss)) [])) NF
                            (nth b (vis (h ss)) [])) (vis (h ss))) (h ss)).
    { unfold h1', store_set. now rewrite Nat.eqb_refl. }
    inversion Hnd as [|b' bis' Hnotin Hnd']; subst.
    assert (Hin1 : forall bi, In bi bis -> (bi < length (vis (h1' ss)))%nat).
    { intros bi Hbi. rewrite Hss. simpl. rewrite set_nth_length.
      apply Hin. now right. }
    destruct (IH h1' Hnd' Hin1) as [IHok IHval].
    assert (Hw : weight (h1' ss) = weight (h ss)) by now rewrite Hss.
    assert (Hother : forall bi, In bi bis ->
               nth bi (vis (h1' ss)) [] = nth bi (vis (h ss)) []).
    { intros bi Hbi. rewrite Hss. simpl. rewrite nth_set_nth.
      replace (bi =? b)%nat with false; [reflexivity|].
      symmetry. apply Nat.eqb_neq. intros ->. contradiction. }
    split.
    + intros Hall. apply IHok. intros bi Hbi.
      rewrite Hw. apply Hall. now right.
    + intros Hok bi [<-|Hbi].
      * exists NF. split; [exact HNF|].
        destruct (filter_products_frame bis h1') as (_ & _ & _ & _ & _ & _ & _ & Hv).
        rewrite (Hv b Hnotin), Hss. simpl. rewrite nth_set_nth.
        rewrite Nat.eqb_refl.
        replace (b <? length (vis (h ss)))%nat with true; [reflexivity|].
        symmetry. apply Nat.ltb_lt. apply Hin. now left.
      * destruct (IHval Hok bi Hbi) as (NF' & HNF' & Hval).
        exists NF'. rewrite Hw in HNF'. split; [exact HNF'|].
        rewrite Hval. unfold filtered. now rewrite Hother.
Qed.
End DelayFilterProperties.

Lemma vmin_nonempty (a : vec) : a <> [] -> exists lo, vmin a = Ok lo.
Proof. destruct a as [|x a]; [congruence | intros _; now eexists]. Qed.

Lemma vmax_nonempty (a : vec) : a <> [] -> exists hi, vmax a = Ok hi.
Proof. destruct a as [|x a]; [congruence | intros _; now eexists]. Qed.

Lemma window_nuttall_ok (x : vec) :
  window_generalised x "nuttall"
  = Ok (map (cosine_sum 0.355768 (-0.487396) 0.144232 (-0.012604)) x).
Proof.
  unfold window_generalised, a_table. simpl dict_getitem. unfold bind.
  now rewrite cosine_rows_sum.
Qed.

Lemma fold_left_Rmax_ge (l : vec) (x : R) :
  x <= fold_left Rmax l x /\ forall y, In y l -> y <= fold_left Rmax l x.
Proof.
  revert x. induction l as [|z l IH]; intros x; simpl.
  - split; [lra | contradiction].
  - destruct (IH (Rmax x z)) as [H1 H2].
    pose proof (Rmax_l x z). pose proof (Rmax_r x z).
    split; [lra|]. intros y [<-|Hy]; [lra | now apply H2].
Qed.

Lemma fold_left_Rmin_le (l : vec) (x : R) :
  fold_left Rmin l x <= x /\ forall y, In y l -> fold_left Rmin l x <= y.
Proof.
  revert x. induction l as [|z l IH]; intros x; simpl.
  - split; [lra | contradiction].
  - destruct (IH (Rmin x z)) as [H1 H2].
    pose proof (Rmin_l x z). pose proof (Rmin_r x z).
    split; [lra|]. intros y [<-|Hy]; [lra | now apply H2].
Qed.

(** Two channels at different frequencies give the axis a range. *)
Lemma ptp_nonzero (freq : vec) (a b hi lo : R) :
  In a freq -> In b freq -> a <> b ->
  vmax freq = Ok hi -> vmin freq = Ok lo -> hi - lo <> 0.
Proof.
  intros Ha Hb Hab Hhi Hlo. destruct freq as [|x l]; [contradiction|].
  simpl in Hhi, Hlo. inversion Hhi as [Hh]. inversion Hlo as [Hl].
  destruct (fold_left_Rmax_ge l x) as [M1 M2].
  destruct (fold_left_Rmin_le l x) as [m1 m2].
  assert (Hin : forall y, In y (x :: l) ->
                  fold_left Rmin l x <= y <= fold_left Rmax l x).
  { intros y [<-|Hy]; [lra|]. split; [now apply m2 | now apply M2]. }
  pose proof (Hin a Ha). pose proof (Hin b Hb). intros Heq. apply Hab. lra.
Qed.

Lemma filter_window_returns (freq : vec) :
  (exists a b, In a freq /\ In b freq /\ a <> b) ->
  exists w, filter_window freq = Ok w /\ length w = length freq.
Proof.
  intros (a & b & Ha & Hb & Hab).
  assert (Hf : freq <> []) by (intros ->; contradiction).
  unfold filter_window, ptp.
  destruct (vmin_nonempty freq Hf) as [lo Hlo].
  destruct (vmax_nonempty freq Hf) as [hi Hhi].
  rewrite Hlo, Hhi. cbn [bind].
  destruct (Req_dec_T (hi - lo) 0) as [Hz|_];
    [exfalso; exact (ptp_nonzero freq a b hi lo Ha Hb Hab Hhi Hlo Hz)|].
  rewrite window_nuttall_ok. eexists. split; [reflexivity|].
  now rewrite !length_map.
Qed.

(** The filter is built whenever two channels differ in frequency and the
    decomposition hands back a singular value. *)
Lemma null_delay_filter_returns (svd : cmatrix -> svd_result) (freq : vec)
  (max_delay : R) (mask : vec) (num_delay : nat) (tol : R) (window : bool) :
  (exists a b, In a freq /\ In b freq /\ a <> b) ->
  (forall F, svd_sig (svd F) <> []) ->
  exists NF,
    null_delay_filter svd freq max_delay mask num_delay tol window = Ok NF.
Proof.
  intros Hf Hs. unfold null_delay_filter.
  destruct (filter_window_returns freq Hf) as [w [-> _]]. cbn [bind].
  unfold removed_modes.
  match goal with
  | |- context [svd ?F] => destruct (vmax_nonempty _ (Hs F)) as [smax ->]
  end.
  cbn [bind]. now eexists.
Qed.

Ltac distinct_channels :=
  exists 0, 1; split; [simpl; tauto | split; [simpl; tauto | lra]].

(** With weights not to be updated, the task redistributes the container
    and runs the loop over its products. *)
Lemma DelayFilter_process_unfold (svd : cmatrix -> svd_result)
  (self : DelayFilter) (ss : ref) (h : store) :
  update_weight self = false ->
  DelayFilter_process svd self ss h
  = match filter_products svd self (freq_centre (h ss)) ss
            (seq 0 (length (vis (h ss)))) (redistribute AxisProd ss h) with
    | (Raise e, h') => (Raise e, h')
    | (Ok _, h') => (Ok ss, h')
    end.
Proof.
  intros Hu. unfold DelayFilter_process. rewrite Hu.
  unfold redistribute, store_set. now rewrite Nat.eqb_refl.
Qed.

Lemma redistribute_at (a : axis) (ss : ref) (h : store) :
  redistribute a ss h ss = with_axis a (h ss).
Proof. unfold redistribute, store_set. now rewrite Nat.eqb_refl. Qed.

Lemma redistribute_other (a : axis) (ss r : ref) (h : store) :
  r <> ss -> redistribute a ss h r = h r.
Proof.
  intros Hr. unfold redistribute, store_set.
  now rewrite (proj2 (Nat.eqb_neq r ss) Hr).
Qed.

(** What [DelayFilter.process] leaves alone and what it sets, whether it
    returns or raises in the loop. *)
Lemma DelayFilter_process_frame (svd : cmatrix -> svd_result)
  (self : DelayFilter) (ss : ref) (h : store) :
  update_weight self = false ->
  let h' := snd (DelayFilter_process svd self ss h) in
  (forall r, r <> ss -> h' r = h r)
  /\ weight (h' ss) = weight (h ss)
  /\ freq_centre (h' ss) = freq_centre (h ss)
  /\ index_prod (h' ss) = index_prod (h ss)
  /\ index_time (h' ss) = index_time (h ss)
  /\ length (vis (h' ss)) = length (vis (h ss))
  /\ distributed_axis (h' ss) = AxisProd.
Proof.
  intros Hu. rewrite (DelayFilter_process_unfold svd self ss h Hu).
  pose proof (filter_products_frame svd self (freq_centre (h ss)) ss
                (seq 0 (length (vis (h ss)))) (redistribute AxisProd ss h))
    as (Ho & Hw & Hf & Hp & Ht & Ha & Hl & _).
  rewrite redistribute_at in Hw, Hf, Hp, Ht, Ha, Hl.
  destruct (filter_products svd self (freq_centre (h ss)) ss
              (seq 0 (length (vis (h ss)))) (redistribute AxisProd ss h))
    as [[u|e] h2]; simpl in *;
    (repeat split; try assumption;
     intros r Hr; rewrite Ho by assumption; now apply redistribute_other).
Qed.

(** When [DelayFilter.process] returns, and what the products then hold. *)
Lemma DelayFilter_process_result (svd : cmatrix -> svd_result)
  (self : DelayFilter) (ss : ref) (h : store) :
  update_weight self = false ->
  let out := DelayFilter_process svd self ss h in
  let freq := freq_centre (h ss) in
  let nprod := length (vis (h ss)) in
  ((forall bi, (bi < nprod)%nat ->
      exists NF, product_filter svd self freq (h ss) bi = Ok NF)
   -> fst out = Ok ss)
  /\ forall r, fst out = Ok r ->
       r = ss
       /\ forall bi, (bi < nprod)%nat ->
            exists NF, product_filter svd self freq (h ss) bi = Ok NF
                       /\ nth bi (vis (snd out ss)) []
                          = filtered NF (h ss) bi.
Proof.
  intros Hu out freq nprod. subst out.
  rewrite (DelayFilter_process_unfold svd self ss h Hu). fold freq nprod.
  set (h1 := redistribute AxisProd ss h).
  assert (H1 : h1 ss = with_axis AxisProd (h ss)) by apply redistribute_at.
  assert (Hin : forall bi, In bi (seq 0 nprod) ->
                  (bi < length (vis (h1 ss)))%nat).
  { intros bi Hbi. apply in_seq in Hbi. rewrite H1. simpl. fold nprod. lia. }
  pose proof (filter_products_result svd self freq ss (seq 0 nprod) h1
                (seq_NoDup _ _) Hin) as [Hok Hval].
  assert (Hpf : forall bi, product_filter svd self freq (h1 ss) bi
                           = product_filter svd self freq (h ss) bi).
  { intros bi. unfold product_filter. now rewrite H1. }
  assert (Hfl : forall NF bi, filtered NF (h1 ss) bi = filtered NF (h ss) bi).
  { intros NF bi. unfold filtered. now rewrite H1. }
  destruct (filter_products svd self freq ss (seq 0 nprod) h1)
    as [[u|e] h2]; simpl in *.
  - destruct u. split; [reflexivity|]. intros r Hr. split; [congruence|].
    intros bi Hbi.
    destruct (Hval eq_refl bi) as (NF & HNF & Hv); [apply in_seq; lia|].
    exists NF. rewrite <- Hpf, <- Hfl. now split.
  - split; [|discriminate]. intros Hall. exfalso.
    assert (Raise e = Ok tt) as Habs; [|discriminate Habs].
    apply Hok. intros bi Hbi. apply in_seq in Hbi.
    rewrite Hpf. apply Hall. lia.
Qed.

(** [C10], as the code has it: when weights are not to be updated,
    [DelayFilter.process] leaves every other object alone and, in the
    container it was given, the weights, the frequency, product and time
    axes and the number of products; it sets the distributed axis to the
    product axis; it returns the reference it was given as soon as every
    filter can be built, and then each product holds the slice it had,
    multiplied by the filter built from its own weights. *)
Theorem delay_filter_process_in_place (svd : cmatrix -> svd_result)
  (self : DelayFilter) (ss : ref) (h : store) :
  update_weight self = false ->
  let out := DelayFilter_process svd self ss h in
  let h' := snd out in
  let freq := freq_centre (h ss) in
  let nprod := length (vis (h ss)) in
  (forall r, r <> ss -> h' r = h r)
  /\ weight (h' ss) = weight (h ss)
  /\ freq_centre (h' ss) = freq_centre (h ss)
  /\ index_prod (h' ss) = index_prod (h ss)
  /\ index_time (h' ss) = index_time (h ss)
  /\ length (vis (h' ss)) = nprod
  /\ distributed_axis (h' ss) = AxisProd
  /\ ((forall bi, (bi < nprod)%nat ->
         exists NF, product_filter svd self freq (h ss) bi = Ok NF)
      -> fst out = Ok ss)
  /\ forall r, fst out = Ok r ->
       r = ss
       /\ forall bi, (bi < nprod)%nat ->
            exists NF, product_filter svd self freq (h ss) bi = Ok NF
                       /\ nth bi (vis (h' ss)) [] = filtered NF (h ss) bi.
Proof.
  intros Hu out h' freq nprod.
  destruct (DelayFilter_process_frame svd self ss h Hu)
    as (Ho & Hw & Hf & Hp & Ht & Hl & Ha).
  destruct (DelayFilter_process_result svd self ss h Hu) as [Hret Hval].
  repeat (split; [assumption|]). exact Hval.
Qed.

Lemma delay_filter_process_in_place_witness :
  weight (snd (DelayFilter_process example_svd example_filter 0%nat
                 example_store) 0%nat)
  = weight (example_store 0%nat).
Proof.
  exact (proj1 (proj2 (delay_filter_process_in_place example_svd
                         example_filter 0%nat example_store eq_refl))).
Defined.

(** [C10], as stated, fails: the call returns the container it was given
    with the distributed axis changed from frequency to product. *)
Lemma delay_filter_process_redistributes :
  let out := DelayFilter_process example_svd example_filter 0%nat example_store in
  fst out = Ok 0%nat
  /\ distributed_axis (snd out 0%nat) = AxisProd
  /\ distributed_axis (example_store 0%nat) = AxisFreq
  /\ distributed_axis (snd out 0%nat) <> distributed_axis (example_store 0%nat).
Proof.
  pose proof (DelayFilter_process_frame example_svd example_filter 0%nat
                example_store eq_refl)
    as (_ & _ & _ & _ & _ & _ & Hax).
  pose proof (DelayFilter_process_result example_svd example_filter 0%nat
                example_store eq_refl) as [Hok _].
  cbv zeta in *. split; [|split; [exact Hax | split; [reflexivity|]]].
  - apply Hok. intros bi _. apply null_delay_filter_returns; [distinct_channels | discriminate].
  - rewrite Hax. discriminate.
Qed.

(** ** Gibbs sampler *)

Lemma Rdiv_nonneg (a n : R) : 0 <= a -> 0 <= n -> 0 <= a / n.
Proof.
  intros Ha [Hn|<-].
  - apply Rmult_le_pos; [exact Ha|]. left. now apply Rinv_0_lt_compat.
  - unfold Rdiv. rewrite Rinv_0. lra.
Qed.



(** One sample has no spread. *)
Lemma var_single (a : R) : var [a] = 0.
Proof. unfold var. simpl. field. Qed.

Lemma In_zipWith {A B C : Type} (f : A -> B -> C) (c : C) (u : list A) :
  forall v, In c (zipWith f u v) ->
    exists a b, In a u /\ In b v /\ c = f a b.
Proof.
  induction u as [|a u IH]; intros [|b v] H; simpl in H; try contradiction.
  destruct H as [<-|H].
  - exists a, b. simpl. auto.
  - destruct (IH v H) as (a' & b' & Ha & Hb & ->).
    exists a', b'. simpl. auto.
Qed.


Lemma draw_ps_sample_single_column (d : matrix) (chi : vec) :
  (forall row, In row d -> exists a, row = [a]) ->
  forall s, In s (_draw_ps_sample d chi) -> s = 0.
Proof.
  intros Hd s Hs. unfold _draw_ps_sample in Hs.
  apply In_zipWith in Hs. destruct Hs as (sh & c & Hsh & Hc & ->).
  apply in_map_iff in Hsh. destruct Hsh as (row & <- & Hrow).
  destruct (Hd row Hrow) as [a ->]. rewrite var_single.
  unfold Rdiv. now rewrite !Rmult_0_l.
Qed.

(** Linear arithmetic on lengths, whatever name the type of the entries
    goes by. *)
Ltac len_lia := unfold complex, cmatrix, matrix, vec in *; lia.

Lemma var_nil : var [] = 0.
Proof. unfold var. simpl. unfold Rdiv. now rewrite !Rmult_0_l. Qed.



(** Rows that all have a spread give a positive sample. *)
Lemma draw_ps_sample_positive (d : matrix) (chi : vec) :
  (forall c, In c chi -> 0 < c) ->
  (forall row, In row d -> 0 < var row) ->
  forall s, In s (_draw_ps_sample d chi) -> 0 < s.
Proof.
  intros Hchi Hd s Hs. unfold _draw_ps_sample in Hs.
  apply In_zipWith in Hs. destruct Hs as (sh & c & Hsh & Hc & ->).
  apply in_map_iff in Hsh. destruct Hsh as (row & <- & Hrow).
  assert (Hcol : (0 < ncols d)%nat).
  { destruct d as [|r0 d']; [contradiction|]. unfold ncols. simpl.
    pose proof (Hd r0 (or_introl eq_refl)) as H0.
    destruct r0; [rewrite var_nil in H0; lra | simpl; lia]. }
  unfold Rdiv. apply Rmult_lt_0_compat;
    [|apply Rinv_0_lt_compat; now apply Hchi].
  apply Rmult_lt_0_compat; [now apply Hd | now apply lt_0_INR].
Qed.

Lemma repeat2_length (w : vec) : length (repeat2 w) = (2 * length w)%nat.
Proof.
  unfold repeat2. induction w as [|a w IH]; [reflexivity|].
  cbn [flat_map app length]. rewrite IH. lia.
Qed.


Section GibbsProperties.
Variable solve : matrix -> matrix -> result matrix.
Variables (data : cmatrix) (N : Z) (Ni : vec) (window : bool)
          (fsel : option (list Z)).
Variable rng : nat -> rng_draw.





(** On a positive spectrum of [N] entries, with non-negative noise weights
    and as many rows of data as of [F], the draw is what the solver makes
    of the Wiener system. *)
Lemma draw_signal_sample_solves (F dat : matrix) (S : vec) (rnd : rng_draw) :
  length S = Z.to_nat N -> length F = length dat ->
  (forall s, In s S -> 0 < s) ->
  (forall ni, In ni (Ni_r N Ni fsel) -> 0 <= ni) ->
  _draw_signal_sample solve N Ni fsel F dat S rnd
  = solve (fst (wiener_system N Ni fsel F dat S rnd))
          (snd (wiener_system N Ni fsel F dat S rnd)).
Proof.
  intros HS HF Hpos Hni. unfold _draw_signal_sample.
  rewrite HS, HF, !Nat.eqb_refl. cbn [negb].
  replace (finite_system N Ni fsel S) with true.
  - now destruct (wiener_system N Ni fsel F dat S rnd) as [Ci y].
  - symmetry. unfold finite_system. apply andb_true_iff. split.
    + apply forallb_forall. intros s Hs.
      destruct (Rlt_dec 0 s) as [_|Hn]; [reflexivity|].
      exfalso. apply Hn. now apply Hpos.
    + apply orb_true_iff. right. apply forallb_forall. intros ni Hin.
      destruct (Rle_dec 0 ni) as [_|Hn]; [reflexivity|].
      exfalso. apply Hn. now apply Hni.
Qed.

Lemma gibbs_loop_length (F dat : matrix) (n : nat) :
  forall ii S_samp spec,
    gibbs_loop solve N Ni fsel F dat rng ii n S_samp = Ok spec ->
    length spec = n.
Proof.
  induction n as [|n IH]; intros ii S_samp spec H; simpl in H.
  - now inversion H.
  - destruct (_draw_signal_sample solve N Ni fsel F dat S_samp (rng ii))
      as [d|e]; [|discriminate]. cbn [bind] in H.
    destruct (gibbs_loop solve N Ni fsel F dat rng (S ii) n _)
      as [rest|e] eqn:Hrest; [|discriminate]. cbn [bind] in H.
    inversion H. simpl. f_equal. now apply (IH _ _ _ Hrest).
Qed.


(** The loop runs to its end when the solver, on every positive spectrum,
    returns [N] rows that each have a spread: every draw is then a
    positive spectrum again. *)
Lemma gibbs_loop_positive (F dat : matrix) (n : nat) :
  length F = length dat ->
  (forall ni, In ni (Ni_r N Ni fsel) -> 0 <= ni) ->
  (forall k c, In c (chi2 (rng k)) -> 0 < c) ->
  (forall k, length (chi2 (rng k)) = Z.to_nat N) ->
  (forall k S, length S = Z.to_nat N -> (forall s, In s S -> 0 < s) ->
     exists d,
       solve (fst (wiener_system N Ni fsel F dat S (rng k)))
             (snd (wiener_system N Ni fsel F dat S (rng k))) = Ok d
       /\ length d = Z.to_nat N
       /\ forall row, In row d -> 0 < var row) ->
  forall ii S_samp,
    length S_samp = Z.to_nat N -> (forall s, In s S_samp -> 0 < s) ->
    exists spec,
      gibbs_loop solve N Ni fsel F dat rng ii n S_samp = Ok spec
      /\ forall S_drawn, In S_drawn spec ->
           length S_drawn = Z.to_nat N
           /\ forall s, In s S_drawn -> 0 < s.
Proof.
  intros HF Hni Hchi Hlen Hsolve.
  induction n as [|n IH]; intros ii S_samp HS Hpos; simpl.
  - eexists. split; [reflexivity | intros S_drawn []].
  - rewrite (draw_signal_sample_solves F dat S_samp (rng ii) HS HF Hpos Hni).
    destruct (Hsolve ii S_samp HS Hpos) as (d & -> & Hd & Hvar).
    cbn [bind].
    assert (HS' : length (_draw_ps_sample d (chi2 (rng ii))) = Z.to_nat N).
    { unfold _draw_ps_sample. rewrite zipWith_length, length_map.
      specialize (Hlen ii). len_lia. }
    assert (Hpos' : forall s, In s (_draw_ps_sample d (chi2 (rng ii))) ->
                      0 < s)
      by (apply draw_ps_sample_positive; [apply Hchi | exact Hvar]).
    destruct (IH (S ii) _ HS' Hpos') as (rest & -> & Hrest). cbn [bind].
    eexists. split; [reflexivity|].
    intros S_drawn [<-|Hin]; [split; assumption | now apply Hrest].
Qed.

Lemma delay_spectrum_gibbs_length (initial_S : vec) (niter : Z)
  (spec : list vec) :
  delay_spectrum_gibbs solve data N Ni window fsel rng initial_S niter
  = Ok spec ->
  length spec = Z.to_nat niter.
Proof.
  unfold delay_spectrum_gibbs.
  destruct (gibbs_F N window fsel) as [F|e]; [|discriminate].
  destruct (gibbs_data data N window fsel) as [dat|e]; [|discriminate].
  destruct (gibbs_noise N Ni fsel) as [ni|e]; [|discriminate].
  cbn [bind]. apply gibbs_loop_length.
Qed.
End GibbsProperties.

(** *** A run on a single time sample *)

Lemma cos_3PI : cos (3 * PI) = -1.
Proof.
  replace (3 * PI) with (PI + 2 * INR 1 * PI) by (simpl; lra).
  rewrite cos_period. apply cos_PI.
Qed.

Lemma nuttall_at_0 :
  cosine_sum 0.355768 (-0.487396) 0.144232 (-0.012604) 0 = 0.
Proof. unfold cosine_sum. rewrite !Rmult_0_r, cos_0. lra. Qed.

Lemma nuttall_at_half :
  cosine_sum 0.355768 (-0.487396) 0.144232 (-0.012604) (1 / 2) = 1.
Proof.
  unfold cosine_sum.
  replace (2 * PI * 0 * (1 / 2)) with 0 by lra.
  replace (2 * PI * 1 * (1 / 2)) with PI by lra.
  replace (2 * PI * 2 * (1 / 2)) with (2 * PI) by lra.
  replace (2 * PI * 3 * (1 / 2)) with (3 * PI) by lra.
  rewrite cos_0, cos_PI, cos_2PI, cos_3PI. lra.
Qed.

Lemma example_window (fsel : option (list Z)) :
  gibbs_fsel 2 fsel = [0; 1]%Z -> gibbs_window 2 fsel = Ok [0; 0; 1; 1].
Proof.
  intros Hf. unfold gibbs_window. rewrite window_nuttall_ok. cbn [bind].
  f_equal. rewrite Hf. change (IZR (total_freq 2)) with 2.
  cbn [map repeat2 flat_map app].
  replace (0 * 1 / 2) with 0 by lra. replace (1 * 1 / 2) with (1 / 2) by lra.
  now rewrite nuttall_at_0, nuttall_at_half.
Qed.

Lemma example_F (fsel : option (list Z)) :
  gibbs_fsel 2 fsel = [0; 1]%Z ->
  gibbs_F 2 true fsel = Ok [ [0; 0]; [0; 0]; [1; -1]; [0; 0] ].
Proof.
  intros Hf. unfold gibbs_F. change (2 <? 0)%Z with false. cbv iota.
  rewrite (example_window fsel Hf). cbn [bind].
  f_equal. rewrite Hf.
  change (fourier_matrix_r2c 2 (Some [0; 1]%Z))
    with [ [cos (phase 2 0 0); cos (phase 2 1 0)];
           [- sin (phase 2 0 0); - sin (phase 2 1 0)];
           [cos (phase 2 0 1); cos (phase 2 1 1)];
           [- sin (phase 2 0 1); - sin (phase 2 1 1)] ].
  unfold phase.
  replace (2 * PI * 0 * 0 / 2) with 0 by lra.
  replace (2 * PI * 1 * 0 / 2) with 0 by lra.
  replace (2 * PI * 0 * 1 / 2) with 0 by lra.
  replace (2 * PI * 1 * 1 / 2) with PI by lra.
  rewrite cos_0, sin_0, cos_PI, sin_PI.
  cbn [scale_rows zipWith map].
  repeat (f_equal; try lra).
Qed.

Lemma example_dat (fsel : option (list Z)) :
  gibbs_fsel 2 fsel = [0; 1]%Z ->
  gibbs_data example_data 2 true fsel = Ok [ [0]; [0]; [21]; [0] ].
Proof.
  intros Hf. unfold gibbs_data. rewrite (example_window fsel Hf).
  change ((length example_data =? 0)%nat || (ncols example_data =? 0)%nat)
    with false. cbv iota.
  cbn [bind].
  change (transpose (2 * ncols example_data) (view_float64 example_data))
    with [ [0]; [0]; [21]; [0] ].
  cbn [length Nat.eqb]. f_equal.
  cbn [scale_rows zipWith map].
  repeat (f_equal; try lra).
Qed.

Lemma example_Ni_r (fsel : option (list Z)) :
  gibbs_fsel 2 fsel = [0; 1]%Z -> Ni_r 2 [1; 1] fsel = [1; 0; 1; 0].
Proof. intros Hf. unfold Ni_r. rewrite Hf. reflexivity. Qed.

Lemma example_noise (fsel : option (list Z)) :
  gibbs_fsel 2 fsel = [0; 1]%Z ->
  gibbs_noise 2 [1; 1] fsel = Ok [1; 0; 1; 0].
Proof.
  intros Hf. unfold gibbs_noise. rewrite Hf. cbn [length Nat.eqb].
  f_equal. unfold Ni_r. rewrite Hf. reflexivity.
Qed.

(** The checks the solver makes of its arguments pass on a positive
    spectrum. *)
Lemma example_finite (fsel : option (list Z)) (S0 S1 : R) :
  gibbs_fsel 2 fsel = [0; 1]%Z -> 0 < S0 -> 0 < S1 ->
  finite_system 2 [1; 1] fsel [S0; S1] = true.
Proof.
  intros Hf H0 H1. unfold finite_system. rewrite (example_Ni_r fsel Hf).
  cbn [forallb].
  destruct (Rlt_dec 0 S0); [|contradiction].
  destruct (Rlt_dec 0 S1); [|contradiction].
  destruct (Rle_dec 0 1) as [_|H]; [|exfalso; apply H; lra].
  destruct (Rle_dec 0 0) as [_|H]; [|exfalso; apply H; lra].
  reflexivity.
Qed.

(** The Wiener system of the first iteration. *)
Lemma example_system (fsel : option (list Z)) :
  gibbs_fsel 2 fsel = [0; 1]%Z ->
  wiener_system 2 [1; 1] fsel [ [0; 0]; [0; 0]; [1; -1]; [0; 0] ]
    [ [0]; [0]; [21]; [0] ] [1 * 10; 1 * 10] (example_rng 0)
  = ([ [1 / 10 + 1; -1]; [-1; 1 / 10 + 1] ], [ [21]; [-21] ]).
Proof.
  intros Hf. unfold wiener_system, FTNiF, FTNi. rewrite (example_Ni_r fsel Hf).
  change (Z.to_nat 2) with 2%nat.
  cbn -[Rplus Rmult Rminus Rdiv Ropp Rinv sqrt IZR].
  repeat (f_equal; try lra).
Qed.


Lemma example_ps_sample :
  _draw_ps_sample example_signal (chi2 (example_rng 0)) = [0; 0].
Proof.
  unfold _draw_ps_sample, example_signal. cbn [map zipWith example_rng chi2].
  rewrite !var_single. repeat (f_equal; try lra).
Qed.

Lemma example_run (fsel : option (list Z)) :
  gibbs_fsel 2 fsel = [0; 1]%Z ->
  delay_spectrum_gibbs example_solve example_data 2 [1; 1] true fsel
    example_rng [1 * 10; 1 * 10] 1 = Ok [ [0; 0] ].
Proof.
  intros Hf. unfold delay_spectrum_gibbs.
  rewrite (example_F fsel Hf), (example_dat fsel Hf), (example_noise fsel Hf).
  cbn [bind].
  change (Z.to_nat 1) with 1%nat. cbn [gibbs_loop].
  unfold _draw_signal_sample.
  rewrite (example_finite fsel _ _ Hf) by lra.
  change (Z.to_nat 2) with 2%nat. cbn [length Nat.eqb negb].
  rewrite (example_system fsel Hf).
  unfold example_solve at 1. cbn [bind].
  now rewrite example_ps_sample.
Qed.


(** *** A run on two time samples *)

Lemma pair_dat (fsel : option (list Z)) :
  gibbs_fsel 2 fsel = [0; 1]%Z ->
  gibbs_data pair_data 2 true fsel
  = Ok [ [0; 0]; [0; 0]; [21; -21]; [0; 0] ].
Proof.
  intros Hf. unfold gibbs_data. rewrite (example_window fsel Hf).
  change ((length pair_data =? 0)%nat || (ncols pair_data =? 0)%nat)
    with false. cbv iota.
  cbn [bind].
  change (transpose (2 * ncols pair_data) (view_float64 pair_data))
    with [ [0; 0]; [0; 0]; [21; -21]; [0; 0] ].
  cbn [length Nat.eqb]. f_equal.
  cbn [scale_rows zipWith map].
  repeat (f_equal; try lra).
Qed.

Lemma pair_chi2_positive : forall k c, In c (chi2 (pair_rng k)) -> 0 < c.
Proof. intros k c [<-|[<-|[]]]; lra. Qed.

(** The Wiener system of an iteration that starts from the spectrum
    [S0, S1]. *)
Lemma pair_system (fsel : option (list Z)) (S0 S1 : R) (k : nat) :
  gibbs_fsel 2 fsel = [0; 1]%Z ->
  wiener_system 2 [1; 1] fsel [ [0; 0]; [0; 0]; [1; -1]; [0; 0] ]
    [ [0; 0]; [0; 0]; [21; -21]; [0; 0] ] [S0; S1] (pair_rng k)
  = ([ [1 / S0 + 1; -1]; [-1; 1 / S1 + 1] ], [ [21; -21]; [-21; 21] ]).
Proof.
  intros Hf. unfold wiener_system, FTNiF, FTNi. rewrite (example_Ni_r fsel Hf).
  change (Z.to_nat 2) with 2%nat.
  cbn -[Rplus Rmult Rminus Rdiv Ropp Rinv sqrt IZR].
  repeat (f_equal; try lra).
Qed.

Lemma Rdiv_neg_pos (a d : R) : a < 0 -> 0 < d -> a / d < 0.
Proof.
  intros Ha Hd. unfold Rdiv.
  pose proof (Rinv_0_lt_compat d Hd). nra.
Qed.

(** Two unequal values have a spread. *)
Lemma var_pair_positive (x y : R) : x <> y -> 0 < var [x; y].
Proof.
  intros Hxy. unfold var. cbn [length fold_right map INR].
  replace (fold_right Rplus 0 [x; y]) with (x + y) by (simpl; lra).
  cbn [fold_right map].
  replace ((x - (x + y) / (1 + 1)) * (x - (x + y) / (1 + 1))
           + ((y - (x + y) / (1 + 1)) * (y - (x + y) / (1 + 1)) + 0))
    with ((x - y) * (x - y) / 2) by field.
  assert (0 < (x - y) * (x - y)) by nra. lra.
Qed.

(** On that system Cramer's rule returns, and both rows of the solution
    change sign between the two time samples. *)
Lemma pair_solution (S0 S1 : R) :
  0 < S0 -> 0 < S1 ->
  exists x y x' y',
    solve_2x2 [ [1 / S0 + 1; -1]; [-1; 1 / S1 + 1] ]
      [ [21; -21]; [-21; 21] ] = Ok [ [x; y]; [x'; y'] ]
    /\ y < 0 < x /\ x' < 0 < y'.
Proof.
  intros H0 H1.
  assert (Hu : 0 < 1 / S0) by (apply Rdiv_lt_0_compat; lra).
  assert (Hv : 0 < 1 / S1) by (apply Rdiv_lt_0_compat; lra).
  unfold solve_2x2. cbv zeta.
  set (u := 1 / S0) in *. set (v := 1 / S1) in *.
  assert (Hdet : 0 < (u + 1) * (v + 1) - -1 * -1) by nra.
  destruct (Rlt_dec 0 (u + 1)) as [_|Hn]; [|exfalso; apply Hn; lra].
  destruct (Rlt_dec 0 ((u + 1) * (v + 1) - -1 * -1)) as [_|Hn];
    [|contradiction].
  cbn [zipWith]. do 4 eexists. split; [reflexivity|].
  repeat split.
  - apply Rdiv_neg_pos; [lra | exact Hdet].
  - apply Rdiv_lt_0_compat; [lra | exact Hdet].
  - apply Rdiv_neg_pos; [lra | exact Hdet].
  - apply Rdiv_lt_0_compat; [lra | exact Hdet].
Qed.

(** The solver keeps its side of the loop: from every positive spectrum
    it returns two rows that each have a spread. *)
Lemma pair_solver_contract (fsel : option (list Z)) (k : nat) (S : vec) :
  gibbs_fsel 2 fsel = [0; 1]%Z ->
  length S = Z.to_nat 2 -> (forall s, In s S -> 0 < s) ->
  exists d,
    solve_2x2
      (fst (wiener_system 2 [1; 1] fsel [ [0; 0]; [0; 0]; [1; -1]; [0; 0] ]
              [ [0; 0]; [0; 0]; [21; -21]; [0; 0] ] S (pair_rng k)))
      (snd (wiener_system 2 [1; 1] fsel [ [0; 0]; [0; 0]; [1; -1]; [0; 0] ]
              [ [0; 0]; [0; 0]; [21; -21]; [0; 0] ] S (pair_rng k)))
    = Ok d
    /\ length d = Z.to_nat 2
    /\ forall row, In row d -> 0 < var row.
Proof.
  intros Hf HS Hpos.
  destruct S as [|S0 [|S1 [|S2 S]]]; try discriminate.
  rewrite (pair_system fsel S0 S1 k Hf). cbn [fst snd].
  destruct (pair_solution S0 S1) as (x & y & x' & y' & -> & Hx & Hx');
    [apply Hpos; simpl; tauto | apply Hpos; simpl; tauto|].
  eexists. split; [reflexivity|]. split; [reflexivity|].
  intros row [<-|[<-|[]]]; apply var_pair_positive; lra.
Qed.

Lemma pair_Ni_r_nonneg (fsel : option (list Z)) :
  gibbs_fsel 2 fsel = [0; 1]%Z ->
  forall ni, In ni (Ni_r 2 [1; 1] fsel) -> 0 <= ni.
Proof.
  intros Hf ni. rewrite (example_Ni_r fsel Hf).
  intros [<-|[<-|[<-|[<-|[]]]]]; lra.
Qed.

(** The sampler runs to its end on the two time samples: one positive
    draw per iteration. *)
Lemma pair_run (fsel : option (list Z)) (n : Z) :
  gibbs_fsel 2 fsel = [0; 1]%Z ->
  exists spec,
    delay_spectrum_gibbs solve_2x2 pair_data 2 [1; 1] true fsel pair_rng
      [1 * 10; 1 * 10] n = Ok spec
    /\ length spec = Z.to_nat n
    /\ forall S_drawn, In S_drawn spec -> forall s, In s S_drawn -> 0 < s.
Proof.
  intros Hf. unfold delay_spectrum_gibbs.
  rewrite (example_F fsel Hf), (pair_dat fsel Hf), (example_noise fsel Hf).
  cbn [bind].
  destruct (gibbs_loop_positive solve_2x2 2 [1; 1] fsel pair_rng
              [ [0; 0]; [0; 0]; [1; -1]; [0; 0] ]
              [ [0; 0]; [0; 0]; [21; -21]; [0; 0] ] (Z.to_nat n)
              eq_refl (pair_Ni_r_nonneg fsel Hf) pair_chi2_positive
              (fun _ => eq_refl)
              (fun k S => pair_solver_contract fsel k S Hf)
              0%nat [1 * 10; 1 * 10] eq_refl) as (spec & Hspec & Hall).
  { intros s [<-|[<-|[]]]; lra. }
  exists spec. split; [exact Hspec|]. split.
  - exact (gibbs_loop_length _ _ _ _ _ _ _ _ _ _ _ Hspec).
  - intros S_drawn Hin. exact (proj2 (Hall S_drawn Hin)).
Qed.


(** ** DelaySpectrumEstimator.process *)

Lemma all_zero_ccol (j : nat) (M : cmatrix) :
  all_zero M = true -> all_zero [ccol j M] = true.
Proof.
  unfold all_zero. simpl. rewrite andb_true_r.
  induction M as [|row M IH]; simpl; [reflexivity|].
  intros H. apply andb_true_iff in H. destruct H as [Hrow HM].
  rewrite (IH HM), andb_true_r.
  destruct (Nat.lt_ge_cases j (length row)) as [Hj|Hj].
  - rewrite forallb_forall in Hrow. apply Hrow. now apply nth_In.
  - rewrite nth_overflow by assumption. unfold c0, RtoC. simpl.
    destruct (Req_dec_T 0 0); [reflexivity | contradiction].
Qed.

(** Zero data stay zero once transposed. *)
Lemma all_zero_ctranspose (m : nat) (M : cmatrix) :
  all_zero M = true -> all_zero (ctranspose m M) = true.
Proof.
  intros H. unfold ctranspose, all_zero. apply forallb_forall.
  intros row Hrow. apply in_map_iff in Hrow. destruct Hrow as (j & <- & _).
  pose proof (all_zero_ccol j M H) as Hc. unfold all_zero in Hc. simpl in Hc.
  now rewrite andb_true_r in Hc.
Qed.

Lemma nth_zeros (n m i : nat) :
  (i < n)%nat -> nth i (zeros n m) [] = repeat 0 m.
Proof.
  intros Hi. unfold zeros. rewrite nth_mk_matrix by assumption.
  generalize 0%nat. induction m as [|m IH]; intros k; simpl; [reflexivity|].
  f_equal. apply IH.
Qed.

Section EstimatorProperties.
Variable solve : matrix -> matrix -> result matrix.
Variable rng : nat -> nat -> rng_draw.
Variable self : DelaySpectrumEstimator.
Variables (sk : stokes) (channel_ind : list Z) (ndelay : Z)
          (initial_S : vec).

Let run (bis : list nat) (rows : matrix) (calls : list nat) :=
  estimate_baselines solve rng self sk channel_ind ndelay initial_S bis
    rows calls.

(** The sampler is run only on baselines of the loop whose data are not
    all zero. *)
Lemma estimate_baselines_calls (bis : list nat) :
  forall rows calls bi,
    In bi (snd (run bis rows calls)) ->
    In bi calls \/ (In bi bis /\ all_zero (baseline_data sk bi) = false).
Proof.
  unfold run.
  induction bis as [|b bis IH]; intros rows calls bi; simpl.
  - now left.
  - fold (baseline_data sk b).
    destruct (all_zero (baseline_data sk b)) eqn:Hz.
    + intros H. destruct (IH _ _ _ H) as [Hc|[Hb Hnz]]; [now left|].
      right. split; [now right | exact Hnz].
    + destruct (delay_spectrum_gibbs solve (baseline_data sk b) ndelay _
                  true (Some channel_ind) (rng b) initial_S (nsamp self))
        as [spec|e]; [destruct (py_slice_from _ spec) as [|draw draws]|];
        simpl.
      * intros Hc. apply in_app_or in Hc. destruct Hc as [Hc|[<-|[]]];
          [now left | right; split; [now left | exact Hz]].
      * intros H. destruct (IH _ _ _ H) as [Hc|[Hb Hnz]].
        -- apply in_app_or in Hc. destruct Hc as [Hc|[<-|[]]];
             [now left | right; split; [now left | exact Hz]].
        -- right. split; [now right | exact Hnz].
      * intros Hc. apply in_app_or in Hc. destruct Hc as [Hc|[<-|[]]];
          [now left | right; split; [now left | exact Hz]].
Qed.

(** The rows the loop leaves, when it ends. *)
Lemma estimate_baselines_rows (bis : list nat) :
  forall rows calls rows',
    NoDup bis ->
    fst (run bis rows calls) = Ok rows' ->
    length rows' = length rows
    /\ (forall bi, ~ In bi bis -> nth bi rows' [] = nth bi rows [])
    /\ (forall bi, In bi bis -> all_zero (baseline_data sk bi) = true ->
          nth bi rows' [] = nth bi rows [])
    /\ (forall bi, In bi bis -> (bi < length rows)%nat ->
          all_zero (baseline_data sk bi) = false ->
          exists spec,
            baseline_gibbs solve rng self sk channel_ind ndelay initial_S bi
            = Ok spec
            /\ nth bi rows' []
               = fftshift (median_axis0
                             (py_slice_from (- (nsamp self / 2)) spec))).
Proof.
  unfold run.
  induction bis as [|b bis IH]; intros rows calls rows' Hnd; simpl.
  - intros H. inversion H. subst.
    split; [reflexivity|]. split; [reflexivity|].
    split; intros bi [].
  - fold (baseline_data sk b). inversion Hnd as [|b' bis' Hnotin Hnd']; subst.
    destruct (all_zero (baseline_data sk b)) eqn:Hz.
    + intros H. destruct (IH _ _ _ Hnd' H) as (Hl & Ho & Hzr & Hnz).
      split; [exact Hl|]. split; [intros bi Hbi; apply Ho; tauto|].
      split.
      * intros bi [<-|Hbi] Hbz; [now apply Ho | now apply Hzr].
      * intros bi [<-|Hbi] Hlt Hbz; [congruence | now apply Hnz].
    + fold (baseline_gibbs solve rng self sk channel_ind ndelay initial_S b).
      destruct (baseline_gibbs solve rng self sk channel_ind ndelay
                  initial_S b) as [spec|e] eqn:Hg; simpl;
        [|discriminate].
      destruct (py_slice_from (- (nsamp self / 2)) spec)
        as [|draw draws] eqn:Hslice; simpl; [discriminate|].
      rewrite <- Hslice.
      intros H. destruct (IH _ _ _ Hnd' H) as (Hl & Ho & Hzr & Hnz).
      rewrite set_nth_length in Hl.
      assert (Hkeep : forall bi, bi <> b ->
                nth bi (set_nth b (fftshift (median_axis0
                          (py_slice_from (- (nsamp self / 2)) spec))) rows) []
                = nth bi rows []).
      { intros bi Hne. rewrite nth_set_nth.
        now rewrite (proj2 (Nat.eqb_neq bi b) Hne). }
      split; [exact Hl|]. split.
      { intros bi Hbi. rewrite Ho by tauto. apply Hkeep.
        intros ->. apply Hbi. now left. }
      split.
      * intros bi [<-|Hbi] Hbz; [congruence|].
        rewrite Hzr by assumption. apply Hkeep. intros ->. contradiction.
      * intros bi [<-|Hbi] Hlt Hbz.
        -- exists spec. split; [exact Hg|]. rewrite Ho by assumption.
           rewrite nth_set_nth, Nat.eqb_refl.
           now rewrite (proj2 (Nat.ltb_lt b (length rows)) Hlt).
        -- destruct (Hnz bi Hbi) as (spec' & Hg' & Hrow);
             [now rewrite set_nth_length | assumption|].
           exists spec'. split; [exact Hg'|]. exact Hrow.
Qed.

(** The loop ends when the sampler returns, on every baseline whose data
    are not all zero, draws of which the later half is not empty. *)
Lemma estimate_baselines_returns (bis : list nat) :
  (forall bi, In bi bis -> all_zero (baseline_data sk bi) = false ->
     exists spec,
       baseline_gibbs solve rng self sk channel_ind ndelay initial_S bi
       = Ok spec
       /\ py_slice_from (- (nsamp self / 2)) spec <> []) ->
  forall rows calls, exists rows', fst (run bis rows calls) = Ok rows'.
Proof.
  unfold run.
  induction bis as [|b bis IH]; intros Hrun rows calls; simpl.
  - now eexists.
  - fold (baseline_data sk b).
    assert (Hrest : forall bi, In bi bis ->
              all_zero (baseline_data sk bi) = false ->
              exists spec,
                baseline_gibbs solve rng self sk channel_ind ndelay
                  initial_S bi = Ok spec
                /\ py_slice_from (- (nsamp self / 2)) spec <> [])
      by (intros bi Hbi; apply Hrun; now right).
    destruct (all_zero (baseline_data sk b)) eqn:Hz; [now apply IH|].
    fold (baseline_gibbs solve rng self sk channel_ind ndelay initial_S b).
    destruct (Hrun b (or_introl eq_refl) Hz) as (spec & -> & Hne).
    destruct (py_slice_from (- (nsamp self / 2)) spec) as [|draw draws];
      [congruence|].
    now apply IH.
Qed.
End EstimatorProperties.

Lemma fftshift_length {T : Type} (l : list T) : length (fftshift l) = length l.
Proof.
  unfold fftshift. rewrite length_app, length_skipn, length_firstn.
  assert (length l / 2 <= length l)%nat
    by (apply Nat.Div0.div_le_upper_bound; lia).
  lia.
Qed.

(** For every number of samples but one, the slice the estimator takes is
    the last [floor (nsamp / 2)] draws. *)
Lemma py_slice_from_later_half {T : Type} (n : Z) (spec : list T) :
  n <> 1%Z -> length spec = Z.to_nat n ->
  py_slice_from (- (n / 2)) spec = later_half n spec.
Proof.
  intros Hn Hlen. unfold py_slice_from, later_half.
  destruct (Z_lt_le_dec n 2) as [Hsmall|Hbig].
  - assert (Hz : Z.to_nat n = 0%nat) by lia.
    rewrite Hz in Hlen. apply length_zero_iff_nil in Hlen. subst spec.
    now rewrite !skipn_nil.
  - assert (Hk : (1 <= n / 2)%Z) by (apply Z.div_le_lower_bound; lia).
    assert (Hkn : (n / 2 <= n)%Z) by (apply Z.div_le_upper_bound; lia).
    replace (- (n / 2) <? 0)%Z with true by (symmetry; apply Z.ltb_lt; lia).
    f_equal. rewrite Hlen. lia.
Qed.

(** With one sample to draw, the slice is the whole list. *)
Lemma py_slice_from_one_sample {T : Type} (spec : list T) :
  py_slice_from (- (1 / 2)) spec = spec.
Proof.
  unfold py_slice_from. change (- (1 / 2) <? 0)%Z with false. cbv iota.
  change (- (1 / 2))%Z with 0%Z.
  now rewrite Z.min_l by lia.
Qed.

(** With a sample to draw, the slice holds a draw. *)
Lemma py_slice_from_nonempty {T : Type} (n : Z) (spec : list T) :
  (1 <= n)%Z -> length spec = Z.to_nat n ->
  py_slice_from (- (n / 2)) spec <> [].
Proof.
  intros Hn Hlen Hnil. apply (f_equal (@length T)) in Hnil.
  cbn [length] in Hnil.
  destruct (Z.eq_dec n 1) as [->|Hne].
  - rewrite py_slice_from_one_sample in Hnil. lia.
  - rewrite py_slice_from_later_half in Hnil by assumption.
    unfold later_half in Hnil. rewrite length_skipn in Hnil.
    assert (1 <= n / 2)%Z by (apply Z.div_le_lower_bound; lia).
    assert (n / 2 <= n)%Z by (apply Z.div_le_upper_bound; lia).
    lia.
Qed.

Section EstimatorProcess.
Variable solve : matrix -> matrix -> result matrix.
Variable rng : nat -> nat -> rng_draw.
Variable self : DelaySpectrumEstimator.
Variables (freq : vec) (sk : stokes).

Let out := DelaySpectrumEstimator_process solve rng self freq sk.

(** The sampler is run on no baseline whose data are all zero. *)
Lemma estimator_process_calls (bi : nat) :
  In bi (snd out) -> all_zero (baseline_data sk bi) = false.
Proof.
  unfold out, DelaySpectrumEstimator_process.
  destruct (frequency_structure self freq) as [[[ci fs] nd]|e];
    [|intros []].
  destruct (fftfreq nd fs) as [fr|e]; [|intros []].
  match goal with
  | |- context [estimate_baselines ?s ?r ?sf ?k ?c ?n ?i ?b ?rw ?cl] =>
      pose proof (estimate_baselines_calls s r sf k c n i b rw cl bi) as Hc;
      destruct (estimate_baselines s r sf k c n i b rw cl) as [[rows|e] calls]
  end; simpl in *; intros Hin;
    (destruct (Hc Hin) as [[]|[_ Hnz]]; exact Hnz).
Qed.

(** What the returned container holds. *)
Lemma estimator_process_rows (ds : DelaySpectrum) :
  fst out = Ok ds ->
  exists channel_ind fs ndelay,
    frequency_structure self freq = Ok (channel_ind, fs, ndelay)
    /\ baseline ds = baselines sk
    /\ length (spectrum ds) = length (baselines sk)
    /\ forall bi, (bi < length (baselines sk))%nat ->
         (all_zero (baseline_data sk bi) = true ->
          nth bi (spectrum ds) [] = repeat 0 (length (delay ds)))
         /\ (all_zero (baseline_data sk bi) = false ->
             exists spec,
               baseline_gibbs solve rng self sk channel_ind ndelay
                 (map (fun _ => 1 * 10) (delay ds)) bi = Ok spec
               /\ nth bi (spectrum ds) []
                  = fftshift (median_axis0
                                (py_slice_from (- (nsamp self / 2)) spec))).
Proof.
  unfold out, DelaySpectrumEstimator_process.
  destruct (frequency_structure self freq) as [[[ci fs] nd]|e];
    [|discriminate].
  destruct (fftfreq nd fs) as [fr|e]; [|discriminate].
  match goal with
  | |- context [estimate_baselines ?s ?r ?sf ?k ?c ?n ?i ?b ?rw ?cl] =>
      pose proof (estimate_baselines_rows s r sf k c n i b rw cl) as Hr;
      destruct (estimate_baselines s r sf k c n i b rw cl) as [[rows|e] calls]
  end; simpl in *; [|discriminate].
  intros H. inversion H. subst ds. clear H. simpl.
  destruct (Hr rows (seq_NoDup _ _) eq_refl) as (Hl & _ & Hz & Hnz).
  rewrite zeros_length in Hl.
  exists ci, fs, nd. split; [reflexivity|]. split; [reflexivity|].
  split; [exact Hl|]. intros bi Hbi.
  assert (Hin : In bi (seq 0 (length (baselines sk))))
    by (apply in_seq; lia).
  split.
  - intros Hbz. rewrite (Hz bi Hin Hbz). now apply nth_zeros.
  - intros Hbz. apply Hnz; [exact Hin | now rewrite zeros_length | exact Hbz].
Qed.

(** The task returns whenever the frequency axis yields a delay axis and
    the sampler returns, on every baseline whose data are not all zero,
    draws of which the later half is not empty. *)
Lemma estimator_process_returns (channel_ind : list Z) (fs : R)
  (ndelay : Z) (fr : vec) :
  frequency_structure self freq = Ok (channel_ind, fs, ndelay) ->
  fftfreq ndelay fs = Ok fr ->
  (forall bi, (bi < length (baselines sk))%nat ->
     all_zero (baseline_data sk bi) = false ->
     exists spec,
       baseline_gibbs solve rng self sk channel_ind ndelay
         (map (fun _ => 1 * 10) (fftshift fr)) bi = Ok spec
       /\ py_slice_from (- (nsamp self / 2)) spec <> []) ->
  exists ds, fst out = Ok ds /\ delay ds = fftshift fr.
Proof.
  intros Hfs Hfr Hrun. unfold out, DelaySpectrumEstimator_process.
  rewrite Hfs, Hfr.
  match goal with
  | |- context [estimate_baselines ?s ?r ?sf ?k ?c ?n ?i ?b ?rw ?cl] =>
      destruct (estimate_baselines_returns s r sf k c n i b) with
        (rows := rw) (calls := cl) as [rows Hrows];
      [intros bi Hbi; apply Hrun; apply in_seq in Hbi; lia|];
      destruct (estimate_baselines s r sf k c n i b rw cl) as [[rows'|e] calls]
  end; simpl in *; [|discriminate].
  eexists. split; reflexivity.
Qed.
End EstimatorProcess.

(** [C7] In [DelaySpectrumEstimator.process], a baseline whose Stokes I
    data are zero in every channel and time sample is never handed to the
    sampler, and in the container the task returns its spectrum row is the
    zero row it was initialised to. *)
Theorem zero_baseline_skipped (solve : matrix -> matrix -> result matrix)
  (rng : nat -> nat -> rng_draw) (self : DelaySpectrumEstimator)
  (freq : vec) (sk : stokes) (bi : nat) :
  all_zero (nth bi (vis_I sk) []) = true ->
  let out := DelaySpectrumEstimator_process solve rng self freq sk in
  ~ In bi (snd out)
  /\ forall ds, fst out = Ok ds -> (bi < length (baselines sk))%nat ->
       nth bi (spectrum ds) [] = repeat 0 (length (delay ds)).
Proof.
  intros Hz out.
  assert (Hdata : all_zero (baseline_data sk bi) = true)
    by now apply all_zero_ctranspose.
  split.
  - intros Hin. apply estimator_process_calls in Hin. congruence.
  - intros ds Hds Hbi.
    destruct (estimator_process_rows solve rng self freq sk ds Hds)
      as (ci & fs & nd & _ & _ & _ & Hrows).
    now apply (proj1 (Hrows bi Hbi)).
Qed.

Lemma example_zero_baseline :
  all_zero (nth 1 (vis_I example_stokes) []) = true.
Proof.
  unfold all_zero. simpl.
  destruct (Req_dec_T 0 0); [reflexivity | contradiction].
Qed.

Lemma trunc_IZR (z : Z) : (0 <= z)%Z -> trunc (IZR z) = z.
Proof.
  intros Hz. unfold trunc.
  destruct (Rle_dec 0 (IZR z)) as [_|Hn].
  - symmetry. apply Int_part_spec. lra.
  - exfalso. apply Hn. now apply IZR_le.
Qed.

Lemma example_frequency_structure (n : Z) :
  frequency_structure (example_estimator n) [0; 1]
  = Ok ([0; 1]%Z, 1, 2%Z).
Proof.
  unfold frequency_structure. simpl.
  replace (Rabs (0 - 0) / 1) with (IZR 0)
    by (rewrite Rminus_diag, Rabs_R0; lra).
  replace (Rabs (1 - 0) / 1) with (IZR 1)
    by (rewrite Rminus_0_r, Rabs_R1; lra).
  now rewrite !trunc_IZR by lia.
Qed.

Lemma example_fftfreq :
  fftfreq 2 1 = Ok [0 * (1 / (2 * 1)); -1 * (1 / (2 * 1))].
Proof.
  unfold fftfreq. destruct (Req_dec_T (2 * 1) 0) as [H|_]; [lra|].
  reflexivity.
Qed.

Lemma pair_weight : median_axis1 [ [1; 1]; [1; 1] ] = [1; 1].
Proof.
  unfold median_axis1, median, sort. cbn [map fold_right insert_sorted].
  destruct (Rle_dec 1 1) as [_|H]; [|exfalso; apply H; lra].
  cbn [length Nat.even]. change (2 / 2)%nat with 1%nat. cbn [Nat.sub nth].
  repeat (f_equal; try lra).
Qed.

Lemma pair_zero_baseline :
  all_zero (nth 1 (vis_I pair_stokes) []) = true.
Proof.
  unfold all_zero. simpl.
  destruct (Req_dec_T 0 0); [reflexivity | contradiction].
Qed.

Lemma pair_nonzero_baseline :
  all_zero (baseline_data pair_stokes 0) = false.
Proof.
  unfold all_zero. simpl.
  destruct (Req_dec_T 0 0) as [_|H]; [|contradiction].
  destruct (Req_dec_T 21 0) as [H|_]; [lra | reflexivity].
Qed.

(** On the two time samples the sampler returns its draws on the one
    baseline with data. *)
Lemma pair_baseline_runs (n : Z) :
  (1 <= n)%Z ->
  forall bi, (bi < length (baselines pair_stokes))%nat ->
    all_zero (baseline_data pair_stokes bi) = false ->
    exists spec,
      baseline_gibbs solve_2x2 (fun _ => pair_rng) (example_estimator n)
        pair_stokes [0; 1]%Z 2
        (map (fun _ => 1 * 10)
           (fftshift [0 * (1 / (2 * 1)); -1 * (1 / (2 * 1))])) bi
      = Ok spec
      /\ py_slice_from (- (nsamp (example_estimator n) / 2)) spec <> [].
Proof.
  intros Hn [|[|bi]] Hbi Hnz.
  - unfold baseline_gibbs.
    change (baseline_data pair_stokes 0) with pair_data.
    change (nth 0 (vis_weight pair_stokes) []) with [ [1; 1]; [1; 1] ].
    rewrite pair_weight.
    destruct (pair_run (Some [0; 1]%Z) n eq_refl) as (spec & Hs & Hl & _).
    exists spec. split; [exact Hs|]. now apply py_slice_from_nonempty.
  - pose proof (all_zero_ctranspose
                  (ncols (nth 1 (vis_I pair_stokes) [])) _ pair_zero_baseline)
      as Hz.
    unfold baseline_data in Hnz. congruence.
  - simpl in Hbi. lia.
Qed.

Lemma pair_process_returns (n : Z) :
  (1 <= n)%Z ->
  exists ds,
    fst (DelaySpectrumEstimator_process solve_2x2 (fun _ => pair_rng)
           (example_estimator n) [0; 1] pair_stokes) = Ok ds
    /\ delay ds = fftshift [0 * (1 / (2 * 1)); -1 * (1 / (2 * 1))].
Proof.
  intros Hn.
  exact (estimator_process_returns solve_2x2 (fun _ => pair_rng)
           (example_estimator n) [0; 1] pair_stokes _ _ _ _
           (example_frequency_structure n) example_fftfreq
           (pair_baseline_runs n Hn)).
Qed.

Lemma zero_baseline_skipped_witness :
  exists ds,
    fst (DelaySpectrumEstimator_process solve_2x2 (fun _ => pair_rng)
           (example_estimator 20) [0; 1] pair_stokes) = Ok ds
    /\ nth 1 (spectrum ds) [] = repeat 0 (length (delay ds)).
Proof.
  destruct (pair_process_returns 20 ltac:(lia)) as [ds [Hds _]].
  exists ds. split; [exact Hds|].
  apply (proj2 (zero_baseline_skipped solve_2x2 (fun _ => pair_rng)
                  (example_estimator 20) [0; 1] pair_stokes 1
                  pair_zero_baseline) ds Hds).
  simpl. lia.
Defined.

(** [C8], as the code has it: with two samples to draw or more, in the
    container [DelaySpectrumEstimator.process] returns, the row of a
    baseline with non-zero data is the zero-centred reordering of the
    per-delay-bin median over the last [floor (nsamp / 2)] of the [nsamp]
    draws of its sampler run, which are at least one draw; and the sampler
    returns exactly one draw per iteration. *)
Theorem estimator_takes_later_half
  (solve : matrix -> matrix -> result matrix)
  (rng : nat -> nat -> rng_draw) (self : DelaySpectrumEstimator)
  (freq : vec) (sk : stokes) (bi : nat) :
  (2 <= nsamp self)%Z ->
  all_zero (baseline_data sk bi) = false ->
  (bi < length (baselines sk))%nat ->
  (forall ds,
     fst (DelaySpectrumEstimator_process solve rng self freq sk) = Ok ds ->
     exists channel_ind fs ndelay spec,
       frequency_structure self freq = Ok (channel_ind, fs, ndelay)
       /\ baseline_gibbs solve rng self sk channel_ind ndelay
            (map (fun _ => 1 * 10) (delay ds)) bi = Ok spec
       /\ length spec = Z.to_nat (nsamp self)
       /\ length (later_half (nsamp self) spec)
          = Z.to_nat (nsamp self / 2)
       /\ (0 < Z.to_nat (nsamp self / 2))%nat
       /\ nth bi (spectrum ds) []
          = fftshift (median_axis0 (later_half (nsamp self) spec)))
  /\ forall data N Ni window fsel rng0 initial_S niter spec,
       delay_spectrum_gibbs solve data N Ni window fsel rng0 initial_S niter
       = Ok spec ->
       length spec = Z.to_nat niter.
Proof.
  intros Hn Hnz Hbi. split.
  - intros ds Hds.
    destruct (estimator_process_rows solve rng self freq sk ds Hds)
      as (ci & fs & nd & Hfs & _ & _ & Hrows).
    destruct (proj2 (Hrows bi Hbi) Hnz) as (spec & Hg & Hrow).
    assert (Hlen : length spec = Z.to_nat (nsamp self)).
    { unfold baseline_gibbs in Hg.
      now apply delay_spectrum_gibbs_length in Hg. }
    assert (Hhalf : (1 <= nsamp self / 2)%Z)
      by (apply Z.div_le_lower_bound; lia).
    assert (Hle : (nsamp self / 2 <= nsamp self)%Z)
      by (apply Z.div_le_upper_bound; lia).
    exists ci, fs, nd, spec. repeat split; try assumption.
    + unfold later_half. rewrite length_skipn. lia.
    + lia.
    + rewrite <- py_slice_from_later_half by (assumption || lia).
      exact Hrow.
  - intros data N Ni window fsel rng0 initial_S niter spec.
    apply delay_spectrum_gibbs_length.
Qed.

Lemma example_nonzero_baseline :
  all_zero (baseline_data example_stokes 0) = false.
Proof.
  unfold all_zero. simpl.
  destruct (Req_dec_T 0 0) as [_|H]; [|contradiction].
  destruct (Req_dec_T 21 0) as [H|_]; [lra | reflexivity].
Qed.

Lemma estimator_takes_later_half_witness :
  exists ds channel_ind fs ndelay spec,
    fst (DelaySpectrumEstimator_process solve_2x2 (fun _ => pair_rng)
           (example_estimator 20) [0; 1] pair_stokes) = Ok ds
    /\ frequency_structure (example_estimator 20) [0; 1]
       = Ok (channel_ind, fs, ndelay)
    /\ baseline_gibbs solve_2x2 (fun _ => pair_rng)
         (example_estimator 20) pair_stokes channel_ind ndelay
         (map (fun _ => 1 * 10) (delay ds)) 0 = Ok spec
    /\ length spec = Z.to_nat 20
    /\ length (later_half 20 spec) = Z.to_nat (20 / 2)
    /\ (0 < Z.to_nat (20 / 2))%nat
    /\ nth 0 (spectrum ds) []
       = fftshift (median_axis0 (later_half 20 spec)).
Proof.
  assert (Hn : (2 <= nsamp (example_estimator 20))%Z) by (simpl; lia).
  assert (Hb : (0 < length (baselines pair_stokes))%nat) by (simpl; lia).
  destruct (pair_process_returns 20 ltac:(lia)) as [ds [Hds _]].
  destruct (proj1 (estimator_takes_later_half solve_2x2
                     (fun _ => pair_rng) (example_estimator 20) [0; 1]
                     pair_stokes 0 Hn pair_nonzero_baseline Hb) ds Hds)
    as (ci & fs & nd & spec & H).
  exists ds, ci, fs, nd, spec. split; [exact Hds | exact H].
Defined.

(** [C8], as stated, fails: with one sample to draw, the row stored for a
    baseline with non-zero data is computed from the whole list of draws
    (the one draw), not from its last [floor (1 / 2) = 0] draws. *)
Lemma estimator_one_sample_takes_all :
  exists ds,
    fst (DelaySpectrumEstimator_process example_solve (fun _ => example_rng)
           (example_estimator 1) [0; 1] example_stokes) = Ok ds
    /\ baseline_gibbs example_solve (fun _ => example_rng)
         (example_estimator 1) example_stokes [0; 1]%Z 2
         (map (fun _ => 1 * 10) (delay ds)) 0 = Ok [ [0; 0] ]
    /\ nth 0 (spectrum ds) [] = fftshift (median_axis0 [ [0; 0] ])
    /\ later_half 1 [ [0; 0] ] = []
    /\ nth 0 (spectrum ds) []
       <> fftshift (median_axis0 (later_half 1 [ [0; 0] ])).
Proof.
  assert (Hone : baseline_gibbs example_solve (fun _ => example_rng)
                   (example_estimator 1) example_stokes [0; 1]%Z 2
                   (map (fun _ => 1 * 10)
                      (fftshift [0 * (1 / (2 * 1)); -1 * (1 / (2 * 1))])) 0
                 = Ok [ [0; 0] ]).
  { unfold baseline_gibbs.
    change (baseline_data example_stokes 0) with example_data.
    change (median_axis1 (nth 0 (vis_weight example_stokes) [])) with [1; 1].
    change (nsamp (example_estimator 1)) with 1%Z.
    now apply example_run. }
  destruct (estimator_process_returns example_solve (fun _ => example_rng)
              (example_estimator 1) [0; 1] example_stokes _ _ _ _
              (example_frequency_structure 1) example_fftfreq)
    as [ds [Hds Hdelay]].
  { intros [|[|bi]] Hbi Hnz.
    - exists [ [0; 0] ]. split; [exact Hone|].
      change (nsamp (example_estimator 1)) with 1%Z.
      rewrite py_slice_from_one_sample. discriminate.
    - pose proof (all_zero_ctranspose
                    (ncols (nth 1 (vis_I example_stokes) [])) _
                    example_zero_baseline) as Hz.
      unfold baseline_data in Hnz. congruence.
    - simpl in Hbi. lia. }
  exists ds. split; [exact Hds|].
  destruct (estimator_process_rows example_solve (fun _ => example_rng)
              (example_estimator 1) [0; 1] example_stokes ds Hds)
    as (ci & fs & nd & Hfs & _ & _ & Hrows).
  rewrite example_frequency_structure in Hfs. inversion Hfs. subst ci fs nd.
  destruct (proj2 (Hrows 0%nat ltac:(simpl; lia)) example_nonzero_baseline)
    as (spec & Hg & Hrow).
  assert (Hrun : baseline_gibbs example_solve (fun _ => example_rng)
                   (example_estimator 1) example_stokes [0; 1]%Z 2
                   (map (fun _ => 1 * 10) (delay ds)) 0 = Ok [ [0; 0] ]).
  { rewrite Hdelay. unfold baseline_gibbs.
    change (baseline_data example_stokes 0) with example_data.
    change (median_axis1 (nth 0 (vis_weight example_stokes) [])) with [1; 1].
    change (nsamp (example_estimator 1)) with 1%Z.
    now apply example_run. }
  rewrite Hrun in Hg. inversion Hg. subst spec.
  change (nsamp (example_estimator 1)) with 1%Z in Hrow.
  rewrite py_slice_from_one_sample in Hrow.
  split; [exact Hrun|]. split; [exact Hrow|]. split; [reflexivity|].
  rewrite Hrow. discriminate.
Qed.

(** ** Complex arithmetic *)

Lemma complex_eq (a b : complex) : fst a = fst b -> snd a = snd b -> a = b.
Proof. destruct a, b. simpl. now intros -> ->. Qed.

Ltac complex_ring_step :=
  intros; apply complex_eq; simpl; ring.

Lemma complex_ring_theory :
  ring_theory c0 c1 cadd cmul csub copp (@eq complex).
Proof.
  constructor; unfold c0, c1, RtoC, cadd, cmul, csub, copp;
    complex_ring_step.
Qed.

Add Ring complex_ring : complex_ring_theory.

Lemma cconj_c0 : cconj c0 = c0.
Proof. apply complex_eq; simpl; ring. Qed.

Lemma cmul_RtoC_0_r (a : complex) : cmul a (RtoC 0) = c0.
Proof. apply complex_eq; simpl; ring. Qed.

Lemma cmul_RtoC_0_l (a : complex) : cmul (RtoC 0) a = c0.
Proof. apply complex_eq; simpl; ring. Qed.

(** ** Finite sums of complex numbers *)

Lemma csum_0 (f : nat -> complex) : csum f 0 = c0.
Proof. reflexivity. Qed.

Lemma csum_S_l (f : nat -> complex) (n : nat) :
  csum f (S n) = cadd (f 0%nat) (csum (fun k => f (S k)) n).
Proof.
  unfold csum. simpl. f_equal. now rewrite <- seq_shift, map_map.
Qed.

Lemma csum_S_r (f : nat -> complex) (n : nat) :
  csum f (S n) = cadd (csum f n) (f n).
Proof.
  revert f. induction n as [|n IH]; intros f.
  - unfold csum. simpl. ring.
  - rewrite csum_S_l, IH, (csum_S_l f n). ring.
Qed.

Lemma csum_ext (f g : nat -> complex) (n : nat) :
  (forall k, (k < n)%nat -> f k = g k) -> csum f n = csum g n.
Proof.
  intros H. unfold csum. f_equal. apply map_ext_in.
  intros k Hk. apply in_seq in Hk. apply H. lia.
Qed.

Lemma csum_zero (f : nat -> complex) (n : nat) :
  (forall k, (k < n)%nat -> f k = c0) -> csum f n = c0.
Proof.
  induction n as [|n IH]; intros H; [reflexivity|].
  rewrite csum_S_r, IH by (intros k Hk; apply H; lia).
  rewrite (H n) by lia. ring.
Qed.

Lemma csum_add (f g : nat -> complex) (n : nat) :
  csum (fun k => cadd (f k) (g k)) n = cadd (csum f n) (csum g n).
Proof.
  induction n as [|n IH]; [rewrite !csum_0; ring|].
  rewrite !csum_S_r, IH. ring.
Qed.

Lemma csum_sub (f g : nat -> complex) (n : nat) :
  csum (fun k => csub (f k) (g k)) n = csub (csum f n) (csum g n).
Proof.
  induction n as [|n IH]; [rewrite !csum_0; ring|].
  rewrite !csum_S_r, IH. ring.
Qed.

Lemma csum_scale_l (c : complex) (f : nat -> complex) (n : nat) :
  csum (fun k => cmul c (f k)) n = cmul c (csum f n).
Proof.
  induction n as [|n IH]; [rewrite !csum_0; ring|].
  rewrite !csum_S_r, IH. ring.
Qed.

Lemma csum_scale_r (c : complex) (f : nat -> complex) (n : nat) :
  csum (fun k => cmul (f k) c) n = cmul (csum f n) c.
Proof.
  induction n as [|n IH]; [rewrite !csum_0; ring|].
  rewrite !csum_S_r, IH. ring.
Qed.

Lemma csum_exchange (f : nat -> nat -> complex) (n m : nat) :
  csum (fun i => csum (fun j => f i j) m) n =
  csum (fun j => csum (fun i => f i j) n) m.
Proof.
  induction n as [|n IH].
  - rewrite csum_0. symmetry. apply csum_zero. intros j _. apply csum_0.
  - rewrite csum_S_r, IH, <- csum_add. apply csum_ext.
    intros j _. now rewrite csum_S_r.
Qed.

Lemma csum_delta_l (x : nat -> complex) (i n : nat) :
  (i < n)%nat -> csum (fun j => cmul (cdelta i j) (x j)) n = x i.
Proof.
  unfold cdelta.
  induction n as [|n IH]; intros Hi; [lia|].
  rewrite csum_S_r. destruct (Nat.eq_dec i n) as [->|Hne].
  - rewrite Nat.eqb_refl. rewrite csum_zero; [ring|].
    intros k Hk. rewrite (proj2 (Nat.eqb_neq n k)) by lia. ring.
  - rewrite IH by lia. rewrite (proj2 (Nat.eqb_neq i n) Hne). ring.
Qed.

Lemma csum_delta_r (x : nat -> complex) (j n : nat) :
  (j < n)%nat -> csum (fun i => cmul (x i) (cdelta i j)) n = x j.
Proof.
  intros Hj. rewrite <- (csum_delta_l x j n Hj).
  apply csum_ext. intros i _. unfold cdelta. rewrite (Nat.eqb_sym i j). ring.
Qed.

(** ** Counting the removed modes *)

Lemma fold_left_Rmax_spec (l : vec) :
  forall a,
    a <= fold_left Rmax l a
    /\ (forall s, In s l -> s <= fold_left Rmax l a)
    /\ (fold_left Rmax l a = a \/ In (fold_left Rmax l a) l).
Proof.
  induction l as [|x l IH]; intros a; simpl.
  - split; [lra|]. split; [intros s []|now left].
  - destruct (IH (Rmax a x)) as (Hge & Hall & Hin).
    pose proof (Rmax_l a x). pose proof (Rmax_r a x).
    split; [lra|]. split.
    + intros s [<-|Hs]; [lra | now apply Hall].
    + destruct Hin as [Heq|Hin]; [|right; now right].
      rewrite Heq. unfold Rmax. destruct (Rle_dec a x); [right|]; now left.
Qed.

(** [sig.max()] is an entry of [sig] that bounds every entry. *)
Lemma vmax_spec (sig : vec) (smax : R) :
  vmax sig = Ok smax -> In smax sig /\ forall s, In s sig -> s <= smax.
Proof.
  destruct sig as [|x sig]; simpl; [discriminate|].
  intros H. inversion H. subst smax. clear H.
  destruct (fold_left_Rmax_spec sig x) as (Hge & Hall & Hin).
  split.
  - destruct Hin as [->|Hin]; [now left | now right].
  - intros s [<-|Hs]; [exact Hge | now apply Hall].
Qed.

Lemma count_gt_pos (thr : R) (sig : vec) (s : R) :
  In s sig -> thr < s -> (1 <= count_gt thr sig)%nat.
Proof.
  intros Hin Hs. unfold count_gt.
  assert (Hf : In s (filter (fun s => if Rlt_dec thr s then true else false)
                       sig)).
  { apply filter_In. split; [exact Hin|].
    destruct (Rlt_dec thr s); [reflexivity | contradiction]. }
  destruct (filter _ sig); [destruct Hf | simpl; lia].
Qed.

Lemma count_gt_le_length (thr : R) (sig : vec) :
  (count_gt thr sig <= length sig)%nat.
Proof. unfold count_gt. apply filter_length_le. Qed.

(** Below a tolerance of one, the largest of non-negative singular values
    that are not all zero passes the test. *)
Lemma removed_modes_pos (tol : R) (sig : vec) :
  tol < 1 -> (forall s, In s sig -> 0 <= s) ->
  (exists s, In s sig /\ s <> 0) ->
  exists k, removed_modes tol sig = Ok k /\ (1 <= k)%nat.
Proof.
  intros Htol Hnn (s & Hs & Hs0). unfold removed_modes.
  destruct (vmax_nonempty sig) as [smax Hmax];
    [intros ->; destruct Hs|].
  rewrite Hmax. cbn [bind]. eexists. split; [reflexivity|].
  destruct (vmax_spec sig smax Hmax) as [Hin Hle].
  assert (0 < smax).
  { specialize (Hle s Hs). specialize (Hnn s Hs). lra. }
  apply (count_gt_pos _ _ smax Hin). nra.
Qed.

Lemma removed_modes_zero (tol : R) (sig : vec) :
  tol < 1 -> (forall s, In s sig -> 0 <= s) ->
  removed_modes tol sig = Ok 0%nat ->
  forall s, In s sig -> s = 0.
Proof.
  intros Htol Hnn Hrm s Hs.
  destruct (Req_dec_T s 0) as [H0|Hne]; [exact H0|].
  destruct (removed_modes_pos tol sig Htol Hnn) as (k & Hk & Hk1);
    [now exists s|].
  rewrite Hrm in Hk. inversion Hk. lia.
Qed.

(** [C9] In [null_delay_filter], with a tolerance below one: as soon as the
    decomposition of the windowed and masked design matrix has a non-zero
    singular value, at least one mode is removed; and when no mode is
    removed the design matrix is zero in every entry. *)
Theorem removed_modes_at_least_one (tol : R) (n m : nat) (F : cmatrix)
  (usv : svd_result) :
  tol < 1 -> is_svd n m F usv ->
  ((exists s, In s (svd_sig usv) /\ s <> 0) ->
   exists k, removed_modes tol (svd_sig usv) = Ok k /\ (1 <= k)%nat)
  /\ (removed_modes tol (svd_sig usv) = Ok 0%nat ->
      forall i j, (i < n)%nat -> (j < m)%nat -> cget F i j = c0).
Proof.
  intros Htol (Hlen & Hnn & _ & _ & _ & HF). split.
  - now apply removed_modes_pos.
  - intros Hrm i j Hi Hj. rewrite (HF i j Hi Hj).
    apply csum_zero. intros l Hl.
    assert (Hz : nth l (svd_sig usv) 0 = 0).
    { apply (removed_modes_zero tol (svd_sig usv) Htol Hnn Hrm).
      apply nth_In. now rewrite Hlen. }
    rewrite Hz. unfold RtoC. apply complex_eq; simpl; ring.
Qed.

(** ** Complex matrices *)

Lemma cget_mk_matrix (n m : nat) (f : nat -> nat -> complex) (i j : nat) :
  (i < n)%nat -> (j < m)%nat -> cget (mk_matrix n m f) i j = f i j.
Proof.
  intros Hi Hj. unfold cget. rewrite nth_mk_matrix by assumption.
  rewrite (nth_indep _ c0 (f i 0%nat)) by now rewrite length_map, length_seq.
  rewrite (map_nth (f i) (seq 0 m) 0%nat j). now rewrite seq_nth.
Qed.

Lemma mk_matrix_row_length {T : Type} (n m : nat) (f : nat -> nat -> T)
  (i : nat) :
  (i < n)%nat -> length (nth i (mk_matrix n m f) []) = m.
Proof.
  intros Hi. rewrite nth_mk_matrix by assumption.
  now rewrite length_map, length_seq.
Qed.

Lemma cdot_csum (u : list complex) :
  forall v,
    cdot u v = csum (fun c => cmul (nth c u c0) (nth c v c0))
                 (Nat.min (length u) (length v)).
Proof.
  induction u as [|a u IH]; intros [|b v]; try reflexivity.
  simpl length. simpl Nat.min. rewrite csum_S_l. unfold cdot in *. simpl.
  f_equal. apply IH.
Qed.

Lemma nth_ccol (j c : nat) (B : cmatrix) : nth c (ccol j B) c0 = cget B c j.
Proof.
  unfold ccol, cget.
  destruct (Nat.lt_ge_cases c (length B)) as [Hc|Hc].
  - rewrite (nth_indep _ c0 (nth j [] c0)) by now rewrite length_map.
    now rewrite (map_nth (fun row => nth j row c0) B [] c).
  - rewrite (nth_overflow (map _ B)) by now rewrite length_map.
    rewrite (nth_overflow B) by assumption. now destruct j.
Qed.

Lemma ccol_length (j : nat) (B : cmatrix) : length (ccol j B) = length B.
Proof. apply length_map. Qed.

Lemma cmat_mul_length (m : nat) (A B : cmatrix) :
  length (cmat_mul m A B) = length A.
Proof. unfold cmat_mul. now rewrite length_map. Qed.

Lemma nth_cmat_mul (m : nat) (A B : cmatrix) (i : nat) :
  (i < length A)%nat ->
  nth i (cmat_mul m A B) []
  = map (fun j => cdot (nth i A []) (ccol j B)) (seq 0 m).
Proof.
  intros Hi. unfold cmat_mul.
  rewrite (nth_indep _ [] (map (fun j => cdot [] (ccol j B)) (seq 0 m)))
    by now rewrite length_map.
  now rewrite (map_nth (fun row => map (fun j => cdot row (ccol j B))
                                     (seq 0 m)) A [] i).
Qed.

Lemma cget_cmat_mul (m : nat) (A B : cmatrix) (i j : nat) :
  (i < length A)%nat -> (j < m)%nat ->
  cget (cmat_mul m A B) i j
  = csum (fun c => cmul (cget A i c) (cget B c j))
      (Nat.min (length (nth i A [])) (length B)).
Proof.
  intros Hi Hj. unfold cget at 1. rewrite nth_cmat_mul by assumption.
  rewrite (nth_indep _ c0 (cdot (nth i A []) (ccol 0 B)))
    by now rewrite length_map, length_seq.
  rewrite (map_nth (fun j => cdot (nth i A []) (ccol j B)) (seq 0 m) 0%nat j).
  rewrite seq_nth by assumption. simpl.
  rewrite cdot_csum, ccol_length.
  apply csum_ext. intros c _. now rewrite nth_ccol.
Qed.

(** Two tables of the same shape with the same entries are equal. *)
Lemma cmatrix_ext (n m : nat) (A B : cmatrix) :
  length A = n -> length B = n ->
  (forall i, (i < n)%nat -> length (nth i A []) = m) ->
  (forall i, (i < n)%nat -> length (nth i B []) = m) ->
  (forall i j, (i < n)%nat -> (j < m)%nat -> cget A i j = cget B i j) ->
  A = B.
Proof.
  intros HA HB HrA HrB Hent.
  apply (nth_ext A B [] []); [congruence|].
  intros i Hi. rewrite HA in Hi.
  apply (nth_ext _ _ c0 c0); [rewrite HrA, HrB; auto|].
  intros j Hj. rewrite HrA in Hj by assumption. now apply Hent.
Qed.

Lemma nth_firstn {T : Type} (r k : nat) (l : list T) (d : T) :
  nth k (firstn r l) d = if (k <? r)%nat then nth k l d else d.
Proof.
  revert k l. induction r as [|r IH]; intros k l.
  - simpl. now destruct k.
  - destruct l as [|a l]; simpl.
    + destruct k; now destruct (_ <? _)%nat.
    + destruct k as [|k]; [reflexivity|]. rewrite IH.
      now change (S k <? S r)%nat with (k <? r)%nat.
Qed.

Lemma cget_firstn (r : nat) (u : cmatrix) (i k : nat) :
  cget (map (firstn r) u) i k = if (k <? r)%nat then cget u i k else c0.
Proof.
  unfold cget.
  replace (nth i (map (firstn r) u) []) with (firstn r (nth i u [])).
  - apply nth_firstn.
  - destruct (Nat.lt_ge_cases i (length u)) as [Hi|Hi].
    + rewrite (nth_indep (map _ u) [] (firstn r [])) by now rewrite length_map.
      now rewrite (map_nth (firstn r) u [] i).
    + rewrite (nth_overflow (map _ u)) by now rewrite length_map.
      rewrite (nth_overflow u) by assumption. apply firstn_nil.
Qed.

Lemma cget_conj_transpose (m : nat) (M : cmatrix) (k j : nat) :
  (k < m)%nat -> cget (conj_transpose m M) k j = cconj (cget M j k).
Proof.
  intros Hk. unfold cget at 1, conj_transpose.
  rewrite (nth_indep _ [] (map cconj (ccol 0 M)))
    by now rewrite length_map, length_seq.
  rewrite (map_nth (fun j => map cconj (ccol j M)) (seq 0 m) 0%nat k).
  rewrite seq_nth by assumption. simpl.
  rewrite <- cconj_c0 at 1. rewrite (map_nth cconj). now rewrite nth_ccol.
Qed.

Lemma conj_transpose_length (m : nat) (M : cmatrix) :
  length (conj_transpose m M) = m.
Proof. unfold conj_transpose. now rewrite length_map, length_seq. Qed.

(** ** The projector off the removed modes *)

Section Projector.
Variables (n : nat) (u : cmatrix) (nmodes : nat).
Hypothesis Hu : unitary n u.

Let r := Nat.min nmodes n.

Lemma pph_entry (i j : nat) :
  (i < n)%nat -> (j < n)%nat ->
  cget (cmat_mul n (map (firstn nmodes) u)
          (conj_transpose nmodes (map (firstn nmodes) u))) i j
  = gram u r i j.
Proof.
  intros Hi Hj. destruct Hu as (Hlen & Hrow & _).
  rewrite cget_cmat_mul by (rewrite ?length_map; lia).
  replace (nth i (map (firstn nmodes) u) [])
    with (firstn nmodes (nth i u [])).
  2:{ rewrite (nth_indep (map _ u) [] (firstn nmodes []))
        by (rewrite length_map; lia).
      now rewrite (map_nth (firstn nmodes) u [] i). }
  rewrite length_firstn, Hrow by assumption.
  rewrite conj_transpose_length.
  replace (Nat.min (Nat.min nmodes n) nmodes) with r by (unfold r; lia).
  unfold gram. apply csum_ext. intros k Hk.
  assert (Hkm : (k < nmodes)%nat) by (unfold r in Hk; lia).
  rewrite cget_conj_transpose by assumption.
  rewrite !cget_firstn. now rewrite (proj2 (Nat.ltb_lt k nmodes) Hkm).
Qed.

Lemma null_projector_length : length (null_projector n nmodes u) = n.
Proof.
  destruct Hu as (Hlen & _). unfold null_projector, cmat_sub, cidentity.
  rewrite zipWith_length, mk_matrix_length, cmat_mul_length, length_map.
  lia.
Qed.

Lemma null_projector_row (i : nat) :
  (i < n)%nat ->
  nth i (null_projector n nmodes u) []
  = zipWith csub (nth i (cidentity n) [])
      (nth i (cmat_mul n (map (firstn nmodes) u)
                (conj_transpose nmodes (map (firstn nmodes) u))) []).
Proof.
  intros Hi. destruct Hu as (Hlen & _). unfold null_projector, cmat_sub.
  apply (nth_zipWith (zipWith csub) [] [] []).
  - unfold cidentity. now rewrite mk_matrix_length.
  - rewrite cmat_mul_length, length_map. lia.
Qed.

Lemma null_projector_row_length (i : nat) :
  (i < n)%nat -> length (nth i (null_projector n nmodes u) []) = n.
Proof.
  intros Hi. destruct Hu as (Hlen & _).
  rewrite null_projector_row by assumption.
  rewrite zipWith_length. unfold cidentity.
  rewrite mk_matrix_row_length by assumption.
  rewrite nth_cmat_mul by (rewrite length_map; lia).
  rewrite length_map, length_seq. lia.
Qed.

Lemma null_projector_entry (i j : nat) :
  (i < n)%nat -> (j < n)%nat ->
  cget (null_projector n nmodes u) i j
  = csub (cdelta i j) (gram u r i j).
Proof.
  intros Hi Hj. destruct Hu as (Hlen & _).
  unfold cget at 1. rewrite null_projector_row by assumption.
  rewrite (nth_zipWith csub c0 c0 c0).
  - fold (cget (cidentity n) i j).
    fold (cget (cmat_mul n (map (firstn nmodes) u)
                  (conj_transpose nmodes (map (firstn nmodes) u))) i j).
    rewrite pph_entry by assumption. unfold cidentity.
    now rewrite cget_mk_matrix.
  - unfold cidentity. now rewrite mk_matrix_row_length.
  - rewrite nth_cmat_mul by (rewrite length_map; lia).
    now rewrite length_map, length_seq.
Qed.

(** The Gram matrix of orthonormal columns is idempotent. *)
Lemma gram_idempotent (i j : nat) :
  csum (fun l => cmul (gram u r i l) (gram u r l j)) n = gram u r i j.
Proof.
  destruct Hu as (_ & _ & Horth). unfold gram.
  rewrite (csum_ext _
    (fun l => csum (fun k => csum (fun k' =>
       cmul (cmul (cget u i k) (cconj (cget u j k')))
            (cmul (cconj (cget u l k)) (cget u l k'))) r) r)).
  2:{ intros l _. rewrite <- csum_scale_r. apply csum_ext. intros k _.
      rewrite <- csum_scale_l. apply csum_ext. intros k' _. ring. }
  rewrite csum_exchange. apply csum_ext. intros k Hk.
  rewrite csum_exchange.
  rewrite (csum_ext _
    (fun k' => cmul (cdelta k k')
                 (cmul (cget u i k) (cconj (cget u j k'))))).
  - rewrite csum_delta_l by assumption. reflexivity.
  - intros k' Hk'. rewrite csum_scale_l.
    rewrite Horth by (unfold r in *; lia). ring.
Qed.

(** Without the window, the filter matrix times itself is itself. *)
Lemma null_projector_idempotent :
  cmat_mul n (null_projector n nmodes u) (null_projector n nmodes u)
  = null_projector n nmodes u.
Proof.
  apply (cmatrix_ext n n).
  - now rewrite cmat_mul_length, null_projector_length.
  - apply null_projector_length.
  - intros i Hi. rewrite nth_cmat_mul by now rewrite null_projector_length.
    now rewrite length_map, length_seq.
  - apply null_projector_row_length.
  - intros i j Hi Hj.
    rewrite cget_cmat_mul by (rewrite ?null_projector_length; assumption).
    rewrite null_projector_row_length, null_projector_length by assumption.
    rewrite Nat.min_id.
    rewrite (csum_ext _
      (fun l => cadd (csub (csub (cmul (cdelta i l) (cdelta l j))
                                 (cmul (cdelta i l) (gram u r l j)))
                           (cmul (gram u r i l) (cdelta l j)))
                     (cmul (gram u r i l) (gram u r l j)))).
    2:{ intros l Hl. rewrite !null_projector_entry by assumption. ring. }
    rewrite csum_add, !csum_sub, gram_idempotent.
    rewrite !csum_delta_l, csum_delta_r by assumption.
    rewrite null_projector_entry by assumption. ring.
Qed.
End Projector.

(** [C2], as the code has it: without the window, whenever the
    decomposition handed back is a singular value decomposition of the
    design matrix, the matrix [null_delay_filter] returns is idempotent,
    [proj . proj = proj]; and it is returned for every non-empty frequency
    axis and positive number of delays. *)
Theorem null_delay_filter_unwindowed_idempotent
  (svd : cmatrix -> svd_result) (freq : vec) (max_delay : R) (mask : vec)
  (num_delay : nat) (tol : R) (w : vec) :
  filter_window freq = Ok w ->
  is_svd (length freq) num_delay
    (filter_design freq max_delay mask num_delay w)
    (svd (filter_design freq max_delay mask num_delay w)) ->
  (forall proj,
     null_delay_filter svd freq max_delay mask num_delay tol false = Ok proj ->
     cmat_mul (length freq) proj proj = proj)
  /\ (freq <> [] -> (0 < num_delay)%nat ->
      exists proj,
        null_delay_filter svd freq max_delay mask num_delay tol false
        = Ok proj).
Proof.
  intros Hw (Hlen & _ & _ & Hu & _). unfold null_delay_filter.
  rewrite Hw. cbn [bind]. split.
  - intros proj.
    destruct (removed_modes tol _) as [nmodes|e]; cbn [bind]; [|discriminate].
    intros H. inversion H. now apply null_projector_idempotent.
  - intros Hf Hm. unfold removed_modes.
    destruct (vmax_nonempty
                (svd_sig (svd (filter_design freq max_delay mask num_delay w))))
      as [smax ->].
    + intros Hnil. rewrite Hnil in Hlen.
      destruct freq; [congruence | cbn [length] in Hlen; lia].
    + cbn [bind]. now eexists.
Qed.

(** ** The filter on a uniform grid at zero delay *)

Lemma cos_2PI_minus (x : R) : cos (2 * PI - x) = cos x.
Proof.
  replace (2 * PI - x) with (- x + 2 * INR 1 * PI) by (simpl; lra).
  now rewrite cos_period, cos_neg.
Qed.

Lemma cos_4PI3 : cos (4 * (PI / 3)) = -1 / 2.
Proof.
  replace (4 * (PI / 3)) with (2 * PI - 2 * (PI / 3)) by lra.
  rewrite cos_2PI_minus. apply cos_2PI3.
Qed.

Lemma cos_8PI3 : cos (8 * (PI / 3)) = -1 / 2.
Proof.
  replace (8 * (PI / 3)) with (2 * (PI / 3) + 2 * INR 1 * PI) by (simpl; lra).
  rewrite cos_period. apply cos_2PI3.
Qed.

Lemma cos_even_PI (k : nat) : cos (2 * INR k * PI) = 1.
Proof.
  replace (2 * INR k * PI) with (0 + 2 * INR k * PI) by lra.
  rewrite cos_period. apply cos_0.
Qed.

Lemma nuttall_at_third :
  cosine_sum 0.355768 (-0.487396) 0.144232 (-0.012604) ((1 - 0) / (3 - 0))
  = 0.514746.
Proof.
  unfold cosine_sum.
  replace (2 * PI * 0 * ((1 - 0) / (3 - 0))) with 0 by lra.
  replace (2 * PI * 1 * ((1 - 0) / (3 - 0))) with (2 * (PI / 3)) by lra.
  replace (2 * PI * 2 * ((1 - 0) / (3 - 0))) with (4 * (PI / 3)) by lra.
  replace (2 * PI * 3 * ((1 - 0) / (3 - 0))) with (2 * PI) by lra.
  rewrite cos_0, cos_2PI3, cos_4PI3, cos_2PI. lra.
Qed.

Lemma nuttall_at_two_thirds :
  cosine_sum 0.355768 (-0.487396) 0.144232 (-0.012604) ((2 - 0) / (3 - 0))
  = 0.514746.
Proof.
  unfold cosine_sum.
  replace (2 * PI * 0 * ((2 - 0) / (3 - 0))) with 0 by lra.
  replace (2 * PI * 1 * ((2 - 0) / (3 - 0))) with (4 * (PI / 3)) by lra.
  replace (2 * PI * 2 * ((2 - 0) / (3 - 0))) with (8 * (PI / 3)) by lra.
  replace (2 * PI * 3 * ((2 - 0) / (3 - 0))) with (2 * INR 2 * PI)
    by (simpl; lra).
  rewrite cos_0, cos_4PI3, cos_8PI3, cos_even_PI. lra.
Qed.

Lemma nuttall_at_one :
  cosine_sum 0.355768 (-0.487396) 0.144232 (-0.012604) ((3 - 0) / (3 - 0))
  = 0.
Proof.
  unfold cosine_sum.
  replace (2 * PI * 0 * ((3 - 0) / (3 - 0))) with 0 by lra.
  replace (2 * PI * 1 * ((3 - 0) / (3 - 0))) with (2 * INR 1 * PI)
    by (simpl; lra).
  replace (2 * PI * 2 * ((3 - 0) / (3 - 0))) with (2 * INR 2 * PI)
    by (simpl; lra).
  replace (2 * PI * 3 * ((3 - 0) / (3 - 0))) with (2 * INR 3 * PI)
    by (simpl; lra).
  rewrite cos_0, !cos_even_PI. lra.
Qed.

Lemma nuttall_at_zero' :
  cosine_sum 0.355768 (-0.487396) 0.144232 (-0.012604) ((0 - 0) / (3 - 0))
  = 0.
Proof.
  replace ((0 - 0) / (3 - 0)) with 0 by lra. apply nuttall_at_0.
Qed.

Lemma grid_min : vmin grid_freq = Ok 0.
Proof.
  unfold vmin, grid_freq. simpl fold_left. f_equal.
  rewrite (Rmin_left 0 1) by lra. rewrite (Rmin_left 0 2) by lra.
  apply Rmin_left. lra.
Qed.

Lemma grid_max : vmax grid_freq = Ok 3.
Proof.
  unfold vmax, grid_freq. simpl fold_left. f_equal.
  rewrite (Rmax_right 0 1) by lra. rewrite (Rmax_right 1 2) by lra.
  apply Rmax_right. lra.
Qed.

Lemma grid_window : filter_window grid_freq = Ok [0; 0.514746; 0.514746; 0].
Proof.
  unfold filter_window, ptp. rewrite grid_min, grid_max. cbn [bind].
  destruct (Req_dec_T (3 - 0) 0) as [H|_]; [lra|].
  rewrite window_nuttall_ok. unfold grid_freq. cbn [map].
  now rewrite nuttall_at_zero', nuttall_at_third, nuttall_at_two_thirds,
    nuttall_at_one.
Qed.

Lemma linspace_zero (m j : nat) : nth j (linspace (- 0) 0 m) 0 = 0.
Proof.
  unfold linspace.
  destruct (Nat.lt_ge_cases j m) as [Hj|Hj].
  - rewrite (nth_indep _ 0 (- 0 + INR 0 * ((0 - - 0) / INR (m - 1))))
      by now rewrite length_map, length_seq.
    rewrite (map_nth (fun i => - 0 + INR i * ((0 - - 0) / INR (m - 1)))
               (seq 0 m) 0%nat j).
    rewrite seq_nth by assumption. simpl (0 + j)%nat.
    replace (0 - - 0) with 0 by lra. unfold Rdiv. rewrite Rmult_0_l. lra.
  - apply nth_overflow. now rewrite length_map, length_seq.
Qed.

(** At zero delay every column of the design matrix is the masked
    window. *)
Lemma grid_design_entry (i j : nat) :
  (i < 4)%nat -> (j < default_num_delay)%nat ->
  cget (filter_design grid_freq 0 grid_mask default_num_delay
          [0; 0.514746; 0.514746; 0]) i j
  = RtoC (nth i [0; 0.514746; 0.514746; 0] 0).
Proof.
  intros Hi Hj. unfold filter_design, delay_design_matrix, cget.
  set (delay := linspace (- 0) 0 default_num_delay).
  assert (Hd : forall f m,
             nth j (map (fun dl => cmul (RtoC m) (cexp_i (2 * PI * dl * f)))
                      delay) c0 = RtoC m).
  { intros f m.
    rewrite (nth_indep _ c0 (cmul (RtoC m) (cexp_i (2 * PI * 0 * f))))
      by (unfold delay, linspace; now rewrite !length_map, length_seq).
    rewrite (map_nth (fun dl => cmul (RtoC m) (cexp_i (2 * PI * dl * f)))
               delay 0 j).
    unfold delay. rewrite linspace_zero.
    unfold cexp_i. replace (2 * PI * 0 * f) with 0 by lra.
    rewrite cos_0, sin_0. apply complex_eq; simpl; ring. }
  unfold grid_freq, grid_mask. cbn [zipWith].
  destruct i as [|[|[|[|i]]]]; try lia; cbn [nth]; rewrite Hd;
    apply complex_eq; simpl; ring.
Qed.

(** ** The Householder reflection *)

Lemma bsum_delta_sym (x : nat -> R) (i n : nat) :
  (i < n)%nat ->
  bsum (fun l => (if (l =? i)%nat then 1 else 0) * x l) n = x i.
Proof.
  intros Hi. rewrite <- (bsum_delta x i n Hi). apply bsum_ext.
  intros l _. now rewrite (Nat.eqb_sym l i).
Qed.

Lemma shifted_norm (s : R) (m : nat) :
  bsum (fun l => ((if (l =? 0)%nat then 1 else 0) - s)
                 * ((if (l =? 0)%nat then 1 else 0) - s)) (S m)
  = (1 - s) * (1 - s) + INR m * (s * s).
Proof.
  rewrite bsum_S_l.
  rewrite (bsum_ext _ (fun _ => s * s)).
  2:{ intros k _. change (S k =? 0)%nat with false. cbv iota. ring. }
  rewrite bsum_const. change (0 =? 0)%nat with true. cbv iota. ring.
Qed.

Lemma inv_sqrt_sqr (m : nat) : / sqrt (INR m) * / sqrt (INR m) = / INR m.
Proof. rewrite <- Rinv_mult. f_equal. apply sqrt_sqrt. apply pos_INR. Qed.

Lemma inv_sqrt_lt_1 (m : nat) : (2 <= m)%nat -> 0 < / sqrt (INR m) < 1.
Proof.
  intros Hm.
  assert (H1 : 1 < INR m) by (apply (lt_INR 1); lia).
  assert (Hsq : 1 < sqrt (INR m)).
  { rewrite <- sqrt_1. apply sqrt_lt_1; lra. }
  split.
  - apply Rinv_0_lt_compat. lra.
  - rewrite <- Rinv_1. apply Rinv_lt_contravar; lra.
Qed.

Lemma householder_norm (m : nat) :
  (2 <= m)%nat ->
  bsum (fun l => ((if (l =? 0)%nat then 1 else 0) - / sqrt (INR m))
                 * ((if (l =? 0)%nat then 1 else 0) - / sqrt (INR m))) m
  = 2 * (1 - / sqrt (INR m)).
Proof.
  intros Hm. pose proof (inv_sqrt_sqr m) as Hs.
  set (s := / sqrt (INR m)) in *.
  destruct m as [|m']; [lia|]. rewrite shifted_norm.
  rewrite S_INR in Hs.
  assert (HM : 0 <= INR m') by apply pos_INR.
  assert (Hx : INR m' * (s * s) = 1 - s * s).
  { rewrite Hs. field. lra. }
  rewrite Hx. ring.
Qed.

Lemma householder_first_row (m j : nat) :
  (2 <= m)%nat -> householder_entry m 0 j = / sqrt (INR m).
Proof.
  intros Hm. pose proof (inv_sqrt_lt_1 m Hm) as Hs.
  unfold householder_entry. set (s := / sqrt (INR m)) in *. clearbody s.
  change (0 =? 0)%nat with true.
  destruct j as [|j]; [change (0 =? 0)%nat with true
                      | change (0 =? S j)%nat with false;
                        change (S j =? 0)%nat with false];
    cbv iota zeta; field; lra.
Qed.

Lemma householder_orthogonal (m i j : nat) :
  (2 <= m)%nat -> (i < m)%nat -> (j < m)%nat ->
  bsum (fun l => householder_entry m l i * householder_entry m l j) m
  = if (i =? j)%nat then 1 else 0.
Proof.
  intros Hm Hi Hj. pose proof (inv_sqrt_lt_1 m Hm) as Hs.
  pose proof (householder_norm m Hm) as Hnorm.
  unfold householder_entry.
  set (s := / sqrt (INR m)) in *.
  set (w := fun k : nat => (if (k =? 0)%nat then 1 else 0) - s) in *.
  set (c := / (1 - s)).
  assert (Hc : c * (1 - s) = 1) by (unfold c; field; lra).
  rewrite (bsum_ext _
    (fun l => ((if (l =? i)%nat then 1 else 0)
               * (if (l =? j)%nat then 1 else 0)
               + - (c * w j) * ((if (l =? i)%nat then 1 else 0) * w l))
              + (- (c * w i) * ((if (l =? j)%nat then 1 else 0) * w l)
                 + c * c * w i * w j * (w l * w l)))).
  2:{ intros l _. unfold Rdiv. fold c. unfold w. ring. }
  rewrite !bsum_plus, !bsum_scale.
  change (bsum (fun l => w l * w l) m) with
    (bsum (fun l => ((if (l =? 0)%nat then 1 else 0) - s)
                    * ((if (l =? 0)%nat then 1 else 0) - s)) m).
  rewrite Hnorm.
  rewrite !bsum_delta_sym by assumption.
  rewrite (Nat.eqb_sym i j).
  replace (c * c * w i * w j * (2 * (1 - s)))
    with (2 * c * w i * w j * (c * (1 - s))) by ring.
  rewrite Hc. ring.
Qed.

Lemma csum_RtoC (f : nat -> R) (n : nat) :
  csum (fun l => RtoC (f l)) n = RtoC (bsum f n).
Proof.
  induction n as [|n IH]; [reflexivity|].
  rewrite csum_S_r, bsum_S_r, IH. apply complex_eq; simpl; ring.
Qed.

Lemma cdelta_RtoC (i j : nat) :
  cdelta i j = RtoC (if (i =? j)%nat then 1 else 0).
Proof. unfold cdelta. now destruct (i =? j)%nat. Qed.

Lemma householder_unitary (m : nat) :
  (2 <= m)%nat -> unitary m (householder m).
Proof.
  intros Hm. unfold householder. split; [apply mk_matrix_length|].
  split; [intros i Hi; now apply mk_matrix_row_length|].
  intros i j Hi Hj.
  rewrite (csum_ext _
    (fun l => RtoC (householder_entry m l i * householder_entry m l j))).
  - rewrite csum_RtoC, householder_orthogonal by assumption.
    symmetry. apply cdelta_RtoC.
  - intros l Hl. rewrite !cget_mk_matrix by assumption.
    apply complex_eq; simpl; ring.
Qed.

Lemma inv_sqrt2_sqr : / sqrt 2 * / sqrt 2 = 1 / 2.
Proof.
  rewrite <- Rinv_mult, sqrt_sqrt by lra. lra.
Qed.

Lemma rank_one_u_unitary : unitary 4 rank_one_u.
Proof.
  split; [reflexivity|]. split.
  - intros i Hi. destruct i as [|[|[|[|i]]]]; try lia; reflexivity.
  - intros i j Hi Hj. pose proof inv_sqrt2_sqr as Hs.
    unfold rank_one_u. set (s := / sqrt 2) in *. clearbody s.
    destruct i as [|[|[|[|i]]]]; try lia;
      destruct j as [|[|[|[|j]]]]; try lia;
      apply complex_eq; cbn -[Rplus Rmult Rminus Ropp IZR]; nra.
Qed.

Lemma cmul_zero_mid (x y : complex) : cmul (cmul x (RtoC 0)) y = c0.
Proof. apply complex_eq; simpl; ring. Qed.

Lemma rank_one_sigma_pos : 0 < 0.514746 * sqrt 2 * sqrt (INR default_num_delay).
Proof.
  assert (0 < sqrt 2) by (apply sqrt_lt_R0; lra).
  assert (0 < sqrt (INR default_num_delay)).
  { apply sqrt_lt_R0. apply (lt_INR 0). unfold default_num_delay. lia. }
  apply Rmult_lt_0_compat; [|assumption]. lra.
Qed.

(** [rank_one_svd] is a singular value decomposition of the design matrix
    of the grid at zero delay. *)
Lemma rank_one_is_svd :
  is_svd (length grid_freq) default_num_delay
    (filter_design grid_freq 0 grid_mask default_num_delay
       [0; 0.514746; 0.514746; 0])
    rank_one_svd.
Proof.
  pose proof rank_one_sigma_pos as Hsig.
  assert (Hm : (2 <= default_num_delay)%nat) by (unfold default_num_delay; lia).
  unfold is_svd. change (length grid_freq) with 4%nat.
  change (Nat.min 4 default_num_delay) with 4%nat.
  split; [reflexivity|]. split.
  { intros s [<-|[<-|[<-|[<-|[]]]]]; lra. }
  split.
  { intros i j Hij Hj. unfold rank_one_svd. cbn [svd_sig].
    destruct j as [|[|[|[|j]]]]; try lia;
      destruct i as [|[|[|[|i]]]]; try lia; cbn [nth]; lra. }
  split; [apply rank_one_u_unitary|].
  split; [now apply householder_unitary|].
  intros i j Hi Hj. rewrite grid_design_entry by assumption.
  rewrite !csum_S_r, csum_0.
  unfold rank_one_svd. cbn [svd_sig svd_u svd_vh nth].
  rewrite !cmul_zero_mid.
  unfold householder. rewrite cget_mk_matrix by lia.
  rewrite householder_first_row by assumption.
  assert (Hr : sqrt (INR default_num_delay) * / sqrt (INR default_num_delay)
               = 1).
  { apply Rinv_r. apply Rgt_not_eq. apply sqrt_lt_R0. apply (lt_INR 0).
    unfold default_num_delay. lia. }
  assert (Hs2 : / sqrt 2 * sqrt 2 = 1).
  { apply Rinv_l. apply Rgt_not_eq. apply sqrt_lt_R0. lra. }
  unfold rank_one_u.
  set (a := sqrt (INR default_num_delay)) in *.
  set (b := / a) in *. set (s := / sqrt 2) in *. set (t := sqrt 2) in *.
  clearbody a b s t.
  destruct i as [|[|[|[|i]]]]; try lia;
    apply complex_eq; cbn -[Rplus Rmult Rminus Ropp IZR]; try ring.
  - replace (s * (0.514746 * t * a) - 0 * 0) with (0.514746 * (s * t) * a)
      by ring.
    rewrite Hs2. replace (0.514746 * 1 * a * b) with (0.514746 * (a * b)) by ring.
    rewrite Hr. ring.
  - replace (s * (0.514746 * t * a) - 0 * 0) with (0.514746 * (s * t) * a)
      by ring.
    rewrite Hs2. replace (0.514746 * 1 * a * b) with (0.514746 * (a * b)) by ring.
    rewrite Hr. ring.
Qed.

Lemma rank_one_removed_modes :
  removed_modes default_tol (svd_sig rank_one_svd) = Ok 1%nat.
Proof.
  pose proof rank_one_sigma_pos as Hsig.
  unfold removed_modes, rank_one_svd, vmax. cbn [svd_sig fold_left bind].
  set (sigma := 0.514746 * sqrt 2 * sqrt (INR default_num_delay)) in *.
  rewrite !(Rmax_left sigma 0) by lra. f_equal.
  unfold count_gt, default_tol. cbn [filter].
  destruct (Rlt_dec (1 / 100000000 * sigma) sigma) as [_|Hn]; [|exfalso; lra].
  destruct (Rlt_dec (1 / 100000000 * sigma) 0) as [Hl|_]; [exfalso; lra|].
  reflexivity.
Qed.

(** [C2], as stated, fails under the default window: on a uniform grid of
    four unmasked channels at zero maximum delay, with the default number
    of delays and tolerance and a singular value decomposition of the
    design matrix, the matrix returned is not idempotent. *)
Lemma null_delay_filter_windowed_not_idempotent :
  filter_window grid_freq = Ok [0; 0.514746; 0.514746; 0]
  /\ is_svd (length grid_freq) default_num_delay
       (filter_design grid_freq 0 grid_mask default_num_delay
          [0; 0.514746; 0.514746; 0])
       rank_one_svd
  /\ exists proj,
       null_delay_filter (fun _ => rank_one_svd) grid_freq 0 grid_mask
         default_num_delay default_tol true = Ok proj
       /\ cmat_mul (length grid_freq) proj proj <> proj.
Proof.
  split; [apply grid_window|]. split; [apply rank_one_is_svd|].
  unfold null_delay_filter. rewrite grid_window. cbn [bind].
  rewrite rank_one_removed_modes. cbn [bind].
  eexists. split; [reflexivity|].
  intros Heq. apply (f_equal (fun M => fst (cget M 1 1))) in Heq.
  pose proof inv_sqrt2_sqr as Hs.
  unfold rank_one_svd, rank_one_u, grid_mask, grid_freq in Heq.
  set (s := / sqrt 2) in *. clearbody s.
  cbn -[Rplus Rmult Rminus Ropp IZR] in Heq.
  rewrite !Hs in Heq. lra.
Qed.

Lemma default_tol_lt_1 : default_tol < 1.
Proof. unfold default_tol. lra. Qed.

Lemma null_delay_filter_unwindowed_idempotent_witness :
  exists proj,
    null_delay_filter (fun _ => rank_one_svd) grid_freq 0 grid_mask
      default_num_delay default_tol false = Ok proj
    /\ cmat_mul (length grid_freq) proj proj = proj.
Proof.
  destruct (null_delay_filter_unwindowed_idempotent (fun _ => rank_one_svd)
              grid_freq 0 grid_mask default_num_delay default_tol
              [0; 0.514746; 0.514746; 0] grid_window rank_one_is_svd)
    as [Hid Hex].
  destruct Hex as [proj Hproj].
  - discriminate.
  - unfold default_num_delay. lia.
  - exists proj. split; [exact Hproj | now apply Hid].
Defined.

Lemma removed_modes_at_least_one_witness :
  exists k,
    removed_modes default_tol (svd_sig rank_one_svd) = Ok k /\ (1 <= k)%nat.
Proof.
  apply (proj1 (removed_modes_at_least_one default_tol (length grid_freq)
                  default_num_delay _ rank_one_svd default_tol_lt_1
                  rank_one_is_svd)).
  exists (0.514746 * sqrt 2 * sqrt (INR default_num_delay)).
  split; [now left|]. apply Rgt_not_eq. apply rank_one_sigma_pos.
Defined.

(* ================================================================== *)
(** * Further properties of the code *)

(** ** Window generator: symmetry, bound and peak *)

Lemma window_supported_ok (a0 a1 a2 a3 : R) (name : string) (x : vec) :
  dict_getitem a_table name = Ok [a0; a1; a2; a3] ->
  window_generalised x name = Ok (map (cosine_sum a0 a1 a2 a3) x).
Proof.
  intros Ha. unfold window_generalised. rewrite Ha. cbn [bind].
  now rewrite cosine_rows_sum.
Qed.

(** The table holds three families of four coefficients. *)
Lemma a_table_cases (name : string) (a : vec) :
  dict_getitem a_table name = Ok a ->
  a = [0.355768; -0.487396; 0.144232; -0.012604]
  \/ a = [0.3635819; -0.4891775; 0.1365995; -0.0106411]
  \/ a = [0.35875; -0.48829; 0.14128; -0.01168].
Proof.
  unfold a_table. cbn [dict_getitem].
  destruct (String.eqb "nuttall" name);
    [intros H; inversion H; now left|].
  destruct (String.eqb "blackman_nuttall" name);
    [intros H; inversion H; right; now left|].
  destruct (String.eqb "blackman_harris" name);
    [intros H; inversion H; right; now right | discriminate].
Qed.

Lemma cos_harmonic_reflect (k : nat) (x : R) :
  cos (2 * PI * INR k * (1 - x)) = cos (2 * PI * INR k * x).
Proof.
  replace (2 * PI * INR k * (1 - x))
    with (- (2 * PI * INR k * x) + 2 * INR k * PI) by ring.
  now rewrite cos_period, cos_neg.
Qed.

Lemma cosine_sum_reflect (a0 a1 a2 a3 x : R) :
  cosine_sum a0 a1 a2 a3 (1 - x) = cosine_sum a0 a1 a2 a3 x.
Proof.
  unfold cosine_sum.
  pose proof (cos_harmonic_reflect 0 x) as H0.
  pose proof (cos_harmonic_reflect 1 x) as H1.
  pose proof (cos_harmonic_reflect 2 x) as H2.
  pose proof (cos_harmonic_reflect 3 x) as H3.
  replace (INR 0) with 0 in H0 by (simpl; lra).
  replace (INR 1) with 1 in H1 by (simpl; lra).
  replace (INR 2) with 2 in H2 by (simpl; lra).
  replace (INR 3) with 3 in H3 by (simpl; lra).
  now rewrite H0, H1, H2, H3.
Qed.

(** [X1] The window is symmetric about the middle of the band: evaluated at
    the mirrored locations [1 - x] it gives the same weights, and the same
    error for an unknown family. *)
Theorem window_generalised_symmetric (x : vec) (name : string) :
  window_generalised (map (fun xj => 1 - xj) x) name
  = window_generalised x name.
Proof.
  destruct (dict_getitem a_table name) as [a|e] eqn:Ha.
  - destruct (a_table_cases name a Ha) as [-> | [-> | ->]];
      rewrite !(window_supported_ok _ _ _ _ name _ Ha), map_map;
      f_equal; apply map_ext; intros xj; apply cosine_sum_reflect.
  - unfold window_generalised. now rewrite Ha.
Qed.

Lemma cosine_sum_half (a0 a1 a2 a3 : R) :
  cosine_sum a0 a1 a2 a3 (1 / 2) = a0 - a1 + a2 - a3.
Proof.
  unfold cosine_sum.
  replace (2 * PI * 0 * (1 / 2)) with 0 by lra.
  replace (2 * PI * 1 * (1 / 2)) with PI by lra.
  replace (2 * PI * 2 * (1 / 2)) with (2 * PI) by lra.
  replace (2 * PI * 3 * (1 / 2)) with (3 * PI) by lra.
  rewrite cos_0, cos_PI, cos_2PI, cos_3PI. lra.
Qed.

(** [X2] For each of the three families the window returns one weight per
    location, every weight lies between -1 and 1, and the weight at the
    middle of the band, [x = 1/2], is exactly 1. *)
Theorem window_generalised_bounded (x : vec) (name : string) (ws : vec) :
  window_generalised x name = Ok ws ->
  length ws = length x
  /\ (forall w, In w ws -> -1 <= w <= 1)
  /\ forall i, (i < length x)%nat -> nth i x 0 = 1 / 2 -> nth i ws 0 = 1.
Proof.
  intros Hw.
  destruct (dict_getitem a_table name) as [a|e] eqn:Ha.
  2:{ unfold window_generalised in Hw. rewrite Ha in Hw. discriminate. }
  assert (Hcases := a_table_cases name a Ha).
  assert (Hws : exists a0 a1 a2 a3,
             ws = map (cosine_sum a0 a1 a2 a3) x
             /\ a0 - a1 + a2 - a3 = 1
             /\ forall c0 c1 c2 c3,
                  -1 <= c0 <= 1 -> -1 <= c1 <= 1 -> -1 <= c2 <= 1 ->
                  -1 <= c3 <= 1 ->
                  -1 <= a0 * c0 + a1 * c1 + a2 * c2 + a3 * c3 <= 1).
  { destruct Hcases as [-> | [-> | ->]];
      rewrite (window_supported_ok _ _ _ _ name x Ha) in Hw;
      inversion Hw; do 4 eexists;
      (split; [reflexivity|]); (split; [lra|]); intros; lra. }
  destruct Hws as (a0 & a1 & a2 & a3 & -> & Hpeak & Hbound).
  split; [apply length_map|]. split.
  - intros w Hin. apply in_map_iff in Hin. destruct Hin as (xj & <- & _).
    unfold cosine_sum. apply Hbound; apply COS_bound.
  - intros i Hi Hx.
    rewrite (nth_indep _ 0 (cosine_sum a0 a1 a2 a3 0))
      by now rewrite length_map.
    rewrite (map_nth (cosine_sum a0 a1 a2 a3) x 0 i), Hx, cosine_sum_half.
    exact Hpeak.
Qed.

Lemma window_generalised_bounded_witness :
  nth 1 (map (cosine_sum 0.355768 (-0.487396) 0.144232 (-0.012604))
           [0; 1 / 2; 1]) 0 = 1.
Proof.
  refine (proj2 (proj2 (window_generalised_bounded [0; 1 / 2; 1] "nuttall"
                          _ (window_nuttall_ok [0; 1 / 2; 1]))) 1%nat _ _).
  - simpl. lia.
  - reflexivity.
Defined.

(** ** The two design matrices are transposes up to normalisation *)

Lemma nat_even_odd_cases (c : nat) :
  (c = 2 * (c / 2))%nat \/ (c = 2 * (c / 2) + 1)%nat.
Proof.
  pose proof (Nat.div_mod_eq c 2) as H.
  pose proof (Nat.mod_upper_bound c 2) as Hb. lia.
Qed.

(** [X3] Entry [(t, c)] of the complex-to-real matrix is entry [(c, t)] of
    the real-to-complex matrix for the same [N] and channel selection,
    times the normalisation of the channel that column [c] belongs to. *)
Theorem c2r_is_scaled_transpose (N : Z) (fsel : option (list Z))
  (t c : nat) :
  (t < Z.to_nat N)%nat ->
  (c < 2 * length (channels N fsel))%nat ->
  get (fourier_matrix_c2r N fsel) t c
  = get (fourier_matrix_r2c N fsel) c t
    * c2r_mul N (nth (c / 2) (channels N fsel) 0%Z).
Proof.
  intros Ht Hc.
  assert (Hk : (c / 2 < length (channels N fsel))%nat)
    by (apply Nat.Div0.div_lt_upper_bound; lia).
  destruct (nat_even_odd_cases c) as [E|E]; rewrite E at 1 2.
  - now rewrite c2r_cos_entry, r2c_cos_entry.
  - now rewrite c2r_sin_entry, r2c_sin_entry.
Qed.

Lemma c2r_is_scaled_transpose_witness :
  get (fourier_matrix_c2r 4 None) 1 3
  = get (fourier_matrix_r2c 4 None) 3 1
    * c2r_mul 4 (nth (3 / 2) (channels 4 None) 0%Z).
Proof.
  apply (c2r_is_scaled_transpose 4 None 1 3); simpl; lia.
Defined.

(** ** The delay filter: symmetry, masked channels, what it removes *)

Lemma cconj_cadd (a b : complex) :
  cconj (cadd a b) = cadd (cconj a) (cconj b).
Proof. apply complex_eq; simpl; ring. Qed.

Lemma cconj_csub (a b : complex) :
  cconj (csub a b) = csub (cconj a) (cconj b).
Proof. apply complex_eq; simpl; ring. Qed.

Lemma cconj_cmul (a b : complex) :
  cconj (cmul a b) = cmul (cconj a) (cconj b).
Proof. apply complex_eq; simpl; ring. Qed.

Lemma cconj_involutive (a : complex) : cconj (cconj a) = a.
Proof. apply complex_eq; simpl; ring. Qed.

Lemma cconj_csum (f : nat -> complex) (n : nat) :
  cconj (csum f n) = csum (fun k => cconj (f k)) n.
Proof.
  induction n as [|n IH]; [apply cconj_c0|].
  now rewrite !csum_S_r, cconj_cadd, IH.
Qed.

Lemma cconj_cdelta (i j : nat) : cconj (cdelta i j) = cdelta j i.
Proof.
  unfold cdelta. rewrite (Nat.eqb_sym j i).
  destruct (i =? j)%nat; apply complex_eq; simpl; ring.
Qed.

Lemma gram_hermitian (u : cmatrix) (r i j : nat) :
  cconj (gram u r i j) = gram u r j i.
Proof.
  unfold gram. rewrite cconj_csum. apply csum_ext. intros k _.
  rewrite cconj_cmul, cconj_involutive. ring.
Qed.

Lemma filter_window_length (freq w : vec) :
  filter_window freq = Ok w -> length w = length freq.
Proof.
  unfold filter_window, ptp. intros Hw.
  destruct (vmin freq) as [lo|e]; [|discriminate].
  destruct (vmax freq) as [hi|e]; [|discriminate].
  cbn [bind] in Hw. destruct (Req_dec_T (hi - lo) 0); [discriminate|].
  rewrite window_nuttall_ok in Hw. inversion Hw. now rewrite !length_map.
Qed.

(** [X4] Without the window the filter matrix is Hermitian: entry
    [(j, i)] is the complex conjugate of entry [(i, j)]. *)
Theorem null_delay_filter_unwindowed_hermitian
  (svd : cmatrix -> svd_result) (freq : vec) (max_delay : R) (mask : vec)
  (num_delay : nat) (tol : R) (w : vec) (proj : cmatrix) :
  filter_window freq = Ok w ->
  is_svd (length freq) num_delay
    (filter_design freq max_delay mask num_delay w)
    (svd (filter_design freq max_delay mask num_delay w)) ->
  null_delay_filter svd freq max_delay mask num_delay tol false = Ok proj ->
  forall i j, (i < length freq)%nat -> (j < length freq)%nat ->
    cget proj j i = cconj (cget proj i j).
Proof.
  intros Hw (_ & _ & _ & Hu & _). unfold null_delay_filter.
  rewrite Hw. cbn [bind].
  destruct (removed_modes tol _) as [nmodes|e]; cbn [bind]; [|discriminate].
  intros H i j Hi Hj. inversion H.
  rewrite !(null_projector_entry _ _ nmodes Hu) by assumption.
  now rewrite cconj_csub, cconj_cdelta, gram_hermitian.
Qed.

Lemma null_delay_filter_unwindowed_hermitian_witness :
  exists proj,
    null_delay_filter (fun _ => rank_one_svd) grid_freq 0 grid_mask
      default_num_delay default_tol false = Ok proj
    /\ cget proj 2 1 = cconj (cget proj 1 2).
Proof.
  destruct (null_delay_filter_returns (fun _ => rank_one_svd) grid_freq 0
              grid_mask default_num_delay default_tol false)
    as [proj Hproj]; [distinct_channels | discriminate |].
  exists proj. split; [exact Hproj|].
  apply (null_delay_filter_unwindowed_hermitian (fun _ => rank_one_svd)
           grid_freq 0 grid_mask default_num_delay default_tol
           [0; 0.514746; 0.514746; 0] proj grid_window rank_one_is_svd Hproj);
    simpl; lia.
Defined.

Lemma nth_zipWith_short {A B C : Type} (f : A -> B -> C) (dc : C)
  (u : list A) :
  forall v i, (length u <= i)%nat \/ (length v <= i)%nat ->
    nth i (zipWith f u v) dc = dc.
Proof.
  intros v i H. apply nth_overflow. rewrite zipWith_length. lia.
Qed.

Lemma masked_weight_zero (mask w : vec) (j : nat) :
  nth j mask 0 = 0 -> nth j (zipWith Rmult mask w) 0 = 0.
Proof.
  intros Hm.
  destruct (Nat.lt_ge_cases j (length mask)) as [Hj|Hj];
    [destruct (Nat.lt_ge_cases j (length w)) as [Hw|Hw]|].
  - rewrite (nth_zipWith Rmult 0 0 0) by assumption. rewrite Hm. ring.
  - apply nth_zipWith_short. now right.
  - apply nth_zipWith_short. now left.
Qed.

(** Scaling the columns of a matrix by weights: a zero weight gives a zero
    column. *)
Lemma scaled_column_zero (mw : vec) (P : cmatrix) (i j : nat) :
  nth j mw 0 = 0 ->
  cget (map (fun row => zipWith (fun m z => cmul (RtoC m) z) mw row) P) i j
  = c0.
Proof.
  intros Hm. unfold cget.
  destruct (Nat.lt_ge_cases i (length P)) as [Hi|Hi].
  2:{ rewrite (nth_overflow (map _ P)) by now rewrite length_map.
      now destruct j. }
  rewrite (nth_indep _ []
             (zipWith (fun m z => cmul (RtoC m) z) mw []))
    by now rewrite length_map.
  rewrite (map_nth (fun row => zipWith (fun m z => cmul (RtoC m) z) mw row)
             P [] i).
  destruct (Nat.lt_ge_cases j (length mw)) as [Hj|Hj];
    [destruct (Nat.lt_ge_cases j (length (nth i P []))) as [Hr|Hr]|].
  - rewrite (nth_zipWith _ 0 c0 c0) by assumption.
    rewrite Hm. apply cmul_RtoC_0_l.
  - apply nth_zipWith_short. now right.
  - apply nth_zipWith_short. now left.
Qed.

(** With the window, the filter is a matrix whose columns have been
    scaled by mask times window. *)
Lemma windowed_filter_form (svd : cmatrix -> svd_result)
  (freq : vec) (max_delay : R) (mask : vec) (num_delay : nat) (tol : R)
  (NF : cmatrix) :
  null_delay_filter svd freq max_delay mask num_delay tol true = Ok NF ->
  exists w P,
    NF = map (fun row => zipWith (fun m z => cmul (RtoC m) z)
                           (zipWith Rmult mask w) row) P.
Proof.
  unfold null_delay_filter.
  destruct (filter_window freq) as [w|e]; cbn [bind]; [|discriminate].
  destruct (removed_modes tol _) as [nmodes|e]; cbn [bind]; [|discriminate].
  intros H. inversion H. now do 2 eexists.
Qed.

(** [X5] With the window, a channel whose mask entry is zero has a zero
    column in the filter matrix: masked channels of the input never reach
    the filtered output. *)
Theorem null_delay_filter_masked_column_zero
  (svd : cmatrix -> svd_result) (freq : vec) (max_delay : R) (mask : vec)
  (num_delay : nat) (tol : R) (NF : cmatrix) (j : nat) :
  null_delay_filter svd freq max_delay mask num_delay tol true = Ok NF ->
  nth j mask 0 = 0 ->
  forall i, cget NF i j = c0.
Proof.
  intros HNF Hm i.
  destruct (windowed_filter_form _ _ _ _ _ _ _ HNF) as (w & P & ->).
  apply scaled_column_zero. now apply masked_weight_zero.
Qed.

Lemma null_delay_filter_masked_column_zero_witness :
  exists NF,
    null_delay_filter example_svd [0; 1; 2] 1 [1; 0; 1]
      default_num_delay default_tol true = Ok NF
    /\ forall i, cget NF i 1 = c0.
Proof.
  destruct (null_delay_filter_returns example_svd [0; 1; 2] 1 [1; 0; 1]
              default_num_delay default_tol true)
    as [NF HNF]; [distinct_channels | discriminate |].
  exists NF. split; [exact HNF|].
  apply (null_delay_filter_masked_column_zero example_svd [0; 1; 2] 1
           [1; 0; 1] default_num_delay default_tol NF 1 HNF).
  reflexivity.
Defined.

Lemma count_gt_descending (thr : R) (sig : vec) :
  (forall i j, (i <= j)%nat -> (j < length sig)%nat ->
     nth j sig 0 <= nth i sig 0) ->
  forall l, (count_gt thr sig <= l)%nat -> (l < length sig)%nat ->
    nth l sig 0 <= thr.
Proof.
  induction sig as [|x sig IH]; intros Hd l Hc Hl; [simpl in Hl; lia|].
  unfold count_gt in Hc. cbn [filter] in Hc.
  destruct (Rlt_dec thr x) as [Hx|Hx].
  - cbn [length] in Hc, Hl. destruct l as [|l]; [lia|]. cbn [nth].
    apply IH; [|unfold count_gt; lia | lia].
    intros i j Hij Hj. apply (Hd (S i) (S j)); cbn [length]; lia.
  - assert (nth l (x :: sig) 0 <= x) by (apply (Hd 0%nat l); lia). lra.
Qed.

Lemma csum_split (T : nat -> complex) (r : nat) :
  forall K, (r <= K)%nat ->
    csub (csum T K) (csum T r)
    = csum (fun l => if (l <? r)%nat then c0 else T l) K.
Proof.
  induction K as [|K IH]; intros Hr.
  - replace r with 0%nat by lia. rewrite !csum_0. ring.
  - destruct (Nat.eq_dec r (S K)) as [->|Hne].
    + rewrite (csum_zero (fun l => if (l <? S K)%nat then c0 else T l)).
      * ring.
      * intros k Hk. now rewrite (proj2 (Nat.ltb_lt k (S K)) Hk).
    + rewrite !csum_S_r, <- IH by lia.
      rewrite (proj2 (Nat.ltb_ge K r)) by lia. ring.
Qed.

Lemma filter_design_length (freq : vec) (max_delay : R) (mask : vec)
  (num_delay : nat) (w : vec) :
  length mask = length freq -> length w = length freq ->
  length (filter_design freq max_delay mask num_delay w) = length freq.
Proof.
  intros Hm Hw. unfold filter_design, delay_design_matrix.
  rewrite !zipWith_length. lia.
Qed.

(** The Gram matrix of the first [r] columns of [u], applied to a
    decomposed matrix, keeps its first [r] modes. *)
Lemma gram_keeps_modes (n m : nat) (F : cmatrix) (usv : svd_result)
  (r i j : nat) :
  is_svd n m F usv -> (r <= Nat.min n m)%nat ->
  (i < n)%nat -> (j < m)%nat ->
  csum (fun c => cmul (gram (svd_u usv) r i c) (cget F c j)) n
  = csum (fun l => svd_mode usv l i j) r.
Proof.
  intros (_ & _ & _ & Hu & _ & HF) Hr Hi Hj.
  destruct Hu as (_ & _ & Horth).
  set (K := Nat.min n m) in *.
  rewrite (csum_ext _
    (fun c => csum (fun k => csum (fun l =>
       cmul (cmul (cget (svd_u usv) i k) (cconj (cget (svd_u usv) c k)))
            (svd_mode usv l c j)) K) r)).
  2:{ intros c Hc. rewrite (HF c j Hc Hj). fold K. unfold gram.
      rewrite <- csum_scale_r. apply csum_ext. intros k _.
      now rewrite <- csum_scale_l. }
  rewrite csum_exchange. apply csum_ext. intros k Hk.
  rewrite csum_exchange.
  rewrite (csum_ext _
    (fun l => cmul (cdelta k l)
                (cmul (cmul (cget (svd_u usv) i k)
                            (RtoC (nth l (svd_sig usv) 0)))
                      (cget (svd_vh usv) l j)))).
  - rewrite csum_delta_l by lia. reflexivity.
  - intros l Hl. rewrite <- (Horth k l) by lia.
    rewrite <- csum_scale_r. apply csum_ext. intros c _.
    unfold svd_mode. ring.
Qed.

(** [X6] What the unwindowed filter leaves of the design matrix it was
    built from: the filter times the design matrix is the sum of the modes
    that were not removed, and those are the modes whose singular value is
    at most [tol] times the largest.  With a tolerance of zero or less the
    filter annihilates the design matrix. *)
Theorem null_delay_filter_residual
  (svd : cmatrix -> svd_result) (freq : vec) (max_delay : R) (mask : vec)
  (num_delay : nat) (tol : R) (w : vec) (proj : cmatrix) :
  length mask = length freq ->
  filter_window freq = Ok w ->
  is_svd (length freq) num_delay
    (filter_design freq max_delay mask num_delay w)
    (svd (filter_design freq max_delay mask num_delay w)) ->
  null_delay_filter svd freq max_delay mask num_delay tol false = Ok proj ->
  let F := filter_design freq max_delay mask num_delay w in
  exists nmodes smax,
    removed_modes tol (svd_sig (svd F)) = Ok nmodes
    /\ vmax (svd_sig (svd F)) = Ok smax
    /\ (forall l, (nmodes <= l)%nat -> (l < length (svd_sig (svd F)))%nat ->
          nth l (svd_sig (svd F)) 0 <= tol * smax)
    /\ (forall i j, (i < length freq)%nat -> (j < num_delay)%nat ->
          cget (cmat_mul num_delay proj F) i j
          = csum (fun l => if (l <? nmodes)%nat then c0
                           else svd_mode (svd F) l i j)
              (Nat.min (length freq) num_delay))
    /\ (tol <= 0 ->
        forall i j, (i < length freq)%nat -> (j < num_delay)%nat ->
          cget (cmat_mul num_delay proj F) i j = c0).
Proof.
  intros Hmask Hw Hsvd Hnf F. fold F in Hsvd.
  pose proof Hsvd as (Hlen & Hnn & Hdesc & Hu & _ & HF).
  unfold null_delay_filter in Hnf. rewrite Hw in Hnf. cbn [bind] in Hnf.
  fold F in Hnf.
  destruct (removed_modes tol (svd_sig (svd F))) as [nmodes|e] eqn:Hrm;
    cbn [bind] in Hnf; [|discriminate].
  inversion Hnf as [Hproj]. clear Hnf.
  unfold removed_modes in Hrm.
  destruct (vmax (svd_sig (svd F))) as [smax|e] eqn:Hmax;
    cbn [bind] in Hrm; [|discriminate].
  inversion Hrm as [Hcount]. clear Hrm.
  exists (count_gt (tol * smax) (svd_sig (svd F))), smax.
  set (nmodes' := count_gt (tol * smax) (svd_sig (svd F))).
  assert (Hle : (nmodes' <= Nat.min (length freq) num_delay)%nat).
  { unfold nmodes'. rewrite <- Hlen. apply count_gt_le_length. }
  assert (Htail : forall l, (nmodes' <= l)%nat ->
            (l < length (svd_sig (svd F)))%nat ->
            nth l (svd_sig (svd F)) 0 <= tol * smax).
  { intros l Hl Hll. apply count_gt_descending; [|exact Hl|exact Hll].
    intros i j Hij Hj. apply Hdesc; [exact Hij|]. now rewrite <- Hlen. }
  assert (Hres : forall i j, (i < length freq)%nat -> (j < num_delay)%nat ->
            cget (cmat_mul num_delay
                    (null_projector (length freq) nmodes' (svd_u (svd F))) F)
              i j
            = csum (fun l => if (l <? nmodes')%nat then c0
                             else svd_mode (svd F) l i j)
                (Nat.min (length freq) num_delay)).
  { intros i j Hi Hj.
    rewrite cget_cmat_mul
      by (rewrite ?(null_projector_length _ _ nmodes' Hu); assumption).
    rewrite (null_projector_row_length _ _ nmodes' Hu) by assumption.
    assert (HFlen : length F = length freq)
      by (apply filter_design_length;
          [assumption | now apply filter_window_length]).
    rewrite HFlen, Nat.min_id.
    rewrite (csum_ext _
      (fun c => csub (cmul (cdelta i c) (cget F c j))
                  (cmul (gram (svd_u (svd F)) nmodes' i c) (cget F c j)))).
    2:{ intros c Hc.
        rewrite (null_projector_entry _ _ nmodes' Hu) by assumption.
        replace (Nat.min nmodes' (length freq)) with nmodes' by lia. ring. }
    rewrite csum_sub, csum_delta_l by assumption.
    rewrite (gram_keeps_modes _ _ _ _ _ _ _ Hsvd Hle Hi Hj).
    rewrite (HF i j Hi Hj). now apply csum_split. }
  split; [reflexivity|]. split; [reflexivity|]. split; [exact Htail|].
  split; [exact Hres|].
  intros Htol i j Hi Hj. rewrite Hres by assumption.
  apply csum_zero. intros l Hl.
  destruct (l <? nmodes')%nat eqn:Hln; [reflexivity|].
  apply Nat.ltb_ge in Hln.
  assert (Hz : nth l (svd_sig (svd F)) 0 = 0).
  { assert (Hl' : (l < length (svd_sig (svd F)))%nat) by now rewrite Hlen.
    pose proof (Htail l Hln Hl') as Hup.
    pose proof (Hnn _ (nth_In _ 0 Hl')) as Hlo.
    destruct (vmax_spec _ _ Hmax) as [Hin _].
    pose proof (Hnn _ Hin) as Hs. nra. }
  unfold svd_mode. rewrite Hz. apply cmul_zero_mid.
Qed.

Lemma null_delay_filter_residual_witness :
  exists proj nmodes smax,
    null_delay_filter (fun _ => rank_one_svd) grid_freq 0 grid_mask
      default_num_delay default_tol false = Ok proj
    /\ removed_modes default_tol (svd_sig rank_one_svd) = Ok nmodes
    /\ vmax (svd_sig rank_one_svd) = Ok smax
    /\ forall l, (nmodes <= l)%nat -> (l < length (svd_sig rank_one_svd))%nat ->
         nth l (svd_sig rank_one_svd) 0 <= default_tol * smax.
Proof.
  destruct (null_delay_filter_returns (fun _ => rank_one_svd) grid_freq 0
              grid_mask default_num_delay default_tol false)
    as [proj Hproj]; [distinct_channels | discriminate |].
  destruct (null_delay_filter_residual (fun _ => rank_one_svd) grid_freq 0
              grid_mask default_num_delay default_tol
              [0; 0.514746; 0.514746; 0] proj eq_refl grid_window
              rank_one_is_svd Hproj)
    as (nmodes & smax & Hn & Hs & Htail & _).
  exists proj, nmodes, smax. repeat split; assumption.
Defined.

(** ** DelayFilter: channels of zero weight are ignored *)

(** When a column of [A] is zero, the matching row of [B] does not enter
    the product. *)
Lemma cmat_mul_zero_column (m : nat) (A B B' : cmatrix) (j : nat) :
  (forall i, cget A i j = c0) ->
  length B' = length B ->
  (forall c, c <> j -> nth c B' [] = nth c B []) ->
  cmat_mul m A B' = cmat_mul m A B.
Proof.
  intros Hz Hlen Hrows. unfold cmat_mul.
  apply map_ext_in. intros row Hin. apply map_ext. intros t.
  destruct (In_nth _ _ [] Hin) as (i & Hi & <-).
  rewrite !cdot_csum, !ccol_length, Hlen.
  apply csum_ext. intros c Hc. rewrite !nth_ccol.
  destruct (Nat.eq_dec c j) as [->|Hne].
  - fold (cget A i j). rewrite Hz. ring.
  - unfold cget. now rewrite Hrows.
Qed.

Lemma ncols_set_nth {T : Type} (j : nat) (row : list T)
  (v : list (list T)) :
  length row = length (nth j v []) ->
  ncols (set_nth j row v) = ncols v.
Proof.
  intros Hlen. unfold ncols. rewrite !hd_nth0, nth_set_nth.
  destruct ((0 =? j)%nat && (0 <? length v)%nat) eqn:E; [|reflexivity].
  apply andb_true_iff in E. destruct E as [E _].
  apply Nat.eqb_eq in E. now subst j.
Qed.

(** [X7] A channel of a product whose median weight over time is zero does
    not influence what [DelayFilter.process] leaves in the store: with the
    visibilities of that channel replaced by anything of the same length,
    a call that returned still returns, and leaves the same store. *)
Theorem delay_filter_ignores_masked_channel
  (svd : cmatrix -> svd_result) (self : DelayFilter) (ss : ref) (h : store)
  (bi j : nat) (row : list complex) (r : ref) :
  update_weight self = false ->
  nth j (median_axis1 (nth bi (weight (h ss)) [])) 0 = 0 ->
  length row = length (nth j (nth bi (vis (h ss)) []) []) ->
  fst (DelayFilter_process svd self ss h) = Ok r ->
  let h' :=
    store_set h ss
      (with_vis (set_nth bi (set_nth j row (nth bi (vis (h ss)) []))
                   (vis (h ss))) (h ss)) in
  fst (DelayFilter_process svd self ss h') = Ok r
  /\ forall r', snd (DelayFilter_process svd self ss h') r'
                = snd (DelayFilter_process svd self ss h) r'.
Proof.
  intros Hup Hmask Hrow Hok h'.
  assert (Hss : h' ss
                = with_vis (set_nth bi (set_nth j row (nth bi (vis (h ss)) []))
                              (vis (h ss))) (h ss)).
  { unfold h', store_set. now rewrite Nat.eqb_refl. }
  pose proof (DelayFilter_process_result svd self ss h Hup) as [_ Hres].
  pose proof (DelayFilter_process_result svd self ss h' Hup) as [Hret' Hres'].
  pose proof (DelayFilter_process_frame svd self ss h Hup)
    as (Hfr & Hw & Hf & Hp & Ht & Hl & Ha).
  pose proof (DelayFilter_process_frame svd self ss h' Hup)
    as (Hfr' & Hw' & Hf' & Hp' & Ht' & Hl' & Ha').
  cbv zeta in *.
  destruct (Hres r Hok) as [-> Hvis].
  assert (Hlen : length (vis (h' ss)) = length (vis (h ss))).
  { rewrite Hss. cbn [vis with_vis]. apply set_nth_length. }
  assert (Hpf : forall b,
            product_filter svd self (freq_centre (h' ss)) (h' ss) b
            = product_filter svd self (freq_centre (h ss)) (h ss) b).
  { intros b. rewrite Hss. reflexivity. }
  assert (Hok' : fst (DelayFilter_process svd self ss h') = Ok ss).
  { apply Hret'. intros b Hb. rewrite Hlen in Hb.
    destruct (Hvis b Hb) as (NF & HNF & _). exists NF. now rewrite Hpf. }
  split; [exact Hok'|].
  destruct (Hres' ss Hok') as [_ Hvis'].
  assert (Hveq : vis (snd (DelayFilter_process svd self ss h') ss)
                 = vis (snd (DelayFilter_process svd self ss h) ss)).
  { apply (@nth_ext cmatrix _ _ [] []);
      [exact (eq_trans Hl' (eq_trans Hlen (eq_sym Hl)))|].
    intros b Hb0.
    assert (Hb : (b < length (vis (h ss)))%nat).
    { apply (Nat.lt_le_trans _ _ _ Hb0). apply Nat.eq_le_incl.
      exact (eq_trans Hl' Hlen). }
    clear Hb0.
    destruct (Hvis b Hb) as (NF & HNF & ->).
    destruct (Hvis' b) as (NF' & HNF' & ->); [now rewrite Hlen|].
    rewrite Hpf, HNF in HNF'. inversion HNF'. subst NF'.
    unfold filtered. rewrite Hss. cbn [vis with_vis].
    rewrite nth_set_nth.
    destruct ((b =? bi)%nat && (b <? length (vis (h ss)))%nat) eqn:E;
      [|reflexivity].
    apply andb_true_iff in E. destruct E as [E _].
    apply Nat.eqb_eq in E. subst b.
    rewrite ncols_set_nth by exact Hrow.
    apply (cmat_mul_zero_column _ _ _ _ j).
    - intros i. unfold product_filter in HNF.
      destruct (windowed_filter_form _ _ _ _ _ _ _ HNF) as (w & P & ->).
      apply scaled_column_zero. now apply masked_weight_zero.
    - apply set_nth_length.
    - intros c Hc. rewrite nth_set_nth.
      now rewrite (proj2 (Nat.eqb_neq c j) Hc). }
  intros r'. destruct (Nat.eq_dec r' ss) as [->|Hne].
  - rewrite Hss in Hw', Hf', Hp', Ht'. cbn [weight freq_centre index_prod
      index_time with_vis] in Hw', Hf', Hp', Ht'.
    destruct (snd (DelayFilter_process svd self ss h') ss),
             (snd (DelayFilter_process svd self ss h) ss).
    cbn [vis weight freq_centre index_prod index_time distributed_axis] in *.
    congruence.
  - rewrite Hfr', Hfr by assumption. unfold h', store_set.
    now rewrite (proj2 (Nat.eqb_neq r' ss) Hne).
Qed.

Lemma delay_filter_ignores_masked_channel_witness :
  fst (DelayFilter_process example_svd example_filter 0%nat
         masked_store_altered) = Ok 0%nat
  /\ forall r', snd (DelayFilter_process example_svd example_filter 0%nat
                       masked_store_altered) r'
                = snd (DelayFilter_process example_svd example_filter 0%nat
                         masked_store) r'.
Proof.
  apply (delay_filter_ignores_masked_channel example_svd example_filter
           0%nat masked_store 0 1 [(7, 5)] 0%nat eq_refl eq_refl eq_refl).
  apply (proj1 (DelayFilter_process_result example_svd example_filter 0%nat
                  masked_store eq_refl)).
  intros bi _. apply null_delay_filter_returns; [distinct_channels | discriminate].
Defined.

(** ** Gibbs sampler: noise weights and the Wiener system *)

Lemma nth_set_step2 (start : nat) (a v : vec) (c : nat) :
  (c < length v)%nat ->
  nth c (set_step2 start a v) 0
  = if (start <=? c)%nat && Nat.even (c - start)
    then nth ((c - start) / 2) a (nth c v 0)
    else nth c v 0.
Proof.
  intros Hc. unfold set_step2. now rewrite (nth_imap _ v 0 0 c Hc).
Qed.

Lemma set_step2_length (start : nat) (a v : vec) :
  length (set_step2 start a v) = length v.
Proof. apply imap_length. Qed.

Lemma Ni_r_length (N : Z) (Ni : vec) (fsel : option (list Z)) :
  length (Ni_r N Ni fsel) = (2 * length Ni)%nat.
Proof. unfold Ni_r. now rewrite !set_step2_length, repeat_length. Qed.

Lemma half_of_even (k : nat) : (2 * k / 2 = k)%nat.
Proof. rewrite Nat.mul_comm. now apply Nat.div_mul. Qed.

Lemma repeat_zero_nth (n c : nat) : nth c (repeat 0 n) 0 = 0.
Proof.
  destruct (Nat.lt_ge_cases c n) as [H|H].
  - now apply nth_repeat_lt.
  - apply nth_overflow. now rewrite repeat_length.
Qed.

Lemma Ni_r_even_entry (N : Z) (Ni : vec) (fsel : option (list Z))
  (k : nat) :
  length (gibbs_fsel N fsel) = length Ni ->
  (k < length Ni)%nat ->
  nth (2 * k) (Ni_r N Ni fsel) 0
  = (if is_real_freq N (nth k (gibbs_fsel N fsel) 0%Z)
     then nth k Ni 0 else nth k Ni 0 / sqrt 2).
Proof.
  intros Hlen Hk. unfold Ni_r.
  rewrite nth_set_step2 by (rewrite set_step2_length, repeat_length; lia).
  replace ((1 <=? 2 * k)%nat && Nat.even (2 * k - 1)) with false.
  2:{ destruct k as [|k]; [reflexivity|].
      replace (2 * S k - 1)%nat with (S (2 * k)) by lia.
      symmetry. apply andb_false_iff. right.
      rewrite Nat.even_succ, Nat.odd_mul. reflexivity. }
  rewrite nth_set_step2 by (rewrite repeat_length; lia).
  cbn [Nat.leb andb]. rewrite Nat.sub_0_r, Nat.even_mul. cbn [Nat.even orb].
  rewrite half_of_even, repeat_zero_nth.
  now rewrite (nth_zipWith _ 0%Z 0 0) by lia.
Qed.

Lemma Ni_r_odd_entry (N : Z) (Ni : vec) (fsel : option (list Z))
  (k : nat) :
  length (gibbs_fsel N fsel) = length Ni ->
  (k < length Ni)%nat ->
  nth (2 * k + 1) (Ni_r N Ni fsel) 0
  = (if is_real_freq N (nth k (gibbs_fsel N fsel) 0%Z)
     then 0 else nth k Ni 0 / sqrt 2).
Proof.
  intros Hlen Hk. unfold Ni_r.
  rewrite nth_set_step2 by (rewrite set_step2_length, repeat_length; lia).
  replace (2 * k + 1 - 1)%nat with (2 * k)%nat by lia.
  replace (1 <=? 2 * k + 1)%nat with true
    by (symmetry; apply Nat.leb_le; lia).
  rewrite Nat.even_mul. cbn [Nat.even orb andb].
  rewrite half_of_even.
  rewrite (nth_indep _ _ 0) by (rewrite zipWith_length; lia).
  now rewrite (nth_zipWith _ 0%Z 0 0) by lia.
Qed.

(** [X8] The inverse noise of the real and imaginary parts: the array has
    two entries per channel; the real part of the zero and Nyquist
    channels keeps the whole inverse variance and their imaginary part
    gets none; every other channel gets the inverse variance over the
    square root of two in both parts. *)
Theorem Ni_r_entries (N : Z) (Ni : vec) (fsel : option (list Z)) (k : nat) :
  length (gibbs_fsel N fsel) = length Ni ->
  (k < length Ni)%nat ->
  length (Ni_r N Ni fsel) = (2 * length Ni)%nat
  /\ nth (2 * k) (Ni_r N Ni fsel) 0
     = (if is_real_freq N (nth k (gibbs_fsel N fsel) 0%Z)
        then nth k Ni 0 else nth k Ni 0 / sqrt 2)
  /\ nth (2 * k + 1) (Ni_r N Ni fsel) 0
     = (if is_real_freq N (nth k (gibbs_fsel N fsel) 0%Z)
        then 0 else nth k Ni 0 / sqrt 2).
Proof.
  intros Hlen Hk. split; [apply Ni_r_length|]. split.
  - now apply Ni_r_even_entry.
  - now apply Ni_r_odd_entry.
Qed.

Lemma Ni_r_entries_witness :
  nth (2 * 1) (Ni_r 2 [4; 6] None) 0
  = (if is_real_freq 2 (nth 1 (gibbs_fsel 2 None) 0%Z)
     then nth 1 [4; 6] 0 else nth 1 [4; 6] 0 / sqrt 2).
Proof.
  apply (proj1 (proj2 (Ni_r_entries 2 [4; 6] None 1 eq_refl
                         (Nat.lt_succ_diag_r 1)))).
Defined.

Lemma bsum_nonneg (f : nat -> R) (n : nat) :
  (forall k, (k < n)%nat -> 0 <= f k) -> 0 <= bsum f n.
Proof.
  induction n as [|n IH]; intros H; [rewrite bsum_0; lra|].
  rewrite bsum_S_r. specialize (H n (Nat.lt_succ_diag_r n)) as Hn.
  assert (0 <= bsum f n) by (apply IH; intros k Hk; apply H; lia). lra.
Qed.

Lemma bsum_pos (f : nat -> R) (n k : nat) :
  (forall l, (l < n)%nat -> 0 <= f l) -> (k < n)%nat -> 0 < f k ->
  0 < bsum f n.
Proof.
  induction n as [|n IH]; intros H Hk Hpos; [lia|].
  rewrite bsum_S_r.
  assert (Hn : 0 <= f n) by (apply H; lia).
  assert (Hs : 0 <= bsum f n) by (apply bsum_nonneg; intros l Hl; apply H; lia).
  destruct (Nat.eq_dec k n) as [->|Hne]; [lra|].
  assert (0 < bsum f n) by (apply IH; [intros l Hl; apply H; lia | lia | exact Hpos]).
  lra.
Qed.

Lemma bsum_prod (f g : nat -> R) (n m : nat) :
  bsum f n * bsum g m = bsum (fun i => bsum (fun j => f i * g j) m) n.
Proof.
  rewrite Rmult_comm, <- bsum_scale. apply bsum_ext. intros i _.
  now rewrite bsum_scale, Rmult_comm.
Qed.

(** The quadratic form of [diag s + F^T diag w F] is a weighted sum of
    squares. *)
Lemma quadratic_form_sum_of_squares (n r : nat) (s w x : nat -> R)
  (Fm : nat -> nat -> R) :
  bsum (fun i => bsum (fun j =>
          x i * ((if (i =? j)%nat then s i else 0)
                 + bsum (fun c => Fm c i * w c * Fm c j) r) * x j) n) n
  = bsum (fun i => s i * (x i * x i)) n
    + bsum (fun c => w c * (bsum (fun i => Fm c i * x i) n
                            * bsum (fun i => Fm c i * x i) n)) r.
Proof.
  rewrite (bsum_ext _
    (fun i => s i * (x i * x i)
              + bsum (fun c => bsum (fun j =>
                        w c * ((Fm c i * x i) * (Fm c j * x j))) n) r)).
  - rewrite bsum_plus. f_equal. rewrite bsum_exchange.
    apply bsum_ext. intros c _. rewrite bsum_prod, <- bsum_scale.
    apply bsum_ext. intros i _. now rewrite bsum_scale.
  - intros i Hi.
    rewrite (bsum_ext _
      (fun j => (if (i =? j)%nat then 1 else 0) * (x i * s i * x j)
                + bsum (fun c => w c * ((Fm c i * x i) * (Fm c j * x j))) r)).
    + rewrite bsum_plus, bsum_delta by assumption.
      rewrite bsum_exchange. lra.
    + intros j _.
      replace (x i * ((if (i =? j)%nat then s i else 0)
                      + bsum (fun c => Fm c i * w c * Fm c j) r) * x j)
        with ((if (i =? j)%nat then 1 else 0) * (x i * s i * x j)
              + (x i * x j) * bsum (fun c => Fm c i * w c * Fm c j) r)
        by (destruct (i =? j)%nat; ring).
      f_equal. rewrite <- bsum_scale. apply bsum_ext. intros c _. ring.
Qed.

Lemma Ni_r_nonneg (N : Z) (Ni : vec) (fsel : option (list Z)) (c : nat) :
  length (gibbs_fsel N fsel) = length Ni ->
  (forall v, In v Ni -> 0 <= v) ->
  0 <= nth c (Ni_r N Ni fsel) 0.
Proof.
  intros Hlen Hnn.
  destruct (Nat.lt_ge_cases c (2 * length Ni)) as [Hc|Hc].
  2:{ rewrite nth_overflow by now rewrite Ni_r_length. lra. }
  assert (Hk : (c / 2 < length Ni)%nat)
    by (apply Nat.Div0.div_lt_upper_bound; lia).
  assert (Hv : 0 <= nth (c / 2) Ni 0) by (apply Hnn; now apply nth_In).
  assert (Hd : 0 <= nth (c / 2) Ni 0 / sqrt 2)
    by (apply Rdiv_nonneg; [exact Hv | apply sqrt_pos]).
  destruct (nat_even_odd_cases c) as [E|E]; rewrite E.
  - rewrite Ni_r_even_entry by assumption.
    now destruct (is_real_freq _ _).
  - rewrite Ni_r_odd_entry by assumption.
    destruct (is_real_freq _ _); [lra | exact Hd].
Qed.

Lemma gibbs_F_length (N : Z) (window : bool) (fsel : option (list Z))
  (F : matrix) :
  gibbs_F N window fsel = Ok F ->
  length F = (2 * length (gibbs_fsel N fsel))%nat.
Proof.
  unfold gibbs_F, gibbs_window. rewrite window_nuttall_ok. cbn [bind].
  pose proof (r2c_length N (Some (gibbs_fsel N fsel))) as Hr.
  cbn [channels] in Hr.
  destruct (N <? 0)%Z; [discriminate|].
  destruct window; intros H; inversion H; [|exact Hr].
  unfold scale_rows.
  rewrite zipWith_length, repeat2_length, !length_map. lia.
Qed.

(** *** The draws of the sampler *)




Lemma get_mat_add (A B : matrix) (i j : nat) :
  (i < length A)%nat -> (i < length B)%nat ->
  (j < length (nth i A []))%nat -> (j < length (nth i B []))%nat ->
  get (mat_add A B) i j = get A i j + get B i j.
Proof.
  intros HA HB HrA HrB. unfold get, mat_add.
  rewrite (nth_zipWith (zipWith Rplus) [] [] []) by assumption.
  now rewrite (nth_zipWith Rplus 0 0 0) by assumption.
Qed.

Lemma nth_mat_mul_to (m : nat) (A B : matrix) (i : nat) :
  (i < length A)%nat ->
  nth i (mat_mul_to m A B) []
  = map (fun j => dot (nth i A []) (col j B)) (seq 0 m).
Proof.
  intros Hi. unfold mat_mul_to.
  rewrite (nth_indep _ []
             (map (fun j => dot [] (col j B)) (seq 0 m)))
    by now rewrite length_map.
  now rewrite (map_nth (fun row => map (fun j => dot row (col j B))
                                     (seq 0 m)) A [] i).
Qed.

Lemma get_mat_mul_to (m : nat) (A B : matrix) (i j : nat) :
  (i < length A)%nat -> (j < m)%nat ->
  length (nth i A []) = length B ->
  get (mat_mul_to m A B) i j
  = bsum (fun c => get A i c * get B c j) (length B).
Proof.
  intros Hi Hj Hlen. unfold get at 1. rewrite nth_mat_mul_to by assumption.
  rewrite (nth_indep _ 0 (dot (nth i A []) (col 0 B)))
    by now rewrite length_map, length_seq.
  rewrite (map_nth (fun j => dot (nth i A []) (col j B)) (seq 0 m) 0%nat j).
  rewrite seq_nth by assumption. cbn [Nat.add].
  rewrite dot_bsum by now rewrite col_length.
  rewrite Hlen. apply bsum_ext. intros c _. now rewrite nth_col.
Qed.

Lemma nth_FTNi (N : Z) (Ni : vec) (fsel : option (list Z)) (F : matrix)
  (i : nat) :
  (i < Z.to_nat N)%nat ->
  nth i (FTNi N Ni fsel F) [] = zipWith Rmult (col i F) (Ni_r N Ni fsel).
Proof.
  intros Hi. unfold FTNi, scale_cols, transpose. rewrite map_map.
  rewrite (nth_indep _ [] (zipWith Rmult (col 0 F) (Ni_r N Ni fsel)))
    by now rewrite length_map, length_seq.
  rewrite (map_nth (fun j => zipWith Rmult (col j F) (Ni_r N Ni fsel))
             (seq 0 (Z.to_nat N)) 0%nat i).
  now rewrite seq_nth by assumption.
Qed.

Lemma FTNi_length (N : Z) (Ni : vec) (fsel : option (list Z)) (F : matrix) :
  length (FTNi N Ni fsel F) = Z.to_nat N.
Proof. unfold FTNi, scale_cols, transpose. now rewrite !length_map, length_seq. Qed.

(** Entry [(i, j)] of the matrix [Ci] handed to the solver. *)
Lemma wiener_matrix_entry (N : Z) (Ni : vec) (fsel : option (list Z))
  (F dat : matrix) (S : vec) (rnd : rng_draw) (i j : nat) :
  length F = length (Ni_r N Ni fsel) ->
  length S = Z.to_nat N ->
  (i < Z.to_nat N)%nat -> (j < Z.to_nat N)%nat ->
  get (fst (wiener_system N Ni fsel F dat S rnd)) i j
  = (if (i =? j)%nat then 1 / nth i S 0 else 0)
    + bsum (fun c => get F c i * nth c (Ni_r N Ni fsel) 0 * get F c j)
        (length F).
Proof.
  intros HF HS Hi Hj. unfold wiener_system. cbn [fst].
  assert (Hrow : length (nth i (FTNi N Ni fsel F) []) = length F).
  { rewrite nth_FTNi by assumption.
    rewrite zipWith_length, col_length. lia. }
  rewrite get_mat_add.
  - f_equal.
    + unfold diag. rewrite length_map, HS.
      rewrite get_mk_matrix by assumption.
      destruct (i =? j)%nat; [|reflexivity].
      rewrite (nth_indep _ 0 (1 / 0)) by (rewrite length_map; lia).
      now rewrite (map_nth (fun s => 1 / s) S 0 i).
    + unfold FTNiF. rewrite get_mat_mul_to
        by (rewrite ?FTNi_length; assumption).
      apply bsum_ext. intros c Hc. f_equal.
      unfold get at 1. rewrite nth_FTNi by assumption.
      rewrite (nth_zipWith Rmult 0 0 0) by (rewrite ?col_length; lia).
      now rewrite nth_col.
  - unfold diag. rewrite mk_matrix_length, length_map. lia.
  - unfold FTNiF, mat_mul_to. now rewrite length_map, FTNi_length.
  - unfold diag. rewrite nth_mk_matrix by (rewrite length_map; lia).
    rewrite length_map, length_seq, length_map. lia.
  - unfold FTNiF. rewrite nth_mat_mul_to by now rewrite FTNi_length.
    now rewrite length_map, length_seq.
Qed.

(** [X9] The matrix the sampler hands to the solver with [sym_pos=True]
    is symmetric, and it is positive definite as soon as the current
    spectrum is positive and the inverse noise is not negative. *)
Theorem wiener_matrix_symmetric_positive_definite
  (N : Z) (Ni : vec) (window : bool) (fsel : option (list Z))
  (F dat : matrix) (S : vec) (rnd : rng_draw) :
  gibbs_F N window fsel = Ok F ->
  length (gibbs_fsel N fsel) = length Ni ->
  length S = Z.to_nat N ->
  let Ci := fst (wiener_system N Ni fsel F dat S rnd) in
  let n := Z.to_nat N in
  (forall i j, (i < n)%nat -> (j < n)%nat -> get Ci i j = get Ci j i)
  /\ ((forall s, In s S -> 0 < s) -> (forall v, In v Ni -> 0 <= v) ->
      forall x : vec,
        (exists i, (i < n)%nat /\ nth i x 0 <> 0) ->
        0 < bsum (fun i => bsum (fun j =>
                    nth i x 0 * get Ci i j * nth j x 0) n) n).
Proof.
  intros HF Hlen HS Ci n.
  assert (HFl : length F = length (Ni_r N Ni fsel))
    by (rewrite (gibbs_F_length _ _ _ _ HF), Ni_r_length; lia).
  split.
  - intros i j Hi Hj. unfold Ci.
    rewrite !wiener_matrix_entry by assumption.
    rewrite (Nat.eqb_sym j i). f_equal.
    + destruct (i =? j)%nat eqn:E; [|reflexivity].
      apply Nat.eqb_eq in E. now subst.
    + apply bsum_ext. intros c _. ring.
  - intros Hpos Hnn x (k & Hk & Hxk).
    rewrite (bsum_ext _
      (fun i => bsum (fun j =>
         nth i x 0 * ((if (i =? j)%nat then 1 / nth i S 0 else 0)
                      + bsum (fun c => get F c i * nth c (Ni_r N Ni fsel) 0
                                       * get F c j) (length F))
         * nth j x 0) n)).
    2:{ intros i Hi. apply bsum_ext. intros j Hj. unfold Ci.
        now rewrite wiener_matrix_entry by assumption. }
    rewrite (quadratic_form_sum_of_squares n (length F)
               (fun i => 1 / nth i S 0) (fun c => nth c (Ni_r N Ni fsel) 0)
               (fun i => nth i x 0) (fun c i => get F c i)).
    assert (HSi : forall i, (i < n)%nat -> 0 < 1 / nth i S 0).
    { intros i Hi. apply Rdiv_lt_0_compat; [lra|].
      apply Hpos. apply nth_In. unfold n in Hi. lia. }
    assert (H1 : 0 < bsum (fun i => 1 / nth i S 0
                                    * (nth i x 0 * nth i x 0)) n).
    { apply (bsum_pos _ n k); [|exact Hk|].
      - intros l Hl. specialize (HSi l Hl).
        pose proof (Rle_0_sqr (nth l x 0)) as Hsq. unfold Rsqr in Hsq. nra.
      - specialize (HSi k Hk).
        assert (0 < nth k x 0 * nth k x 0) by nra. nra. }
    assert (H2 : 0 <= bsum (fun c => nth c (Ni_r N Ni fsel) 0
                   * (bsum (fun i => get F c i * nth i x 0) n
                      * bsum (fun i => get F c i * nth i x 0) n))
                   (length F)).
    { apply bsum_nonneg. intros c _.
      pose proof (Ni_r_nonneg N Ni fsel c Hlen Hnn) as Hw.
      pose proof (Rle_0_sqr (bsum (fun i => get F c i * nth i x 0) n)) as Hsq.
      unfold Rsqr in Hsq. nra. }
    lra.
Qed.

Lemma wiener_matrix_symmetric_positive_definite_witness :
  0 < bsum (fun i => bsum (fun j =>
              nth i [1; 0] 0
              * get (fst (wiener_system 2 [1; 1] None
                            (fourier_matrix_r2c 2 (Some (gibbs_fsel 2 None)))
                            [] [10; 10] (example_rng 0))) i j
              * nth j [1; 0] 0) 2) 2.
Proof.
  refine (proj2 (wiener_matrix_symmetric_positive_definite 2 [1; 1] false
                   None (fourier_matrix_r2c 2 (Some (gibbs_fsel 2 None))) []
                   [10; 10] (example_rng 0) eq_refl eq_refl eq_refl)
            _ _ [1; 0] _).
  - intros s [<-|[<-|[]]]; lra.
  - intros v [<-|[<-|[]]]; lra.
  - exists 0%nat. split; [simpl; lia | simpl; lra].
Defined.

(** ** DelaySpectrumEstimator: the delay axis and the frequency structure *)

Lemma frequency_structure_even (self : DelaySpectrumEstimator) (freq : vec)
  (ci : list Z) (fs : R) (nd : Z) :
  frequency_structure self freq = Ok (ci, fs, nd) ->
  exists nf, nd = (2 * (nf - 1))%Z.
Proof.
  unfold frequency_structure.
  destruct (match freq_zero self with
            | None => first_item freq | Some z => Ok z end) as [fz|e];
    cbn [bind]; [|discriminate].
  destruct (match freq_spacing self with
            | None => vmin (map Rabs (diff freq)) | Some s => Ok s end)
    as [fs'|e]; cbn [bind]; [|discriminate].
  match goal with
  | |- context [bind ?r _] => destruct r as [nf|e]
  end; cbn [bind]; [|discriminate].
  intros H. inversion H. now exists nf.
Qed.

Lemma estimator_process_delay (solve : matrix -> matrix -> result matrix)
  (rng : nat -> nat -> rng_draw) (self : DelaySpectrumEstimator)
  (freq : vec) (sk : stokes) (ds : DelaySpectrum) :
  fst (DelaySpectrumEstimator_process solve rng self freq sk) = Ok ds ->
  exists ci fs nd fr,
    frequency_structure self freq = Ok (ci, fs, nd)
    /\ fftfreq nd fs = Ok fr
    /\ delay ds = fftshift fr.
Proof.
  unfold DelaySpectrumEstimator_process.
  destruct (frequency_structure self freq) as [[[ci fs] nd]|e] eqn:Hfs;
    [|discriminate].
  destruct (fftfreq nd fs) as [fr|e] eqn:Hfr; [|discriminate].
  destruct (estimate_baselines _ _ _ _ _ _ _ _ _ _) as [[rows|e] calls];
    [|discriminate].
  cbn [fst]. intros H. inversion H. cbn [delay]. now exists ci, fs, nd, fr.
Qed.

(** [fftshift(fftfreq(2 m, d))] runs over [(i - m) / (2 m d)]. *)
Lemma fftshift_fftfreq (m : nat) (d : R) (fr : vec) (i : nat) :
  (1 <= m)%nat ->
  fftfreq (Z.of_nat (2 * m)) d = Ok fr ->
  (i < 2 * m)%nat ->
  length fr = (2 * m)%nat
  /\ nth i (fftshift fr) 0
     = (INR i - INR m) * (1 / (IZR (Z.of_nat (2 * m)) * d)).
Proof.
  intros Hm Hfr Hi. remember (Z.of_nat (2 * m)) as n eqn:Hn.
  unfold fftfreq in Hfr.
  destruct (Req_dec_T _ 0) as [|_]; [discriminate|].
  destruct (n <? 0)%Z; [discriminate|].
  cbv zeta in Hfr. inversion Hfr as [Hdef]. clear Hfr Hdef fr.
  set (val := 1 / (IZR n * d)).
  set (g := fun j : Z =>
              IZR (if (j <? (n - 1) / 2 + 1)%Z then j else j - n) * val).
  assert (Hlen : length (map g (arange n)) = (2 * m)%nat)
    by (rewrite length_map, arange_length; lia).
  split; [exact Hlen|].
  assert (Hg : forall k, (k < 2 * m)%nat ->
            nth k (map g (arange n)) 0 = g (Z.of_nat k)).
  { intros k Hk.
    rewrite (nth_indep _ 0 (g 0%Z)) by (rewrite Hlen; lia).
    rewrite (map_nth g (arange n) 0%Z k).
    now rewrite nth_arange by lia. }
  assert (Hhalf : ((n - 1) / 2 + 1 = Z.of_nat m)%Z).
  { replace (n - 1)%Z with (1 + (Z.of_nat m - 1) * 2)%Z by lia.
    rewrite Z.div_add by lia. change (1 / 2)%Z with 0%Z. lia. }
  assert (HnR : IZR n = 2 * INR m).
  { rewrite Hn, <- INR_IZR_INZ, mult_INR. simpl INR. lra. }
  unfold fftshift. rewrite Hlen.
  replace (2 * m / 2)%nat with m by (symmetry; apply half_of_even).
  replace (2 * m - m)%nat with m by lia.
  destruct (Nat.lt_ge_cases i m) as [Hlt|Hge].
  - rewrite app_nth1 by (rewrite length_skipn, Hlen; lia).
    rewrite nth_skipn, Hg by lia. unfold g. rewrite Hhalf.
    replace (Z.of_nat (m + i) <? Z.of_nat m)%Z with false
      by (symmetry; apply Z.ltb_ge; lia).
    f_equal. rewrite minus_IZR, HnR, <- INR_IZR_INZ, plus_INR. lra.
  - rewrite app_nth2 by (rewrite length_skipn, Hlen; lia).
    rewrite length_skipn, Hlen.
    replace (i - (2 * m - m))%nat with (i - m)%nat by lia.
    rewrite nth_firstn.
    replace (i - m <? m)%nat with true by (symmetry; apply Nat.ltb_lt; lia).
    rewrite Hg by lia. unfold g. rewrite Hhalf.
    replace (Z.of_nat (i - m) <? Z.of_nat m)%Z with true
      by (symmetry; apply Z.ltb_lt; lia).
    f_equal. rewrite <- INR_IZR_INZ, minus_INR by lia. reflexivity.
Qed.

(** [X10] The delay axis of a spectrum the task returns: it has an even,
    positive number of samples [ndelay], sample [i] is
    [(i - ndelay/2) / (ndelay * freq_spacing)], so the axis is centred on
    zero delay at index [ndelay/2]. *)
Theorem estimator_delay_axis (solve : matrix -> matrix -> result matrix)
  (rng : nat -> nat -> rng_draw) (self : DelaySpectrumEstimator)
  (freq : vec) (sk : stokes) (ds : DelaySpectrum) :
  fst (DelaySpectrumEstimator_process solve rng self freq sk) = Ok ds ->
  exists ci fs nd,
    frequency_structure self freq = Ok (ci, fs, nd)
    /\ (0 < nd)%Z /\ Z.even nd = true
    /\ length (delay ds) = Z.to_nat nd
    /\ (forall i, (i < Z.to_nat nd)%nat ->
          nth i (delay ds) 0
          = (INR i - IZR nd / 2) * (1 / (IZR nd * fs)))
    /\ nth (Z.to_nat (nd / 2)) (delay ds) 0 = 0.
Proof.
  intros Hok.
  destruct (estimator_process_delay _ _ _ _ _ _ Hok)
    as (ci & fs & nd & fr & Hfs & Hfr & Hd).
  destruct (frequency_structure_even _ _ _ _ _ Hfs) as [nf Hnd].
  assert (Hpos : (0 < nd)%Z).
  { unfold fftfreq in Hfr.
    destruct (Req_dec_T (IZR nd * fs) 0) as [|Hne]; [discriminate|].
    destruct (nd <? 0)%Z eqn:Hneg; [discriminate|].
    apply Z.ltb_ge in Hneg.
    destruct (Z.eq_dec nd 0) as [->|]; [|lia].
    exfalso. apply Hne. simpl. lra. }
  set (m := Z.to_nat (nf - 1)).
  assert (Hm : (1 <= m)%nat) by (unfold m; lia).
  assert (Hnd' : nd = Z.of_nat (2 * m)) by (unfold m; lia).
  assert (Hhalf : IZR nd / 2 = INR m).
  { rewrite Hnd', <- INR_IZR_INZ, mult_INR. simpl INR. lra. }
  assert (Hn : Z.to_nat nd = (2 * m)%nat) by lia.
  assert (Hall : forall i, (i < Z.to_nat nd)%nat ->
            nth i (delay ds) 0 = (INR i - IZR nd / 2) * (1 / (IZR nd * fs))).
  { intros i Hi. rewrite Hd, Hhalf. rewrite Hn in Hi.
    rewrite Hnd' in Hfr |- *.
    now apply (fftshift_fftfreq m fs fr i Hm Hfr). }
  exists ci, fs, nd. split; [exact Hfs|]. split; [exact Hpos|].
  split; [rewrite Hnd, Z.even_mul; reflexivity|].
  split.
  { rewrite Hd, fftshift_length, Hn. rewrite Hnd' in Hfr.
    apply (fftshift_fftfreq m fs fr 0 Hm Hfr). lia. }
  split; [exact Hall|].
  rewrite Hall.
  - replace (Z.to_nat (nd / 2)) with m.
    + rewrite Hhalf. lra.
    + rewrite Hnd'. replace (Z.of_nat (2 * m)) with (Z.of_nat m * 2)%Z by lia.
      rewrite Z.div_mul by lia. lia.
  - apply Z2Nat.inj_lt; try lia.
    + apply Z.div_pos; lia.
    + apply Z.div_lt; lia.
Qed.

Lemma estimator_delay_axis_witness :
  exists ds ci fs nd,
    fst (DelaySpectrumEstimator_process solve_2x2 (fun _ => pair_rng)
           (example_estimator 20) [0; 1] pair_stokes) = Ok ds
    /\ frequency_structure (example_estimator 20) [0; 1] = Ok (ci, fs, nd)
    /\ nth (Z.to_nat (nd / 2)) (delay ds) 0 = 0.
Proof.
  destruct (pair_process_returns 20 ltac:(lia)) as [ds [Hds _]].
  destruct (estimator_delay_axis solve_2x2 (fun _ => pair_rng)
              (example_estimator 20) [0; 1] pair_stokes ds Hds)
    as (ci & fs & nd & Hfs & _ & _ & _ & _ & Hzero).
  exists ds, ci, fs, nd. repeat split; assumption.
Defined.

Lemma diff_map_seq (g : nat -> R) (n s : nat) :
  diff (map g (seq s (S n))) = map (fun k => g (S k) - g k) (seq s n).
Proof.
  revert s. induction n as [|n IH]; intros s; [reflexivity|].
  specialize (IH (S s)). cbn [seq map] in IH |- *. cbn [diff].
  now rewrite <- IH.
Qed.

Lemma fold_left_Rmin_const (x : R) (l : vec) :
  (forall y, In y l -> y = x) -> fold_left Rmin l x = x.
Proof.
  induction l as [|y l IH]; intros H; [reflexivity|].
  cbn [fold_left]. rewrite (H y) by now left.
  unfold Rmin at 2. destruct (Rle_dec x x); apply IH; intros z Hz;
    apply H; now right.
Qed.

Lemma vmin_const (x : R) (l : vec) :
  l <> [] -> (forall y, In y l -> y = x) -> vmin l = Ok x.
Proof.
  destruct l as [|y l]; [congruence|]. intros _ H. cbn [vmin].
  rewrite (H y) by now left. f_equal. apply fold_left_Rmin_const.
  intros z Hz. apply H. now right.
Qed.

Lemma last_item_seq (n : nat) :
  last_item (map Z.of_nat (seq 0 (S n))) = Ok (Z.of_nat n).
Proof.
  unfold last_item. rewrite seq_S, map_app, rev_app_distr. reflexivity.
Qed.

(** [X11] On a regular frequency axis [f0 + k * df], [k = 0 .. n - 1],
    rising or falling, a task with nothing configured finds channel [k] at
    index [k], the spacing [|df|], and [2 n] delay samples when the
    Nyquist channel is taken to be missing, [2 (n - 1)] otherwise. *)
Theorem frequency_structure_regular_grid (self : DelaySpectrumEstimator)
  (f0 df : R) (n : nat) :
  freq_zero self = None -> freq_spacing self = None -> nfreq self = None ->
  (2 <= n)%nat -> df <> 0 ->
  frequency_structure self (map (fun k => f0 + INR k * df) (seq 0 n))
  = Ok (map Z.of_nat (seq 0 n), Rabs df,
        if skip_nyquist self then (2 * Z.of_nat n)%Z
        else (2 * (Z.of_nat n - 1))%Z).
Proof.
  intros Hz Hs Hn Hn2 Hdf. unfold frequency_structure.
  rewrite Hz, Hs, Hn.
  destruct n as [|n]; [lia|]. destruct n as [|n]; [lia|].
  assert (Habs : 0 < Rabs df) by now apply Rabs_pos_lt.
  rewrite diff_map_seq.
  rewrite (vmin_const (Rabs df)).
  2:{ cbn [seq map]. discriminate. }
  2:{ intros y Hy. apply in_map_iff in Hy. destruct Hy as (d & <- & Hd).
      apply in_map_iff in Hd. destruct Hd as (k & <- & _).
      f_equal. rewrite S_INR. ring. }
  change (first_item (map (fun k => f0 + INR k * df) (seq 0 (S (S n)))))
    with (Ok (f0 + INR 0 * df)).
  cbn [bind]. rewrite map_map.
  rewrite (map_ext _ Z.of_nat).
  2:{ intros k.
      replace (Rabs (f0 + INR k * df - (f0 + INR 0 * df)) / Rabs df)
        with (IZR (Z.of_nat k)).
      - apply trunc_IZR. lia.
      - rewrite <- INR_IZR_INZ.
        replace (f0 + INR k * df - (f0 + INR 0 * df)) with (INR k * df)
          by (simpl INR; ring).
        rewrite Rabs_mult, (Rabs_pos_eq (INR k)) by apply pos_INR.
        field. lra. }
  rewrite last_item_seq. cbn [bind]. f_equal. f_equal.
  destruct (skip_nyquist self); lia.
Qed.

Lemma frequency_structure_regular_grid_witness :
  frequency_structure default_estimator
    (map (fun k => 800 + INR k * (-25)) (seq 0 4))
  = Ok (map Z.of_nat (seq 0 4), Rabs (-25),
        if skip_nyquist default_estimator then (2 * Z.of_nat 4)%Z
        else (2 * (Z.of_nat 4 - 1))%Z).
Proof.
  apply (frequency_structure_regular_grid default_estimator 800 (-25) 4);
    try reflexivity; [lia | lra].
Defined.

(** [X12] The task remembers the frequency structure of its first stream:
    the attributes it keeps give the same spacing and number of delays on
    every later frequency axis, measure the channel indices from the first
    stream's zero frequency, cannot raise, and stay as they are. *)
Theorem frequency_structure_frozen (self self' : DelaySpectrumEstimator)
  (freq : vec) :
  frequency_structure_kept self freq = Ok self' ->
  exists ci fz fs nd,
    frequency_structure self freq = Ok (ci, fs, nd)
    /\ freq_zero self' = Some fz
    /\ forall freq',
         frequency_structure self' freq'
         = Ok (map (fun f => trunc (Rabs (f - fz) / fs)) freq', fs, nd)
         /\ frequency_structure_kept self' freq' = Ok self'.
Proof.
  unfold frequency_structure_kept, frequency_structure.
  destruct (match freq_zero self with
            | None => first_item freq | Some z => Ok z end) as [fz|e];
    cbn [bind]; [|discriminate].
  destruct (match freq_spacing self with
            | None => vmin (map Rabs (diff freq)) | Some s => Ok s end)
    as [fs|e]; cbn [bind]; [|discriminate].
  match goal with
  | |- context [bind ?r _] => destruct r as [nf|e]
  end; cbn [bind]; [|discriminate].
  intros H. inversion H. subst self'. clear H.
  eexists _, fz, fs, _. split; [reflexivity|]. split; [reflexivity|].
  intros freq'. cbn [freq_zero freq_spacing nfreq nsamp skip_nyquist bind].
  split; reflexivity.
Qed.

Lemma frequency_structure_frozen_witness :
  exists self' ci fz fs nd,
    frequency_structure_kept (example_estimator 20) [0; 1] = Ok self'
    /\ frequency_structure (example_estimator 20) [0; 1] = Ok (ci, fs, nd)
    /\ frequency_structure self' [] = Ok ([], fs, nd)
    /\ freq_zero self' = Some fz.
Proof.
  destruct (frequency_structure_frozen (example_estimator 20)
              (example_estimator 20) [0; 1] eq_refl)
    as (ci & fz & fs & nd & Hfs & Hfz & Hlater).
  exists (example_estimator 20), ci, fz, fs, nd.
  split; [reflexivity|]. split; [exact Hfs|].
  split; [exact (proj1 (Hlater []))|exact Hfz].
Defined.

(** [X13] A frequency axis too short to take the structure from: with no
    spacing configured, an empty axis raises [IndexError] when no zero
    frequency is configured either and [ValueError] otherwise, an axis of
    one channel raises [ValueError]; the sampler is not run. *)
Theorem estimator_short_axis_raises
  (solve : matrix -> matrix -> result matrix)
  (rng : nat -> nat -> rng_draw) (self : DelaySpectrumEstimator)
  (freq : vec) (sk : stokes) :
  freq_spacing self = None -> (length freq <= 1)%nat ->
  exists msg,
    DelaySpectrumEstimator_process solve rng self freq sk
    = (Raise (match freq, freq_zero self with
              | [], None => IndexError msg
              | _, _ => ValueError msg
              end), []).
Proof.
  intros Hs Hlen. unfold DelaySpectrumEstimator_process, frequency_structure.
  rewrite Hs.
  destruct freq as [|f [|g freq]]; [| |cbn [length] in Hlen; lia].
  - destruct (freq_zero self) as [z|]; cbn; now eexists.
  - destruct (freq_zero self) as [z|]; cbn; now eexists.
Qed.

Lemma estimator_short_axis_raises_witness :
  exists msg,
    DelaySpectrumEstimator_process example_solve (fun _ => example_rng)
      default_estimator [800] example_stokes
    = (Raise (ValueError msg), []).
Proof.
  apply (estimator_short_axis_raises example_solve (fun _ => example_rng)
           default_estimator [800] example_stokes eq_refl).
  simpl. lia.
Defined.

(** ** DelaySpectrumEstimator: which baselines are sampled, and failures *)

Lemma estimate_baselines_calls_exact
  (solve : matrix -> matrix -> result matrix)
  (rng : nat -> nat -> rng_draw) (self : DelaySpectrumEstimator)
  (sk : stokes) (channel_ind : list Z) (ndelay : Z) (initial_S : vec)
  (bis : list nat) :
  forall rows calls rows',
    fst (estimate_baselines solve rng self sk channel_ind ndelay initial_S
           bis rows calls) = Ok rows' ->
    snd (estimate_baselines solve rng self sk channel_ind ndelay initial_S
           bis rows calls)
    = calls ++ filter (fun bi => negb (all_zero (baseline_data sk bi))) bis.
Proof.
  induction bis as [|b bis IH]; intros rows calls rows'; simpl.
  - intros _. now rewrite app_nil_r.
  - fold (baseline_data sk b).
    destruct (all_zero (baseline_data sk b)) eqn:Hz; cbn [negb].
    + apply IH.
    + destruct (delay_spectrum_gibbs solve (baseline_data sk b) ndelay _
                  true (Some channel_ind) (rng b) initial_S (nsamp self))
        as [spec|e]; simpl; [|discriminate].
      destruct (py_slice_from (- (nsamp self / 2)) spec) as [|draw draws];
        simpl; [discriminate|].
      intros H. rewrite (IH _ _ _ H). now rewrite <- app_assoc.
Qed.

(** [X14] When the task returns, the sampler has been run exactly once on
    every baseline whose data are not all zero, in the order of the
    baselines, and on no other. *)
Theorem estimator_samples_nonzero_baselines
  (solve : matrix -> matrix -> result matrix)
  (rng : nat -> nat -> rng_draw) (self : DelaySpectrumEstimator)
  (freq : vec) (sk : stokes) (ds : DelaySpectrum) :
  fst (DelaySpectrumEstimator_process solve rng self freq sk) = Ok ds ->
  snd (DelaySpectrumEstimator_process solve rng self freq sk)
  = filter (fun bi => negb (all_zero (baseline_data sk bi)))
      (seq 0 (length (baselines sk))).
Proof.
  unfold DelaySpectrumEstimator_process.
  destruct (frequency_structure self freq) as [[[ci fs] nd]|e];
    [|discriminate].
  destruct (fftfreq nd fs) as [fr|e]; [|discriminate].
  match goal with
  | |- context [estimate_baselines ?s ?r ?sf ?k ?c ?n ?i ?b ?rw ?cl] =>
      pose proof (estimate_baselines_calls_exact s r sf k c n i b rw cl)
        as Hc;
      destruct (estimate_baselines s r sf k c n i b rw cl)
        as [[rows|e] calls]
  end; cbn [fst snd] in *; [|discriminate].
  intros _. exact (Hc rows eq_refl).
Qed.

Lemma estimator_samples_nonzero_baselines_witness :
  snd (DelaySpectrumEstimator_process solve_2x2 (fun _ => pair_rng)
         (example_estimator 20) [0; 1] pair_stokes)
  = filter (fun bi => negb (all_zero (baseline_data pair_stokes bi)))
      (seq 0 (length (baselines pair_stokes))).
Proof.
  destruct (pair_process_returns 20 ltac:(lia)) as [ds [Hds _]].
  exact (estimator_samples_nonzero_baselines solve_2x2
           (fun _ => pair_rng) (example_estimator 20) [0; 1]
           pair_stokes ds Hds).
Defined.

Lemma estimate_baselines_skip_zero
  (solve : matrix -> matrix -> result matrix)
  (rng : nat -> nat -> rng_draw) (self : DelaySpectrumEstimator)
  (sk : stokes) (channel_ind : list Z) (ndelay : Z) (initial_S : vec)
  (bis rest : list nat) :
  (forall b, In b bis -> all_zero (baseline_data sk b) = true) ->
  forall rows calls,
    estimate_baselines solve rng self sk channel_ind ndelay initial_S
      (bis ++ rest) rows calls
    = estimate_baselines solve rng self sk channel_ind ndelay initial_S
        rest rows calls.
Proof.
  induction bis as [|b bis IH]; intros Hz rows calls; [reflexivity|].
  cbn [app estimate_baselines]. fold (baseline_data sk b).
  rewrite (Hz b) by now left. apply IH. intros b' Hb'. apply Hz. now right.
Qed.

(** A solver that always raises ends the sampler at its first draw, once
    the arrays have passed the checks made before the solver is called. *)
Lemma gibbs_solver_failure (solve : matrix -> matrix -> result matrix)
  (data : cmatrix) (N : Z) (Ni : vec) (window : bool)
  (fsel : option (list Z)) (rng : nat -> rng_draw) (initial_S : vec)
  (niter : Z) (e : exn) (F dat : matrix) :
  gibbs_F N window fsel = Ok F ->
  gibbs_data data N window fsel = Ok dat ->
  length Ni = length (gibbs_fsel N fsel) ->
  length initial_S = Z.to_nat N -> length F = length dat ->
  (forall s, In s initial_S -> 0 < s) ->
  (forall ni, In ni (Ni_r N Ni fsel) -> 0 <= ni) ->
  (forall Ci y, solve Ci y = Raise e) -> (0 < niter)%Z ->
  delay_spectrum_gibbs solve data N Ni window fsel rng initial_S niter
  = Raise e.
Proof.
  intros HF Hdat HNi HS Hlen Hpos Hni Hs Hn. unfold delay_spectrum_gibbs.
  rewrite HF, Hdat. unfold gibbs_noise. rewrite HNi, Nat.eqb_refl.
  cbn [bind].
  destruct (Z.to_nat niter) as [|n] eqn:E; [lia|].
  cbn [gibbs_loop].
  rewrite (draw_signal_sample_solves solve N Ni fsel F dat initial_S (rng 0%nat)
             HS Hlen Hpos Hni).
  now rewrite Hs.
Qed.

(** [X15] An exception of the sampler ends the task: when the run on the
    first baseline with data that are not all zero raises, the task raises
    the same exception, and the sampler has been run on that baseline
    only. *)
Theorem estimator_sampler_failure
  (solve : matrix -> matrix -> result matrix)
  (rng : nat -> nat -> rng_draw) (self : DelaySpectrumEstimator)
  (freq : vec) (sk : stokes) (ci : list Z) (fs : R) (nd : Z) (fr : vec)
  (bi : nat) (e : exn) :
  frequency_structure self freq = Ok (ci, fs, nd) ->
  fftfreq nd fs = Ok fr ->
  (bi < length (baselines sk))%nat ->
  (forall b, (b < bi)%nat -> all_zero (baseline_data sk b) = true) ->
  all_zero (baseline_data sk bi) = false ->
  baseline_gibbs solve rng self sk ci nd
    (map (fun _ => 1 * 10) (fftshift fr)) bi = Raise e ->
  DelaySpectrumEstimator_process solve rng self freq sk = (Raise e, [bi]).
Proof.
  intros Hfs Hfr Hbi Hzero Hnz Hgibbs.
  unfold DelaySpectrumEstimator_process. rewrite Hfs, Hfr. cbv zeta.
  replace (seq 0 (length (baselines sk)))
    with (seq 0 bi ++ bi :: seq (S bi) (length (baselines sk) - S bi)).
  2:{ replace (length (baselines sk))
        with (bi + S (length (baselines sk) - S bi))%nat at 2 by lia.
      rewrite seq_app. reflexivity. }
  rewrite estimate_baselines_skip_zero
    by (intros b Hb; apply in_seq in Hb; apply Hzero; lia).
  cbn [estimate_baselines]. fold (baseline_data sk bi). rewrite Hnz.
  unfold baseline_gibbs in Hgibbs. rewrite Hgibbs. reflexivity.
Qed.

Lemma estimator_sampler_failure_witness :
  DelaySpectrumEstimator_process singular_solve (fun _ => example_rng)
    (example_estimator 20) [0; 1] example_stokes
  = (Raise (LinAlgError "singular matrix"), [0%nat]).
Proof.
  apply (estimator_sampler_failure singular_solve (fun _ => example_rng)
           (example_estimator 20) [0; 1] example_stokes _ _ _ _ 0%nat _
           (example_frequency_structure 20) example_fftfreq).
  - simpl. lia.
  - intros b Hb. lia.
  - exact example_nonzero_baseline.
  - unfold baseline_gibbs.
    change (median_axis1 (nth 0 (vis_weight example_stokes) [])) with [1; 1].
    apply (gibbs_solver_failure singular_solve _ 2 [1; 1] true
             (Some [0; 1]%Z) example_rng _ _ _ _ _
             (example_F (Some [0; 1]%Z) eq_refl)
             (example_dat (Some [0; 1]%Z) eq_refl));
      try reflexivity.
    + intros s [<-|[<-|[]]]; lra.
    + apply (pair_Ni_r_nonneg (Some [0; 1]%Z) eq_refl).
Defined.

(** ** Stokes I: the unique baselines *)

Lemma complex_eqb_eq (a b : complex) : complex_eqb a b = true <-> a = b.
Proof.
  unfold complex_eqb. destruct a as [ar ai], b as [br bi]. cbn [fst snd].
  destruct (Req_dec_T ar br) as [Hr|Hr];
    [destruct (Req_dec_T ai bi) as [Hi|Hi]|]; split; intros H;
    try discriminate; try congruence; try reflexivity.
Qed.

Lemma complex_eqb_refl (a : complex) : complex_eqb a a = true.
Proof. now apply complex_eqb_eq. Qed.

Lemma complex_eqb_neq (a b : complex) : complex_eqb a b = false <-> a <> b.
Proof.
  split.
  - intros H E. apply complex_eqb_eq in E. congruence.
  - intros H. destruct (complex_eqb a b) eqn:E; [|reflexivity].
    apply complex_eqb_eq in E. contradiction.
Qed.

Lemma complex_ltb_trans (a b c : complex) :
  complex_ltb a b = true -> complex_ltb b c = true -> complex_ltb a c = true.
Proof.
  unfold complex_ltb. destruct a as [ar ai], b as [br bi], c as [cr ci].
  cbn [fst snd].
  repeat match goal with
         | |- context [Rlt_dec ?x ?y] => destruct (Rlt_dec x y)
         | |- context [Req_dec_T ?x ?y] => destruct (Req_dec_T x y)
         end; intros; try discriminate; try reflexivity; exfalso; lra.
Qed.

Lemma complex_ltb_irrefl (a : complex) : complex_ltb a a = false.
Proof.
  unfold complex_ltb.
  destruct (Rlt_dec (fst a) (fst a)); [exfalso; lra|].
  destruct (Req_dec_T (fst a) (fst a)); [|reflexivity].
  destruct (Rlt_dec (snd a) (snd a)); [exfalso; lra | reflexivity].
Qed.

Lemma complex_ltb_total (a b : complex) :
  complex_eqb a b = false -> complex_ltb a b = false ->
  complex_ltb b a = true.
Proof.
  unfold complex_eqb, complex_ltb. destruct a as [ar ai], b as [br bi].
  cbn [fst snd].
  repeat match goal with
         | |- context [Rlt_dec ?x ?y] => destruct (Rlt_dec x y)
         | |- context [Req_dec_T ?x ?y] => destruct (Req_dec_T x y)
         end; intros; try discriminate; try reflexivity; exfalso; lra.
Qed.

Lemma In_insert_unique (x y : complex) (l : list complex) :
  In y (insert_unique x l) <-> y = x \/ In y l.
Proof.
  induction l as [|z l IH]; cbn [insert_unique].
  - simpl. intuition.
  - destruct (complex_eqb x z) eqn:E.
    + apply complex_eqb_eq in E. subst z. simpl. intuition.
    + destruct (complex_ltb x z); simpl; [intuition|].
      rewrite IH. intuition.
Qed.

Lemma insert_unique_ascending (x : complex) (l : list complex) :
  ascending l -> ascending (insert_unique x l).
Proof.
  unfold ascending. induction l as [|z l IH]; intros Hs; cbn [insert_unique].
  - constructor; constructor.
  - destruct (complex_eqb x z) eqn:E; [exact Hs|].
    apply StronglySorted_inv in Hs. destruct Hs as [Hl Hz].
    destruct (complex_ltb x z) eqn:L.
    + constructor; [now constructor|]. constructor; [exact L|].
      rewrite Forall_forall in Hz |- *. intros w Hw.
      apply (complex_ltb_trans x z w L). now apply Hz.
    + constructor; [now apply IH|].
      rewrite Forall_forall in Hz |- *. intros w Hw.
      apply In_insert_unique in Hw. destruct Hw as [->|Hw].
      * now apply complex_ltb_total.
      * now apply Hz.
Qed.

Lemma ascending_NoDup (l : list complex) : ascending l -> NoDup l.
Proof.
  unfold ascending. induction 1 as [|a l Hl IH Ha]; constructor; [|exact IH].
  intros Hin. rewrite Forall_forall in Ha. specialize (Ha a Hin).
  now rewrite complex_ltb_irrefl in Ha.
Qed.

Lemma unique_ascending (a : list complex) :
  ascending (fold_right insert_unique [] a).
Proof.
  induction a as [|x a IH]; [constructor|].
  cbn [fold_right]. now apply insert_unique_ascending.
Qed.

Lemma In_unique (a : list complex) (y : complex) :
  In y (fold_right insert_unique [] a) <-> In y a.
Proof.
  induction a as [|x a IH]; [reflexivity|].
  cbn [fold_right]. rewrite In_insert_unique, IH. simpl. intuition.
Qed.

Lemma index_of_spec (x : complex) (u : list complex) :
  In x u -> (index_of x u < length u)%nat /\ nth (index_of x u) u c0 = x.
Proof.
  induction u as [|y u IH]; intros Hin; [destruct Hin|].
  cbn [index_of]. destruct (complex_eqb x y) eqn:E.
  - apply complex_eqb_eq in E. subst y. simpl. split; [lia | reflexivity].
  - destruct Hin as [->|Hin]; [now rewrite complex_eqb_refl in E|].
    destruct (IH Hin) as [Hlt Hnth]. simpl. split; [lia | exact Hnth].
Qed.

Lemma index_of_nth (u : list complex) (i : nat) :
  NoDup u -> (i < length u)%nat -> index_of (nth i u c0) u = i.
Proof.
  intros Hnd. revert i. induction Hnd as [|y u Hy Hnd IH]; intros i Hi;
    [simpl in Hi; lia|].
  destruct i as [|i]; cbn [nth index_of].
  - now rewrite complex_eqb_refl.
  - cbn [length] in Hi.
    destruct (complex_eqb (nth i u c0) y) eqn:E.
    + apply complex_eqb_eq in E. exfalso. apply Hy. rewrite <- E.
      apply nth_In. lia.
    + f_equal. apply IH. lia.
Qed.

(** ** Stokes I: the loop over the products *)

Lemma getitem_Ok {T : Type} (a : list T) (i : nat) (x d : T) :
  getitem a i = Ok x -> (i < length a)%nat /\ nth i a d = x.
Proof.
  unfold getitem. destruct (nth_error a i) as [y|] eqn:E; [|discriminate].
  intros H. inversion H. subst y. split.
  - apply nth_error_Some. congruence.
  - now apply nth_error_nth.
Qed.

Lemma nth_add_at {T : Type} (add : T -> T -> T) (i k : nat) (b d : T)
  (a : list T) :
  nth k (add_at add i b a) d
  = if (k =? i)%nat && (k <? length a)%nat then add (nth k a d) b
    else nth k a d.
Proof.
  unfold add_at.
  destruct (Nat.lt_ge_cases k (length a)) as [Hk|Hk].
  - rewrite (nth_imap _ a d d k Hk).
    rewrite (proj2 (Nat.ltb_lt k (length a)) Hk).
    now destruct (k =? i)%nat.
  - rewrite !nth_overflow by (rewrite ?imap_length; lia).
    rewrite (proj2 (Nat.ltb_ge k (length a)) Hk).
    now rewrite andb_false_r.
Qed.

Lemma add_at_length {T : Type} (add : T -> T -> T) (i : nat) (b : T)
  (a : list T) : length (add_at add i b a) = length a.
Proof. apply imap_length. Qed.

(** What the loop does to the arrays of one baseline: every product of
    that baseline with at least four products, a unique pair and equal
    beam classes is added, in the order of the products. *)
Lemma stokes_products_rows (sstream : SiderealStream) (t : tel.telescope)
  (ucount : list nat) (prods : list (nat * nat)) :
  forall acc acc',
    stokes_products sstream t ucount prods acc = Ok acc' ->
    length (fst acc') = length (fst acc)
    /\ length (snd acc') = length (snd acc)
    /\ forall ui,
         let sel := fun p : nat * nat =>
           (snd p =? ui)%nat && (4 <=? nth (snd p) ucount 0)%nat
           && copolar t (fst p) in
         nth ui (fst acc') []
         = fold_left (fun M p => if sel p
                                 then cmat_add M (nth (fst p) (vis sstream) [])
                                 else M) prods (nth ui (fst acc) [])
         /\ nth ui (snd acc') []
            = fold_left (fun M p => if sel p
                                    then mat_add M
                                           (nth (fst p) (weight sstream) [])
                                    else M) prods (nth ui (snd acc) []).
Proof.
  induction prods as [|[ii u] rest IH]; intros acc acc' H.
  - inversion H. subst acc'. repeat split; reflexivity.
  - cbn [stokes_products] in H.
    destruct (getitem ucount u) as [n|e] eqn:Hn; cbn [bind] in H;
      [|discriminate].
    destruct (getitem_Ok _ _ _ 0%nat Hn) as [_ Hn'].
    assert (Hskip : forall (sel' : bool),
              stokes_products sstream t ucount rest acc = Ok acc' ->
              (forall ui, (u =? ui)%nat && (4 <=? nth u ucount 0)%nat
                          && copolar t ii = false) ->
              length (fst acc') = length (fst acc)
              /\ length (snd acc') = length (snd acc)
              /\ forall ui,
                   let sel := fun p : nat * nat =>
                     (snd p =? ui)%nat && (4 <=? nth (snd p) ucount 0)%nat
                     && copolar t (fst p) in
                   nth ui (fst acc') []
                   = fold_left (fun M p =>
                        if sel p
                        then cmat_add M (nth (fst p) (vis sstream) [])
                        else M) ((ii, u) :: rest) (nth ui (fst acc) [])
                   /\ nth ui (snd acc') []
                      = fold_left (fun M p =>
                           if sel p
                           then mat_add M (nth (fst p) (weight sstream) [])
                           else M) ((ii, u) :: rest) (nth ui (snd acc) [])).
    { intros _ Hrest Hsel.
      destruct (IH _ _ Hrest) as (Hl1 & Hl2 & Hrows).
      split; [exact Hl1|]. split; [exact Hl2|].
      intros ui. cbn [fold_left fst snd]. rewrite (Hsel ui). apply Hrows. }
    destruct (n <? 4)%nat eqn:Hn4.
    { apply (Hskip true H). intros ui. rewrite Hn'.
      apply Nat.ltb_lt in Hn4.
      rewrite (proj2 (Nat.leb_gt 4 n)) by lia.
      now rewrite andb_false_r. }
    apply Nat.ltb_ge in Hn4.
    destruct (getitem (tel.uniquepairs t) ii) as [p|e] eqn:Hp;
      cbn [bind] in H; [|discriminate].
    destruct (getitem_Ok _ _ _ (0%nat, 0%nat) Hp) as [_ Hp'].
    destruct (getitem (tel.beamclass t) (fst p)) as [bi|e] eqn:Hbi;
      cbn [bind] in H; [|discriminate].
    destruct (getitem_Ok _ _ _ 0%Z Hbi) as [_ Hbi'].
    destruct (getitem (tel.beamclass t) (snd p)) as [bj|e] eqn:Hbj;
      cbn [bind] in H; [|discriminate].
    destruct (getitem_Ok _ _ _ 0%Z Hbj) as [_ Hbj'].
    destruct (getitem (tel.feedmap t) (fst p)) as [row|e] eqn:Hrow;
      cbn [bind] in H; [|discriminate].
    destruct (getitem_Ok _ _ _ [] Hrow) as [_ Hrow'].
    destruct (getitem row (snd p)) as [upi|e] eqn:Hupi;
      cbn [bind] in H; [|discriminate].
    destruct (getitem_Ok _ _ _ 0%Z Hupi) as [_ Hupi'].
    assert (Hco : copolar t ii = negb (upi =? -1)%Z && (bi =? bj)%Z).
    { unfold copolar. cbv zeta. now rewrite Hp', Hrow', Hupi', Hbi', Hbj'. }
    destruct (upi =? -1)%Z eqn:Hm.
    { apply (Hskip true H). intros ui. rewrite Hco.
      cbn [negb andb]. now rewrite andb_false_r. }
    destruct (bi =? bj)%Z eqn:Hb.
    2:{ apply (Hskip true H). intros ui. rewrite Hco.
        cbn [negb andb]. now rewrite andb_false_r. }
    destruct (getitem (vis sstream) ii) as [v|e] eqn:Hv;
      cbn [bind] in H; [|discriminate].
    destruct (getitem_Ok _ _ _ [] Hv) as [_ Hv'].
    destruct (getitem (weight sstream) ii) as [w|e] eqn:Hw;
      cbn [bind] in H; [|discriminate].
    destruct (getitem_Ok _ _ _ [] Hw) as [_ Hw']. subst v w.
    destruct (IH _ _ H) as (Hl1 & Hl2 & Hrows). cbn [fst snd] in Hl1, Hl2.
    rewrite add_at_length in Hl1. rewrite add_at_length in Hl2.
    split; [exact Hl1|]. split; [exact Hl2|].
    intros ui. cbn [fold_left fst snd].
    rewrite Hn', Hco. cbn [negb andb].
    rewrite (proj2 (Nat.leb_le 4 n)) by lia. rewrite !andb_true_r.
    destruct (Hrows ui) as [Hr1 Hr2]. cbn [fst snd] in Hr1, Hr2.
    rewrite Hr1, Hr2, !nth_add_at.
    rewrite (Nat.eqb_sym ui u).
    destruct (u =? ui)%nat eqn:Hu; cbn [andb]; [|split; reflexivity].
    split.
    + destruct (ui <? length (fst acc))%nat eqn:Hlt; [reflexivity|].
      apply Nat.ltb_ge in Hlt.
      now rewrite (nth_overflow (fst acc)) by exact Hlt.
    + destruct (ui <? length (snd acc))%nat eqn:Hlt; [reflexivity|].
      apply Nat.ltb_ge in Hlt.
      now rewrite (nth_overflow (snd acc)) by exact Hlt.
Qed.

Lemma fold_left_filter_map {A B : Type} (add : A -> B -> A)
  (s : nat * nat -> bool) (g : nat * nat -> B) (l : list (nat * nat)) :
  forall M0,
    fold_left (fun M p => if s p then add M (g p) else M) l M0
    = fold_left add (map g (filter s l)) M0.
Proof.
  induction l as [|p l IH]; intros M0; [reflexivity|].
  cbn [fold_left filter]. destruct (s p); [cbn [map fold_left]|]; apply IH.
Qed.

Lemma combine_seq_nth {B : Type} (d : B) (l : list B) :
  forall s,
    combine (seq s (length l)) l
    = map (fun i => (i, nth (i - s) l d)) (seq s (length l)).
Proof.
  induction l as [|x l IH]; intros s; [reflexivity|].
  cbn [length seq combine map]. rewrite Nat.sub_diag. cbn [nth].
  f_equal. rewrite IH. apply map_ext_in. intros i Hi. apply in_seq in Hi.
  replace (i - s)%nat with (S (i - S s)) by lia. reflexivity.
Qed.

Lemma filter_map_comm {A B : Type} (s : B -> bool) (h : A -> B)
  (l : list A) :
  filter s (map h l) = map h (filter (fun a => s (h a)) l).
Proof.
  induction l as [|a l IH]; [reflexivity|].
  cbn [map filter]. destruct (s (h a)); [cbn [map]; f_equal|]; exact IH.
Qed.

Lemma getitem_lt {T : Type} (a : list T) (i : nat) :
  (i < length a)%nat -> exists x, getitem a i = Ok x.
Proof.
  intros Hi. unfold getitem.
  destruct (nth_error a i) as [x|] eqn:E; [now exists x|].
  apply nth_error_None in E. lia.
Qed.

(** The loop ends without an exception when every index it uses is in
    range. *)
Lemma stokes_products_returns (sstream : SiderealStream) (t : tel.telescope)
  (ucount : list nat) (prods : list (nat * nat)) :
  (forall p, In p prods ->
     (snd p < length ucount)%nat
     /\ (fst p < length (tel.uniquepairs t))%nat
     /\ (fst p < length (vis sstream))%nat
     /\ (fst p < length (weight sstream))%nat) ->
  (forall ii, (ii < length (tel.uniquepairs t))%nat ->
     let p := nth ii (tel.uniquepairs t) (0%nat, 0%nat) in
     (fst p < length (tel.beamclass t))%nat
     /\ (snd p < length (tel.beamclass t))%nat
     /\ (fst p < length (tel.feedmap t))%nat
     /\ (snd p < length (nth (fst p) (tel.feedmap t) []))%nat) ->
  forall acc, exists acc', stokes_products sstream t ucount prods acc = Ok acc'.
Proof.
  intros Hprods Hfeeds.
  induction prods as [|[ii u] rest IH]; intros acc; [now exists acc|].
  assert (IH' : forall acc0, exists acc',
             stokes_products sstream t ucount rest acc0 = Ok acc').
  { apply IH. intros p Hp. apply Hprods. now right. }
  destruct (Hprods (ii, u) (or_introl eq_refl)) as (Hu & Hii & Hv & Hw).
  cbn [fst snd] in Hu, Hii, Hv, Hw.
  cbn [stokes_products].
  destruct (getitem_lt ucount u Hu) as [n ->]. cbn [bind].
  destruct (n <? 4)%nat; [apply IH'|].
  destruct (getitem (tel.uniquepairs t) ii) as [p|e] eqn:Hp.
  2:{ destruct (getitem_lt _ _ Hii) as [p Hp']. congruence. }
  destruct (getitem_Ok _ _ _ (0%nat, 0%nat) Hp) as [_ Hp'].
  destruct (Hfeeds ii Hii) as (H1 & H2 & H3 & H4). cbv zeta in H1, H2, H3, H4.
  rewrite Hp' in H1, H2, H3, H4. cbn [bind].
  destruct (getitem_lt _ _ H1) as [bi ->]. cbn [bind].
  destruct (getitem_lt _ _ H2) as [bj ->]. cbn [bind].
  destruct (getitem (tel.feedmap t) (fst p)) as [row|e] eqn:Hrow.
  2:{ destruct (getitem_lt _ _ H3) as [row Hrow']. congruence. }
  destruct (getitem_Ok _ _ _ [] Hrow) as [_ Hrow'].
  rewrite Hrow' in H4. cbn [bind].
  destruct (getitem_lt _ _ H4) as [upi ->]. cbn [bind].
  destruct (upi =? -1)%Z; [apply IH'|].
  destruct (bi =? bj)%Z; [|apply IH'].
  destruct (getitem_lt _ _ Hv) as [v ->]. cbn [bind].
  destruct (getitem_lt _ _ Hw) as [w ->]. cbn [bind].
  apply IH'.
Qed.

Lemma stokes_I_unfold (sstream : SiderealStream) (t : tel.telescope) :
  stokes_I sstream t
  = let a := tel.baselines t in
    let u := fold_right insert_unique [] a in
    let uinv := map (fun x => index_of x u) a in
    let ucount := map (fun x => length (filter (complex_eqb x) a)) u in
    acc <- stokes_products sstream t ucount
             (combine (seq 0 (length uinv)) uinv)
             (repeat (czeros (length (freq_centre sstream))
                        (length (index_time sstream))) (length u),
              repeat (zeros (length (freq_centre sstream))
                        (length (index_time sstream))) (length u)) ;;
    Ok {| vis_I := fst acc; vis_weight := snd acc; baselines := u |}.
Proof. reflexivity. Qed.

(** The call returns when every index the loop can use is in range. *)
Lemma stokes_I_returns (sstream : SiderealStream) (t : tel.telescope) :
  (length (tel.baselines t) <= length (tel.uniquepairs t))%nat ->
  (length (tel.baselines t) <= length (vis sstream))%nat ->
  (length (tel.baselines t) <= length (weight sstream))%nat ->
  (forall ii, (ii < length (tel.uniquepairs t))%nat ->
     let p := nth ii (tel.uniquepairs t) (0%nat, 0%nat) in
     (fst p < length (tel.beamclass t))%nat
     /\ (snd p < length (tel.beamclass t))%nat
     /\ (fst p < length (tel.feedmap t))%nat
     /\ (snd p < length (nth (fst p) (tel.feedmap t) []))%nat) ->
  exists sk, stokes_I sstream t = Ok sk.
Proof.
  rewrite stokes_I_unfold. cbv zeta.
  intros Hpairs Hvis Hweight Hfeeds.
  match goal with
  | |- context [stokes_products ?s ?tt ?uc ?pr ?ac] =>
      destruct (stokes_products_returns s tt uc pr) with (acc := ac)
        as [acc' Hacc]
  end.
  - intros [ii u] Hp. cbn [fst snd].
    pose proof (in_combine_l _ _ _ _ Hp) as Hii.
    pose proof (in_combine_r _ _ _ _ Hp) as Hu.
    apply in_seq in Hii. rewrite length_map in Hii.
    apply in_map_iff in Hu. destruct Hu as (x & <- & Hx).
    rewrite length_map. split; [|len_lia].
    apply index_of_spec. now apply In_unique.
  - exact Hfeeds.
  - rewrite Hacc. cbn [bind]. now eexists.
Qed.

(** [X16] The baselines [stokes_I] returns are the distinct baseline
    vectors of the telescope in ascending order, without repeats, and
    there is one array of visibilities and one of weights per baseline.
    The call returns whenever the telescope has the two feeds of every
    unique pair, the feeds are known to the beam classes and the feed map,
    and the stream has a product for every unique pair. *)
Theorem stokes_I_baselines (sstream : SiderealStream) (t : tel.telescope) :
  (forall sk, stokes_I sstream t = Ok sk ->
     ascending (baselines sk) /\ NoDup (baselines sk)
     /\ (forall b, In b (baselines sk) <-> In b (tel.baselines t))
     /\ length (vis_I sk) = length (baselines sk)
     /\ length (vis_weight sk) = length (baselines sk))
  /\ ((length (tel.baselines t) <= length (tel.uniquepairs t))%nat ->
      (length (tel.baselines t) <= length (vis sstream))%nat ->
      (length (tel.baselines t) <= length (weight sstream))%nat ->
      (forall ii, (ii < length (tel.uniquepairs t))%nat ->
         let p := nth ii (tel.uniquepairs t) (0%nat, 0%nat) in
         (fst p < length (tel.beamclass t))%nat
         /\ (snd p < length (tel.beamclass t))%nat
         /\ (fst p < length (tel.feedmap t))%nat
         /\ (snd p < length (nth (fst p) (tel.feedmap t) []))%nat) ->
      exists sk, stokes_I sstream t = Ok sk).
Proof.
  split; [|apply stokes_I_returns].
  rewrite stokes_I_unfold. cbv zeta.
  intros sk H.
  destruct (stokes_products _ _ _ _ _) as [acc|e] eqn:Hloop;
    cbn [bind] in H; [|discriminate].
  inversion H. subst sk. clear H. cbn [baselines vis_I vis_weight].
  destruct (stokes_products_rows _ _ _ _ _ _ Hloop) as (Hl1 & Hl2 & _).
  cbn [fst snd] in Hl1, Hl2. rewrite repeat_length in Hl1, Hl2.
  split; [apply unique_ascending|].
  split; [apply ascending_NoDup, unique_ascending|].
  split; [intros b; apply In_unique|]. now split.
Qed.

Lemma pol_stokes_returns : exists sk, stokes_I pol_stream pol_telescope = Ok sk.
Proof.
  apply stokes_I_returns.
  - simpl. lia.
  - simpl. lia.
  - simpl. lia.
  - intros ii Hii. simpl in Hii.
    destruct ii as [|[|[|[|[|ii]]]]]; simpl; lia.
Qed.

Lemma stokes_I_baselines_witness :
  exists sk,
    stokes_I pol_stream pol_telescope = Ok sk
    /\ NoDup (baselines sk)
    /\ length (vis_I sk) = length (baselines sk).
Proof.
  pose proof (stokes_I_baselines pol_stream pol_telescope) as [Hshape Hret].
  destruct Hret as [sk Hsk].
  - simpl. lia.
  - simpl. lia.
  - simpl. lia.
  - intros ii Hii. simpl in Hii.
    destruct ii as [|[|[|[|[|ii]]]]]; simpl; lia.
  - exists sk. destruct (Hshape sk Hsk) as (_ & Hnd & _ & Hlen & _).
    repeat split; assumption.
Defined.

Lemma nth_repeat_any {T : Type} (x d : T) (n i : nat) :
  (i < n)%nat -> nth i (repeat x n) d = x.
Proof.
  intros Hi. rewrite (nth_indep _ d x) by now rewrite repeat_length.
  apply nth_repeat.
Qed.

Lemma filter_none {T : Type} (f : T -> bool) (l : list T) :
  (forall x, In x l -> f x = false) -> filter f l = [].
Proof.
  induction l as [|x l IH]; intros H; [reflexivity|].
  cbn [filter]. rewrite (H x) by now left. apply IH.
  intros y Hy. apply H. now right.
Qed.

(** The arrays [stokes_I] returns for one baseline. *)
Lemma stokes_I_rows (sstream : SiderealStream)
  (t : tel.telescope) (sk : stokes) (ui : nat) :
  stokes_I sstream t = Ok sk ->
  (ui < length (baselines sk))%nat ->
  let b := nth ui (baselines sk) c0 in
  let selected := fun ii =>
    (4 <=? length (filter (complex_eqb b) (tel.baselines t)))%nat
    && (complex_eqb (nth ii (tel.baselines t) c0) b && copolar t ii) in
  let mine := filter selected (seq 0 (length (tel.baselines t))) in
  let nf := length (freq_centre sstream) in
  let nt := length (index_time sstream) in
  nth ui (vis_I sk) []
  = fold_left cmat_add (map (fun ii => nth ii (vis sstream) []) mine)
      (czeros nf nt)
  /\ nth ui (vis_weight sk) []
     = fold_left mat_add (map (fun ii => nth ii (weight sstream) []) mine)
         (zeros nf nt).
Proof.
  rewrite stokes_I_unfold. cbv zeta. intros H.
  destruct (stokes_products _ _ _ _ _) as [acc|e] eqn:Hloop;
    cbn [bind] in H; [|discriminate].
  inversion H. subst sk. clear H. cbn [baselines vis_I vis_weight].
  intros Hui. cbv zeta.
  set (a := tel.baselines t) in *.
  set (u := fold_right insert_unique [] a) in *.
  set (b := nth ui u c0).
  set (ucount := map (fun x => length (filter (complex_eqb x) a)) u) in *.
  set (uinv := map (fun x => index_of x u) a) in *.
  destruct (stokes_products_rows _ _ _ _ _ _ Hloop) as (_ & _ & Hrows).
  destruct (Hrows ui) as [Hv Hw]. clear Hrows. cbv zeta in Hv, Hw.
  cbn [fst snd] in Hv, Hw.
  rewrite nth_repeat_any in Hv by exact Hui.
  rewrite nth_repeat_any in Hw by exact Hui.
  rewrite Hv, Hw. clear Hv Hw.
  rewrite !fold_left_filter_map.
  assert (Hlen : length uinv = length a) by (unfold uinv; apply length_map).
  rewrite (combine_seq_nth 0%nat uinv 0%nat).
  rewrite !filter_map_comm, !map_map. cbn [fst snd]. rewrite Hlen.
  assert (Hnd : NoDup u) by apply ascending_NoDup, unique_ascending.
  assert (Hcount : nth ui ucount 0%nat
                   = length (filter (complex_eqb b) a)).
  { unfold ucount.
    rewrite (nth_indep _ 0%nat (length (filter (complex_eqb c0) a)))
      by now rewrite length_map.
    now rewrite (map_nth (fun x => length (filter (complex_eqb x) a)) u c0 ui). }
  assert (Hsel : forall ii, In ii (seq 0 (length a)) ->
            (nth (ii - 0) uinv 0 =? ui)%nat
            && (4 <=? nth (nth (ii - 0) uinv 0%nat) ucount 0)%nat
            && copolar t ii
            = (4 <=? length (filter (complex_eqb b) a))%nat
              && (complex_eqb (nth ii a c0) b && copolar t ii)).
  { intros ii Hii. apply in_seq in Hii. rewrite Nat.sub_0_r.
    assert (Hinv : nth ii uinv 0%nat = index_of (nth ii a c0) u).
    { unfold uinv.
      rewrite (nth_indep _ 0%nat (index_of c0 u)) by (rewrite length_map; len_lia).
      now rewrite (map_nth (fun x => index_of x u) a c0 ii). }
    assert (Hin : In (nth ii a c0) u)
      by (apply In_unique; apply nth_In; len_lia).
    destruct (index_of_spec _ _ Hin) as [Hlt Hnth].
    rewrite Hinv.
    destruct (complex_eqb (nth ii a c0) b) eqn:E.
    - apply complex_eqb_eq in E. rewrite E. unfold b at 1 2.
      rewrite index_of_nth by assumption.
      rewrite Nat.eqb_refl, Hcount. cbn [andb].
      now destruct (4 <=? _)%nat.
    - replace (index_of (nth ii a c0) u =? ui)%nat with false.
      + cbn [andb]. now rewrite andb_false_r.
      + symmetry. apply Nat.eqb_neq. intros Heq.
        apply complex_eqb_neq in E. apply E. unfold b.
        now rewrite <- Heq. }
  rewrite !(filter_ext_in _ _ _ Hsel). split; reflexivity.
Qed.

(** [X17] Stokes I of a baseline: when fewer than four unique pairs have
    the baseline, its visibilities and weights are left at zero;
    otherwise they are the sums, in the order of the products, over the
    products of that baseline whose two feeds are mapped to a unique pair
    and have the same beam class. *)
Theorem stokes_I_baseline_sum (sstream : SiderealStream)
  (t : tel.telescope) (sk : stokes) (ui : nat) :
  stokes_I sstream t = Ok sk ->
  (ui < length (baselines sk))%nat ->
  let b := nth ui (baselines sk) c0 in
  let count := length (filter (complex_eqb b) (tel.baselines t)) in
  let mine :=
    filter (fun ii => complex_eqb (nth ii (tel.baselines t) c0) b
                      && copolar t ii)
      (seq 0 (length (tel.baselines t))) in
  let nf := length (freq_centre sstream) in
  let nt := length (index_time sstream) in
  nth ui (vis_I sk) []
  = (if (count <? 4)%nat then czeros nf nt
     else fold_left cmat_add (map (fun ii => nth ii (vis sstream) []) mine)
            (czeros nf nt))
  /\ nth ui (vis_weight sk) []
     = (if (count <? 4)%nat then zeros nf nt
        else fold_left mat_add
               (map (fun ii => nth ii (weight sstream) []) mine)
               (zeros nf nt)).
Proof.
  intros Hsk Hui. cbv zeta.
  destruct (stokes_I_rows sstream t sk ui Hsk Hui) as [Hv Hw].
  cbv zeta in Hv, Hw. rewrite Hv, Hw. clear Hv Hw.
  match goal with
  | |- context [if ?c then _ else _] => destruct c eqn:H4
  end.
  - apply Nat.ltb_lt in H4.
    rewrite filter_none; [split; reflexivity|].
    intros ii _. rewrite (proj2 (Nat.leb_gt 4 _)) by exact H4. reflexivity.
  - apply Nat.ltb_ge in H4.
    assert (Hext : forall ii,
              (4 <=? length (filter (complex_eqb (nth ui (baselines sk) c0))
                               (tel.baselines t)))%nat
              && (complex_eqb (nth ii (tel.baselines t) c0)
                    (nth ui (baselines sk) c0) && copolar t ii)
              = complex_eqb (nth ii (tel.baselines t) c0)
                  (nth ui (baselines sk) c0) && copolar t ii).
    { intros ii. now rewrite (proj2 (Nat.leb_le 4 _)) by exact H4. }
    rewrite (filter_ext _ _ Hext). split; reflexivity.
Qed.

Lemma stokes_I_baselines_eq (sstream : SiderealStream) (t : tel.telescope)
  (sk : stokes) :
  stokes_I sstream t = Ok sk ->
  baselines sk = fold_right insert_unique [] (tel.baselines t).
Proof.
  rewrite stokes_I_unfold. cbv zeta.
  destruct (stokes_products _ _ _ _ _) as [acc|e]; cbn [bind];
    [|discriminate].
  intros H. now inversion H.
Qed.

Lemma stokes_I_baseline_sum_witness :
  exists sk,
    stokes_I pol_stream pol_telescope = Ok sk
    /\ nth 0 (vis_I sk) []
       = (if (length (filter (complex_eqb (nth 0 (baselines sk) c0))
                        (tel.baselines pol_telescope)) <? 4)%nat
          then czeros 2 1
          else fold_left cmat_add
                 (map (fun ii => nth ii (vis pol_stream) [])
                    (filter (fun ii =>
                       complex_eqb (nth ii (tel.baselines pol_telescope) c0)
                         (nth 0 (baselines sk) c0)
                       && copolar pol_telescope ii) (seq 0 5)))
                 (czeros 2 1)).
Proof.
  destruct pol_stokes_returns as [sk Hsk]. exists sk. split; [exact Hsk|].
  refine (proj1 (stokes_I_baseline_sum pol_stream pol_telescope sk 0 Hsk _)).
  rewrite (stokes_I_baselines_eq _ _ _ Hsk).
  assert (Hin : In (0, 0) (fold_right insert_unique []
                             (tel.baselines pol_telescope)))
    by (apply In_unique; now left).
  destruct (fold_right insert_unique [] (tel.baselines pol_telescope));
    [destruct Hin | simpl; lia].
Defined.

(** ** DelaySpectrumEstimator on a stream *)

Lemma all_zero_czeros (n m : nat) : all_zero (czeros n m) = true.
Proof.
  unfold all_zero, czeros, mk_matrix. apply forallb_forall.
  intros row Hrow. apply in_map_iff in Hrow. destruct Hrow as (i & <- & _).
  apply forallb_forall. intros z Hz. apply in_map_iff in Hz.
  destruct Hz as (j & <- & _). unfold c0, RtoC. cbn [fst snd].
  destruct (Req_dec_T 0 0); [reflexivity | contradiction].
Qed.

(** [X18] Run on a stream, the task leaves at zero the spectrum of every
    baseline that fewer than four unique pairs have, or none of whose
    pairs is mapped and has feeds of one beam class, and does not run the
    sampler on it; the stream is redistributed over frequency and
    otherwise left as it was. *)
Theorem estimator_skips_sparse_baselines
  (solve : matrix -> matrix -> result matrix)
  (rng : nat -> nat -> rng_draw) (self : DelaySpectrumEstimator)
  (t : tel.telescope) (ss : ref) (h h' : store) (ds : DelaySpectrum)
  (calls : list nat) (ui : nat) :
  DelaySpectrumEstimator_process_stream solve rng self t ss h
  = ((Ok ds, calls), h') ->
  (ui < length (baseline ds))%nat ->
  (length (filter (complex_eqb (nth ui (baseline ds) c0))
             (tel.baselines t)) < 4)%nat
  \/ (forall ii, (ii < length (tel.baselines t))%nat ->
        nth ii (tel.baselines t) c0 = nth ui (baseline ds) c0 ->
        copolar t ii = false) ->
  nth ui (spectrum ds) [] = repeat 0 (length (delay ds))
  /\ ~ In ui calls
  /\ h' = redistribute AxisFreq ss h.
Proof.
  unfold DelaySpectrumEstimator_process_stream. cbv zeta.
  destruct (stokes_I (redistribute AxisFreq ss h ss) t) as [sk|e] eqn:Hsk;
    [|discriminate].
  intros H Hui Hsparse. inversion H as [[Hout Hh]]. clear H.
  set (freq := freq_centre (redistribute AxisFreq ss h ss)) in *.
  assert (Hfst : fst (DelaySpectrumEstimator_process solve rng self freq sk)
                 = Ok ds) by now rewrite Hout.
  assert (Hsnd : snd (DelaySpectrumEstimator_process solve rng self freq sk)
                 = calls) by now rewrite Hout.
  destruct (estimator_process_rows solve rng self freq sk ds Hfst)
    as (ci & fs & nd & _ & Hbase & _ & Hrows).
  rewrite Hbase in Hui, Hsparse.
  assert (Hzero : all_zero (baseline_data sk ui) = true).
  { unfold baseline_data. apply all_zero_ctranspose.
    destruct (stokes_I_rows _ _ _ ui Hsk Hui) as [Hv _]. cbv zeta in Hv.
    rewrite Hv, filter_none; [apply all_zero_czeros|].
    intros ii Hii. apply in_seq in Hii.
    destruct Hsparse as [Hfew|Hnone].
    - now rewrite (proj2 (Nat.leb_gt 4 _)) by exact Hfew.
    - destruct (complex_eqb _ _) eqn:E; [|now rewrite andb_false_r].
      apply complex_eqb_eq in E. cbn [andb].
      rewrite (Hnone ii) by (try exact E; lia). apply andb_false_r. }
  split; [now apply (Hrows ui Hui)|]. split; [|reflexivity].
  intros Hin. rewrite <- Hsnd in Hin.
  pose proof (estimator_process_calls solve rng self freq sk ui Hin) as Hnz.
  congruence.
Qed.

Lemma pol_unique :
  fold_right insert_unique [] (tel.baselines pol_telescope)
  = [(0, 0); (1, 0)].
Proof.
  assert (Hne : complex_eqb (0, 0) (1, 0) = false)
    by (apply complex_eqb_neq; intros H; inversion H; lra).
  assert (Hlt : complex_ltb (0, 0) (1, 0) = true).
  { unfold complex_ltb. cbn [fst snd].
    destruct (Rlt_dec 0 1); [reflexivity | exfalso; lra]. }
  cbn [pol_telescope tel.baselines fold_right insert_unique].
  rewrite Hne, Hlt.
  repeat (progress (cbn [insert_unique]; rewrite ?complex_eqb_refl)).
  reflexivity.
Qed.

Lemma pol_np_unique :
  np_unique (tel.baselines pol_telescope)
  = ([(0, 0); (1, 0)], [0; 0; 0; 0; 1]%nat, [4; 1]%nat).
Proof.
  assert (Hne : complex_eqb (0, 0) (1, 0) = false)
    by (apply complex_eqb_neq; intros H; inversion H; lra).
  assert (Hne' : complex_eqb (1, 0) (0, 0) = false)
    by (apply complex_eqb_neq; intros H; inversion H; lra).
  unfold np_unique. rewrite pol_unique.
  cbn [pol_telescope tel.baselines map index_of filter].
  rewrite !complex_eqb_refl, Hne, Hne'. reflexivity.
Qed.

(** The pairs of one polarisation on the zero baseline add up; the
    baseline that has one pair only stays zero. *)
Lemma pol_pair_stokes :
  stokes_I pol_pair_stream pol_telescope = Ok pair_stokes.
Proof.
  unfold stokes_I. rewrite pol_np_unique.
  cbn -[Rplus Rmult Rminus Rdiv Ropp Rinv IZR].
  unfold pair_stokes, c0, RtoC.
  repeat (f_equal; try lra); apply complex_eq; simpl; lra.
Qed.

Lemma pol_process_returns :
  exists ds calls,
    DelaySpectrumEstimator_process_stream solve_2x2
      (fun _ => pair_rng) (example_estimator 20) pol_telescope 0%nat
      pol_pair_store
    = ((Ok ds, calls), redistribute AxisFreq 0%nat pol_pair_store)
    /\ baseline ds = [(0, 0); (1, 0)].
Proof.
  unfold DelaySpectrumEstimator_process_stream. cbv zeta.
  change (redistribute AxisFreq 0%nat pol_pair_store 0%nat)
    with pol_pair_stream.
  rewrite pol_pair_stokes.
  change (freq_centre pol_pair_stream) with [0; 1].
  destruct (pair_process_returns 20 ltac:(lia)) as [ds [Hds _]].
  destruct (estimator_process_rows solve_2x2 (fun _ => pair_rng)
              (example_estimator 20) [0; 1] pair_stokes ds Hds)
    as (_ & _ & _ & _ & Hbase & _).
  destruct (DelaySpectrumEstimator_process _ _ _ _ _) as [r calls].
  cbn [fst] in Hds. subst r. exists ds, calls. split; [reflexivity|].
  now rewrite Hbase.
Qed.

Lemma estimator_skips_sparse_baselines_witness :
  exists ds calls,
    DelaySpectrumEstimator_process_stream solve_2x2
      (fun _ => pair_rng) (example_estimator 20) pol_telescope 0%nat
      pol_pair_store
    = ((Ok ds, calls), redistribute AxisFreq 0%nat pol_pair_store)
    /\ nth 1 (spectrum ds) [] = repeat 0 (length (delay ds))
    /\ ~ In 1%nat calls.
Proof.
  destruct pol_process_returns as (ds & calls & Hrun & Hbase).
  exists ds, calls. split; [exact Hrun|].
  destruct (estimator_skips_sparse_baselines solve_2x2
              (fun _ => pair_rng) (example_estimator 20) pol_telescope
              0%nat pol_pair_store (redistribute AxisFreq 0%nat pol_pair_store)
              ds calls 1 Hrun) as (Hrow & Hcalls & _).
  - rewrite Hbase. simpl. lia.
  - left. rewrite Hbase. cbn [nth pol_telescope tel.baselines filter].
    assert (Hne : complex_eqb (1, 0) (0, 0) = false)
      by (apply complex_eqb_neq; intros H; inversion H; lra).
    rewrite Hne, complex_eqb_refl. simpl. lia.
  - split; assumption.
Defined.

(** ** Channel selections and empty axes *)

Lemma channels_all_nth (N f : Z) :
  (0 <= f <= N / 2)%Z ->
  (Z.to_nat f < length (channels N None))%nat
  /\ nth (Z.to_nat f) (channels N None) 0%Z = f.
Proof.
  intros Hf. cbn [channels]. rewrite arange_length.
  split; [lia|]. rewrite nth_arange by lia. lia.
Qed.

(** [X19] A channel selection picks rows and columns of the full design
    matrices: the two rows of the real-to-complex matrix, and the two
    columns of the complex-to-real matrix, built for the [k]-th selected
    channel [f] are those the matrices built for all channels have for
    channel [f]. *)
Theorem design_matrix_selection (N : Z) (l : list Z) (k t : nat) :
  (t < Z.to_nat N)%nat -> (k < length l)%nat ->
  (0 <= nth k l 0 <= N / 2)%Z ->
  let f := Z.to_nat (nth k l 0%Z) in
  get (fourier_matrix_r2c N (Some l)) (2 * k) t
  = get (fourier_matrix_r2c N None) (2 * f) t
  /\ get (fourier_matrix_r2c N (Some l)) (2 * k + 1) t
     = get (fourier_matrix_r2c N None) (2 * f + 1) t
  /\ get (fourier_matrix_c2r N (Some l)) t (2 * k)
     = get (fourier_matrix_c2r N None) t (2 * f)
  /\ get (fourier_matrix_c2r N (Some l)) t (2 * k + 1)
     = get (fourier_matrix_c2r N None) t (2 * f + 1).
Proof.
  intros Ht Hk Hf f.
  destruct (channels_all_nth N _ Hf) as [Hlt Hnth]. fold f in Hlt, Hnth.
  assert (Hk' : (k < length (channels N (Some l)))%nat) by exact Hk.
  rewrite (r2c_cos_entry N (Some l) t k Ht Hk').
  rewrite (r2c_sin_entry N (Some l) t k Ht Hk').
  rewrite (c2r_cos_entry N (Some l) t k Ht Hk').
  rewrite (c2r_sin_entry N (Some l) t k Ht Hk').
  rewrite (r2c_cos_entry N None t f Ht Hlt).
  rewrite (r2c_sin_entry N None t f Ht Hlt).
  rewrite (c2r_cos_entry N None t f Ht Hlt).
  rewrite (c2r_sin_entry N None t f Ht Hlt).
  rewrite Hnth. cbn [channels]. repeat split; reflexivity.
Qed.

Lemma design_matrix_selection_witness :
  get (fourier_matrix_r2c 8 (Some [3; 1]%Z)) (2 * 0) 5
  = get (fourier_matrix_r2c 8 None) (2 * Z.to_nat (nth 0 [3; 1]%Z 0%Z)) 5.
Proof.
  apply (proj1 (design_matrix_selection 8 [3; 1]%Z 0 5
                  ltac:(simpl; lia) ltac:(simpl; lia)
                  ltac:(cbn [nth]; change (8 / 2)%Z with 4%Z; lia))).
Defined.

(** [X20] A stream without frequency channels: when it has a product,
    [DelayFilter.process] raises the [ValueError] of the minimum of an
    empty array, having redistributed the stream over products and
    changed nothing else. *)
Theorem delay_filter_empty_axis_raises (svd : cmatrix -> svd_result)
  (self : DelayFilter) (ss : ref) (h : store) :
  update_weight self = false ->
  freq_centre (h ss) = [] ->
  vis (h ss) <> [] ->
  DelayFilter_process svd self ss h
  = (Raise (ValueError "zero-size array to reduction operation minimum"),
     redistribute AxisProd ss h).
Proof.
  intros Hup Hfreq Hvis.
  rewrite DelayFilter_process_unfold by exact Hup.
  rewrite Hfreq.
  destruct (vis (h ss)) as [|v vs]; [congruence|].
  cbn [length seq filter_products]. reflexivity.
Qed.

Lemma delay_filter_empty_axis_raises_witness :
  DelayFilter_process example_svd example_filter 0%nat empty_axis_store
  = (Raise (ValueError "zero-size array to reduction operation minimum"),
     redistribute AxisProd 0%nat empty_axis_store).
Proof.
  apply (delay_filter_empty_axis_raises example_svd example_filter 0%nat
           empty_axis_store eq_refl eq_refl).
  discriminate.
Defined.
